(** * Discorb: a prefix-command router for chat bots

    A shallow embedding of [src/discorb.ts] (class [Bot]): the prefix parser,
    the command tree with its two walks, registration, the dispatcher
    [receive] with its help and error branches, the state container with its
    listeners, and the connection to a client.

    Conventions of the embedding.
    - A JavaScript string is a [string]: one [ascii] per code unit, code units
      below 256.  Whitespace ([\s] of regular expressions, and what [trim]
      strips) is, in that range, TAB, LF, VT, FF, CR, SPACE and U+00A0.
    - The dictionaries of commands ([Record<string, Command>]: the field
      [commands] of the bot and the field [sub] of a command) are plain
      objects.  Their own keys are a [gmap string Command]; a read
      [dict[name]] is [get_property]: the own key where there is one, and
      otherwise, for the names that every object inherits from
      [Object.prototype], the value found there, a function (or object) of
      the host, [Native name].  A [Value] is what such a read gives: a
      command of the tree ([Node]) or a value of the host ([Native]).  A
      value of the host has no field [sub], [action] or [help] of its own:
      a read of [sub] gives [undefined], a read through it is the
      [TypeError] of the engine, [TypeErrorUndefined property].
    - [help] writes the field [help] of what the path resolves to, also
      when that is a value of the host; these fields are the store
      [natives] of the [World].  A write on [Object.prototype] itself (the
      path [__proto__]) would give a field [help] to every object of the
      program: this one step is outside the embedding, and its outcome is
      [Unmodelled].
    - The walk over own keys alone ([own_child], [node_at], [free_slot]) is
      kept next to the walks of the code, to state where a command of the
      tree sits.
    - The bot state is a dictionary that is only copied and merged; it is a
      [gmap string _] of its own keys.
    - Functions supplied by the user (command actions, help generators, state
      listeners) are referred to by an identifier, compared by identity; what
      a call of them does is given by a table [Callbacks] of outcomes
      (returns, or throws an error).  A rejected promise that is awaited is a
      throw.  A callback is given no access to the bot: what it does to the
      bot it was called by is not part of the embedding.
    - The regular expression that [receive] builds is interpreted for the
      fragment of [Regex]; outside it, what [new RegExp] and [replace] do is
      an outcome of the table [Callbacks] as well.
    - The chat transport ([Message.reply], [console.error]) is a log of
      events; a reply resolves.
    - Methods of [Bot] are computations in a state-and-exception monad over
      the [World] (the bot object, the fields written on values of the
      host, and the event log).
    - The command tree is a tree of values: a command object sits at one
      place of the tree ([register] makes a new object for each node; the
      objects of a plugin's [sub] are taken not to be shared).
    - A discord.js client is known by an identifier; the field [client] of
      the bot and the calls made on clients are the [Connection], which only
      [listen] and [close] touch. *)

From Stdlib Require Import Ascii String Bool Arith Lia.
From stdpp Require Import base option list gmap fin_maps strings sorting.

#[local] Set Warnings "-register-all".
#[local] Arguments String.append : simpl nomatch.

(* ===================================================================== *)
(** * JavaScript string primitives *)
(* ===================================================================== *)

Module Js.

(** [\s]: WhiteSpace and LineTerminator code units below 256. *)
Definition is_space (c : ascii) : bool :=
  match nat_of_ascii c with
  | 9 | 10 | 11 | 12 | 13 | 32 | 160 => true
  | _ => false
  end.

(** [s.startsWith(p)] *)
Fixpoint startsWith (s p : string) {struct p} : bool :=
  match p, s with
  | EmptyString, _ => true
  | String _ _, EmptyString => false
  | String a p', String b s' => if Ascii.eqb a b then startsWith s' p' else false
  end.

(** the left half of [s.trim()] *)
Fixpoint trimStart (s : string) : string :=
  match s with
  | EmptyString => EmptyString
  | String c s' => if is_space c then trimStart s' else s
  end.

(** the right half of [s.trim()] *)
Fixpoint trimEnd (s : string) : string :=
  match s with
  | EmptyString => EmptyString
  | String c s' =>
      match trimEnd s' with
      | EmptyString => if is_space c then EmptyString else String c EmptyString
      | r => String c r
      end
  end.

(** [s.trim()] *)
Definition trim (s : string) : string := trimEnd (trimStart s).

(** [s.replace(/\s+/g, ' ')]: every maximal run of whitespace becomes one
    space.  [in_run] tells that the previous code unit was whitespace. *)
Fixpoint collapse_from (in_run : bool) (s : string) : string :=
  match s with
  | EmptyString => EmptyString
  | String c s' =>
      if is_space c
      then if in_run then collapse_from true s'
           else String " " (collapse_from true s')
      else String c (collapse_from false s')
  end.

Definition collapse (s : string) : string := collapse_from false s.

(** [s.split(' ')]: never empty; the empty string gives [[""]]. *)
Fixpoint split_space (s : string) : list string :=
  match s with
  | EmptyString => [EmptyString]
  | String c s' =>
      if Ascii.eqb c " " then EmptyString :: split_space s'
      else match split_space s' with
           | w :: ws => String c w :: ws
           | [] => [String c EmptyString]
           end
  end.

(** [s.slice(n)] for [n >= 0] *)
Fixpoint slice (n : nat) (s : string) : string :=
  match n, s with
  | 0, _ => s
  | S _, EmptyString => EmptyString
  | S n', String _ s' => slice n' s'
  end.

(** [l.join(sep)] *)
Fixpoint join (sep : string) (l : list string) : string :=
  match l with
  | [] => EmptyString
  | [x] => x
  | x :: l' => x +:+ sep +:+ join sep l'
  end.

(** Whitespace-separated words of a string: the reference, in the words of
    the specification, that the tokens of [parse] are compared to. *)
Fixpoint words (s : string) : list string :=
  match s with
  | EmptyString => []
  | String c s' =>
      if is_space c then words s'
      else match s' with
           | EmptyString => [String c EmptyString]
           | String d _ =>
               if is_space d then String c EmptyString :: words s'
               else match words s' with
                    | w :: ws => String c w :: ws
                    | [] => [String c EmptyString]
                    end
           end
  end.

(** every code unit is whitespace *)
Fixpoint blank (s : string) : bool :=
  match s with
  | EmptyString => true
  | String c s' => is_space c && blank s'
  end.

(** no code unit is whitespace *)
Fixpoint spaceless (s : string) : bool :=
  match s with
  | EmptyString => true
  | String c s' => negb (is_space c) && spaceless s'
  end.

End Js.

(* ===================================================================== *)
(** * The parser *)
(* ===================================================================== *)

(** [Bot.parse], as a function of the configured prefix. *)
Definition parse (prefix message : string) : list string :=
  if Js.startsWith message prefix then
    match Js.split_space (Js.collapse (Js.trim message)) with
    | s0 :: more =>
        if String.eqb s0 prefix then []
        else Js.slice (String.length prefix) s0 :: more
    | [] => []
    end
  else [].

(* ===================================================================== *)
(** * The regular expression of [receive] *)
(* ===================================================================== *)

(** [receive] builds the source [^<prefix><through joined by \s+>\s*] of a
    regular expression from the prefix and the consumed segments, unescaped.
    The fragment modelled here: ordinary characters, the assertions [^] and
    [$], and the two quantified classes [\s*] and [\s+].  A source with any
    other syntax character is outside the fragment ([compile] gives [None]):
    [receive] then asks the host, see [run_regexp]. *)
Module Regex.

Inductive item : Type :=
| Chr (c : ascii)
| Bol
| Eol
| SpaceStar
| SpacePlus.

(** SyntaxCharacter of the ECMAScript pattern grammar *)
Definition syntax_char (c : ascii) : bool :=
  existsb (Ascii.eqb c) (list_ascii_of_string "^$\.*+?()[]{}|").

Fixpoint compile (src : string) : option (list item) :=
  match src with
  | EmptyString => Some []
  | String c r =>
      if Ascii.eqb c "\" then
        match r with
        | String e (String q r') =>
            if Ascii.eqb e "s" then
              if Ascii.eqb q "*" then cons SpaceStar <$> compile r'
              else if Ascii.eqb q "+" then cons SpacePlus <$> compile r'
              else None
            else None
        | _ => None
        end
      else if Ascii.eqb c "^" then cons Bol <$> compile r
      else if Ascii.eqb c "$" then cons Eol <$> compile r
      else if syntax_char c then None
      else cons (Chr c) <$> compile r
  end.

(** The greedy quantifier on [\s]: as many whitespace code units as
    possible, one less on backtracking, then the continuation [k]; [b] tells
    that the position is the start of the input. *)
Fixpoint greedy_spaces (k : bool → string → option string) (b : bool) (s : string)
    : option string :=
  match s with
  | String x s' =>
      if Js.is_space x
      then match greedy_spaces k false s' with
           | Some r => Some r
           | None => k b s
           end
      else k b s
  | EmptyString => k b s
  end.

(** Backtracking match of the items at the current position; [bol] tells
    that the position is the start of the input.  Gives what is left of the
    input after the match. *)
Fixpoint match_here (re : list item) (bol : bool) (s : string) : option string :=
  match re with
  | [] => Some s
  | Chr c :: re' =>
      match s with
      | String x s' => if Ascii.eqb x c then match_here re' false s' else None
      | EmptyString => None
      end
  | Bol :: re' => if bol then match_here re' bol s else None
  | Eol :: re' =>
      match s with
      | EmptyString => match_here re' bol s
      | String _ _ => None
      end
  | SpaceStar :: re' => greedy_spaces (match_here re') bol s
  | SpacePlus :: re' =>
      match s with
      | String x s' =>
          if Js.is_space x then greedy_spaces (match_here re') false s' else None
      | EmptyString => None
      end
  end.

(** [s.replace(re, '')] for a regular expression without the [g] flag: the
    first position with a match, scanning from the left, loses the match. *)
Fixpoint replace_from (re : list item) (bol : bool) (s : string) : string :=
  match match_here re bol s with
  | Some r => r
  | None =>
      match s with
      | EmptyString => EmptyString
      | String c s' => String c (replace_from re false s')
      end
  end.

Definition replace_first (re : list item) (s : string) : string :=
  replace_from re true s.

End Regex.

(* ===================================================================== *)
(** * Data model *)
(* ===================================================================== *)

(** Identities of the functions the user hands to the bot. *)
Definition ActionId := nat.
Definition HelpFnId := nat.
Definition ListenerId := nat.

(** A thrown value: [new Error(message)], or the [TypeError] of the host for
    an access to the property [property] of [undefined]. *)
Inductive Error : Type :=
| MkError (message : string)
| TypeErrorUndefined (property : string).

#[global] Instance Error_eq_dec : EqDecision Error.
Proof. solve_decision. Defined.

(** What [Message.reply] is given: [HelpMessage] of the source, a text or an
    embed with a title and named fields; [Undefined] is a missing payload. *)
Inductive HelpMessage : Type :=
| Undefined
| Text (s : string)
| Embed (title : string) (fields : list (string * string)).

(** [Help]: a message, or a function of the bot that makes one. *)
Inductive Help : Type :=
| StaticHelp (m : HelpMessage)
| DynamicHelp (f : HelpFnId).

(** [Command]: a node of the command tree. *)
Inductive Command : Type :=
  mkCommand { cmd_action : ActionId;
              cmd_sub : gmap string Command;
              cmd_help : option Help }.

(** What a lookup in a dictionary of commands finds, when it finds something:
    a command that the dictionary holds, or, under a name that the dictionary
    does not hold, the property of that name of [Object.prototype], which
    every object inherits: a function of the host, and for [__proto__] the
    object [Object.prototype] itself.  The code takes either for a
    [Command]. *)
Inductive Value : Type :=
| Node (c : Command)
| Native (name : string).

(** [Plugin]: the object form of the arguments of [register]. *)
Record Plugin : Type :=
  mkPlugin { plugin_command : string;
             plugin_action : ActionId;
             plugin_sub : option (gmap string Command);
             plugin_help : option Help }.

(** The two forms of the arguments of [register]. *)
Inductive RegisterArgs : Type :=
| ByPlugin (options : Plugin)
| ByPath (commandPath : string) (action : ActionId) (help : option Help).

(** [CommandsThrough]: the result of the permissive walk. *)
Record CommandsThrough : Type :=
  mkCommandsThrough { through : list string; command : option Value }.

(** The part of a discord.js [Message] that the bot reads. *)
Record Message : Type :=
  mkMessage { author_bot : bool; content : string }.

Record Request : Type :=
  mkRequest { req_message : Message;
              req_components : list string;
              req_commands : list string;
              req_args : list string;
              req_rest : string;
              req_command : option Value }.

(** Values held in the state object; the merge never looks inside them. *)
Inductive JsValue : Type :=
| JsNull
| JsBool (b : bool)
| JsNumber (z : Z)
| JsString (s : string).

(** The state [S]: [undefined] before the first [setState], then an object. *)
Definition State : Type := option (gmap string JsValue).

Record ConstructorOptions : Type :=
  mkOptions { opt_prefix : string;
              opt_invalidCommandError : option string;
              opt_errorMessage : option string }.

Record Bot : Type :=
  mkBot { prefix : string;
          commands : gmap string Command;
          state : State;
          invalidCommandError : string;
          errorMessage : string;
          (** a [Set]: insertion order, no element twice *)
          stateListeners : list ListenerId }.

Definition default_invalidCommandError : string :=
  "I've checked my data banks and could not find record of that command. Maybe you should check yours?".

Definition default_errorMessage : string :=
  "Unexpected error completing your request. Check console for error log.".

(** [new Bot(options)] *)
Definition newBot (options : ConstructorOptions) : Bot :=
  {| prefix := opt_prefix options;
     commands := ∅;
     state := None;
     invalidCommandError := default default_invalidCommandError (opt_invalidCommandError options);
     errorMessage := default default_errorMessage (opt_errorMessage options);
     stateListeners := [] |}.

(** What a call of a user function does: an action returns or throws, a help
    generator gives a message or throws, a listener returns or throws.  All
    are bound to the bot, which they may read.  [run_regexp source s] is what
    [s.replace(new RegExp(source), '')] does for a source outside the fragment
    of [Regex.compile]: it throws (a [SyntaxError]) or gives a string. *)
Record Callbacks : Type :=
  mkCallbacks { run_action : ActionId → Bot → Request → option Error;
                run_help : HelpFnId → Bot → Error + HelpMessage;
                run_listener : ListenerId → Bot → State → State → option Error;
                run_regexp : string → string → Error + string }.

(** Calls that leave the bot, in the order they are made. *)
Inductive Event : Type :=
| EvReply (to : Message) (payload : HelpMessage)
| EvConsoleError (error : Error)
| EvAction (action : ActionId) (request : Request)
| EvHelp (f : HelpFnId)
| EvListener (listener : ListenerId) (previousState newState : State).

(** The bot, the host objects that it can reach, and the calls made.
    [natives] is the property [help] of the functions of [Object.prototype],
    by the name that leads to them: nothing on a host that no [Bot.help] has
    written on. *)
Record World : Type :=
  mkWorld { bot : Bot; natives : gmap string Help; log : list Event }.

(* ===================================================================== *)
(** * The monad of bot methods *)
(* ===================================================================== *)

(** A method returns or throws.  [Unmodelled] is a run that goes on in a state
    that [World] cannot hold: [Bot.help] is the one method that leaves it, by
    a write on [Object.prototype], after which every object of the host has a
    property [help]. *)
Inductive Result (A : Type) : Type :=
| Ret (a : A)
| Throw (e : Error)
| Unmodelled.
Arguments Ret {A} a.
Arguments Throw {A} e.
Arguments Unmodelled {A}.

Definition M (A : Type) : Type := World → World * Result A.

#[global] Instance M_ret : MRet M := λ A a w, (w, Ret a).

#[global] Instance M_bind : MBind M := λ A B f m w,
  match m w with
  | (w', Ret a) => f a w'
  | (w', Throw e) => (w', Throw e)
  | (w', Unmodelled) => (w', Unmodelled)
  end.

(** [throw e] *)
Definition throw {A} (e : Error) : M A := λ w, (w, Throw e).

(** [try { m } catch (error) { h error }] *)
Definition try_catch {A} (m : M A) (h : Error → M A) : M A := λ w,
  match m w with
  | (w', Throw e) => h e w'
  | r => r
  end.

(** [this] *)
Definition this : M Bot := λ w, (w, Ret (bot w)).

(** assignment to fields of [this] *)
Definition update (f : Bot → Bot) : M unit := λ w,
  ({| bot := f (bot w); natives := natives w; log := log w |}, Ret tt).

(** a call that leaves the bot *)
Definition emit (ev : Event) : M unit := λ w,
  ({| bot := bot w; natives := natives w; log := log w ++ [ev] |}, Ret tt).

(** a run that leaves the states of [World] *)
Definition unmodelled {A} : M A := λ w, (w, Unmodelled).

(** a pure computation that may throw *)
Definition lift {A} (r : Result A) : M A := λ w, (w, r).

(** [l.forEach(f)] *)
Fixpoint forEach {A} (f : A → M unit) (l : list A) : M unit :=
  match l with
  | [] => mret tt
  | x :: l' => f x ;; forEach f l'
  end.

(* ===================================================================== *)
(** * The command tree and its walks *)
(* ===================================================================== *)

(** The names of the properties of [Object.prototype]. *)
Definition object_prototype_names : list string :=
  [ "constructor"; "__defineGetter__"; "__defineSetter__"; "hasOwnProperty";
    "__lookupGetter__"; "__lookupSetter__"; "isPrototypeOf";
    "propertyIsEnumerable"; "toString"; "valueOf"; "__proto__";
    "toLocaleString" ].

(** The name is one that every object inherits. *)
Definition inherited (name : string) : bool :=
  existsb (String.eqb name) object_prototype_names.

(** [o[name]] for a dictionary [o] of commands, made as [{}]: what [o] holds
    under the name, and else what it inherits. *)
Definition get_property (o : gmap string Command) (name : string) : option Value :=
  match o !! name with
  | Some c => Some (Node c)
  | None => if inherited name then Some (Native name) else None
  end.

(** [current != undefined ? current.sub[command] : this.commands[command]];
    a host object has no property [sub]. *)
Definition child_of (root : gmap string Command) (current : option Value)
    (segment : string) : Result (option Value) :=
  match current with
  | Some (Node c) => Ret (get_property (cmd_sub c) segment)
  | Some (Native _) => Throw (TypeErrorUndefined segment)
  | None => Ret (get_property root segment)
  end.

(** The loop of [strictDive]: [None] when it breaks on a missing segment. *)
Fixpoint strictDive_loop (root : gmap string Command) (current : option Value)
    (path : list string) : Result (option Value) :=
  match path with
  | [] => Ret current
  | segment :: more =>
      match child_of root current segment with
      | Ret (Some v) => strictDive_loop root (Some v) more
      | r => r
      end
  end.

Definition unable_to_follow : Error := MkError "Unable to follow commands".

(** [Bot.strictDive] *)
Definition strictDive (b : Bot) (path : list string) : Result Value :=
  match strictDive_loop (commands b) None path with
  | Ret (Some v) => Ret v
  | Ret None => Throw unable_to_follow
  | Throw e => Throw e
  | Unmodelled => Unmodelled
  end.

(** The loop of [weakDive], with its variables [current] and [through];
    [last] is [current] before the step. *)
Fixpoint weakDive_loop (root : gmap string Command) (current : option Value)
    (through : list string) (path : list string) : Result CommandsThrough :=
  match path with
  | [] => Ret (mkCommandsThrough through current)
  | segment :: more =>
      let last := current in
      match child_of root current segment with
      | Ret (Some v) => weakDive_loop root (Some v) (through ++ [segment]) more
      | Ret None => Ret (mkCommandsThrough through last)
      | Throw e => Throw e
      | Unmodelled => Unmodelled
      end
  end.

(** [Bot.weakDive] *)
Definition weakDive (b : Bot) (path : list string) : Result CommandsThrough :=
  weakDive_loop (commands b) None [] path.

(** The tree after [node.sub[name] = newCmd], where [node] is the node that
    the segments [path] lead to from [root]: the assignment through the
    reference returned by [weakDive], written as an update along the path. *)
Fixpoint set_sub_at (root : gmap string Command) (path : list string)
    (name : string) (newCmd : Command) : gmap string Command :=
  match path with
  | [] => <[name := newCmd]> root
  | segment :: more =>
      match root !! segment with
      | Some c =>
          <[segment := mkCommand (cmd_action c)
                         (set_sub_at (cmd_sub c) more name newCmd)
                         (cmd_help c)]> root
      | None => root
      end
  end.

(** The tree after [node.help = help] for the node at [path]. *)
Fixpoint set_help_at (root : gmap string Command) (path : list string)
    (h : Help) : gmap string Command :=
  match path with
  | [] => root
  | [segment] =>
      alter (λ c, mkCommand (cmd_action c) (cmd_sub c) (Some h)) segment root
  | segment :: more =>
      alter (λ c, mkCommand (cmd_action c) (set_help_at (cmd_sub c) more h) (cmd_help c))
        segment root
  end.

Definition defined {A} (o : option A) : bool :=
  match o with Some _ => true | None => false end.

Definition set_commands (f : gmap string Command → gmap string Command) (b : Bot) : Bot :=
  {| prefix := prefix b; commands := f (commands b); state := state b;
     invalidCommandError := invalidCommandError b; errorMessage := errorMessage b;
     stateListeners := stateListeners b |}.

Definition set_state (s : State) (b : Bot) : Bot :=
  {| prefix := prefix b; commands := commands b; state := s;
     invalidCommandError := invalidCommandError b; errorMessage := errorMessage b;
     stateListeners := stateListeners b |}.

Definition set_stateListeners (l : list ListenerId) (b : Bot) : Bot :=
  {| prefix := prefix b; commands := commands b; state := state b;
     invalidCommandError := invalidCommandError b; errorMessage := errorMessage b;
     stateListeners := l |}.

(** The property [help] of a host object: [Object.prototype] has none. *)
Definition native_help (natives : gmap string Help) (name : string) : option Help :=
  if String.eqb name "__proto__" then None else natives !! name.

(** [value.help] *)
Definition help_of (natives : gmap string Help) (value : Value) : option Help :=
  match value with
  | Node c => cmd_help c
  | Native name => native_help natives name
  end.

(** [command.help], for a command that may be [undefined] *)
Definition get_help (command : option Value) : M (option Help) := λ w,
  (w, Ret (command ≫= help_of (natives w))).

(** [value.help = help] for a host object: on [Object.prototype] the write
    leaves the states of [World]. *)
Definition set_native_help (name : string) (h : Help) : M unit :=
  if String.eqb name "__proto__" then unmodelled
  else λ w, ({| bot := bot w; natives := <[name := h]> (natives w); log := log w |}, Ret tt).

(** [Bot.register], both forms of its arguments. *)
Definition register (arguments_ : RegisterArgs) : M unit :=
  let '(commandPath, action, help, sub) :=
    match arguments_ with
    | ByPath commandPath action help => (commandPath, action, help, None)
    | ByPlugin options =>
        (plugin_command options, plugin_action options,
         plugin_help options, plugin_sub options)
    end in
  b ← this;
  let path := Js.split_space commandPath in
  cmd ← lift (weakDive b path);
  let newCmd := mkCommand action (default ∅ sub) help in
  let name := default "undefined" (path !! (length path - 1)) in
  if negb (defined (command cmd)) && (length path =? 1) then
    update (set_commands (λ root, <[name := newCmd]> root))
  else if defined (command cmd) && (length (through cmd) =? length path - 1) then
    match command cmd with
    | Some (Native _) => throw (TypeErrorUndefined name)
    | _ => update (set_commands (λ root, set_sub_at root (through cmd) name newCmd))
    end
  else
    throw unable_to_follow.

(** [Bot.help] *)
Definition help (commandPath : string) (h : Help) : M unit :=
  b ← this;
  let path := Js.split_space commandPath in
  cmd ← lift (strictDive b path);
  match cmd with
  | Node _ => update (set_commands (λ root, set_help_at root path h))
  | Native name => set_native_help name h
  end.

(* ===================================================================== *)
(** * The state container *)
(* ===================================================================== *)

(** [Bot.onStateUpdate]: [Set.add] *)
Definition onStateUpdate (action : ListenerId) : M unit :=
  update (λ b,
    if bool_decide (action ∈ stateListeners b) then b
    else set_stateListeners (stateListeners b ++ [action]) b).

(** [{ ...previous, ...state }] *)
Definition spread (previous : State) (partial : gmap string JsValue) : State :=
  Some (partial ∪ default ∅ previous).

(* ===================================================================== *)
(** * Help, errors and dispatch *)
(* ===================================================================== *)

Definition newline : string := String "010" EmptyString.

(** [Object.keys(o)]; the order of the keys is lost in what follows, which
    sorts them. *)
Definition object_keys {A} (o : gmap string A) : list string := (map_to_list o).*1.

(** [l.sort()]: ascending in the order of the code units. *)
Definition js_sort (l : list string) : list string := merge_sort String.le l.

(** The names that the global help lists. *)
Definition help_names (b : Bot) : list string :=
  js_sort (object_keys (commands b) ++ ["help"]).

(** [(cmd) => `- \`${cmd}\``] *)
Definition bullet (cmd : string) : string := "- `" +:+ cmd +:+ "`".

(** The embed that the global help replies with. *)
Definition global_help (b : Bot) : HelpMessage :=
  Embed "Help"
    [ ("Commands", Js.join newline (map bullet (help_names b)));
      ("Help with commands",
       "You can get help with commands and sub-commands by running `"
         +:+ prefix b +:+ "command --help`") ].

(** [false | void], what [receive] resolves to. *)
Inductive Received : Type := ReceivedFalse | ReceivedVoid.

Section Dispatch.

Variable cb : Callbacks.

(** [content.replace(new RegExp(`^${prefix}${through.join('\\s+')}\\s*`), '').trim()] *)
Definition rest_of (prefix : string) (through : list string) (content : string)
    : Result string :=
  let source := "^" +:+ prefix +:+ Js.join "\s+" through +:+ "\s*" in
  match Regex.compile source with
  | Some re => Ret (Js.trim (Regex.replace_first re content))
  | None =>
      match run_regexp cb source content with
      | inl e => Throw e
      | inr replaced => Ret (Js.trim replaced)
      end
  end.

(** [action.call(this, previousState, newState)] *)
Definition call_listener (previousState newState : State) (action : ListenerId) : M unit :=
  b ← this;
  emit (EvListener action previousState newState);;
  match run_listener cb action b previousState newState with
  | Some e => throw e
  | None => mret tt
  end.

(** [Bot.dispatchStateUpdate] *)
Definition dispatchStateUpdate (previousState newState : State) : M unit :=
  b ← this;
  forEach (call_listener previousState newState) (stateListeners b).

(** [Bot.setState] *)
Definition setState (partial : gmap string JsValue) : M unit :=
  b ← this;
  let previous := state b in
  let next := spread previous partial in
  update (set_state next);;
  dispatchStateUpdate previous next.

(** [await command.action.call(this, request)] *)
Definition call_action (action : ActionId) (request : Request) : M unit :=
  b ← this;
  emit (EvAction action request);;
  match run_action cb action b request with
  | Some e => throw e
  | None => mret tt
  end.

(** [await request.command.help.call(this)] *)
Definition call_help (f : HelpFnId) : M HelpMessage :=
  b ← this;
  emit (EvHelp f);;
  match run_help cb f b with
  | inl e => throw e
  | inr m => mret m
  end.

(** [await request.message.reply(payload)] *)
Definition reply (request_message : Message) (payload : HelpMessage) : M unit :=
  emit (EvReply request_message payload).

(** [Bot.onError] *)
Definition onError (error : Error) (request : Request) : M unit :=
  emit (EvConsoleError error);;
  b ← this;
  reply (req_message request) (Text (errorMessage b)).

(** [Bot.onInvalidCommand] *)
Definition onInvalidCommand (message : Message) : M unit :=
  b ← this;
  reply message (Text (invalidCommandError b)).

(** [Bot.onHelp] *)
Definition onHelp (request : Request) : M unit :=
  b ← this;
  match req_command request with
  | None => reply (req_message request) (global_help b)
  | Some _ =>
      h ← get_help (req_command request);
      match h with
      | Some (DynamicHelp f) =>
          r ← try_catch (m ← call_help f; mret (Some m))
                        (λ error, onError error request;; mret None);
          match r with
          | Some helpMessage => reply (req_message request) helpMessage
          | None => mret tt
          end
      | Some (StaticHelp helpMessage) => reply (req_message request) helpMessage
      | None => reply (req_message request) Undefined
      end
  end.

(** [command.action.call], where a host object has no property [action]. *)
Definition action_of (command : Value) : M ActionId :=
  match command with
  | Node c => mret (cmd_action c)
  | Native _ => throw (TypeErrorUndefined "call")
  end.

(** [Bot.receive] *)
Definition receive (message : Message) : M Received :=
  if author_bot message then mret ReceivedFalse else
  b ← this;
  let components := parse (prefix b) (content message) in
  if length components =? 0 then mret ReceivedFalse else
  cmd ← lift (weakDive b components);
  let arguments_ := drop (length (through cmd)) components in
  rest ← lift (rest_of (prefix b) (through cmd) (content message));
  let request :=
    {| req_message := message; req_components := components;
       req_commands := through cmd; req_args := arguments_;
       req_rest := rest; req_command := command cmd |} in
  command_help ← get_help (command cmd);
  if (length arguments_ =? 1) &&
     ((negb (defined (command cmd)) && bool_decide (arguments_ !! 0 = Some "help")) ||
      (defined (command cmd) && bool_decide (arguments_ !! 0 = Some "--help") &&
       defined command_help))
  then onHelp request;; mret ReceivedVoid
  else
    match command cmd with
    | None => onInvalidCommand message;; mret ReceivedVoid
    | Some c =>
        try_catch (action ← action_of c; call_action action request)
                  (λ error, onError error request);;
        mret ReceivedVoid
    end.

End Dispatch.

(* ===================================================================== *)
(** * The client *)
(* ===================================================================== *)

(** Identity of a discord.js [Client]. *)
Definition ClientId := nat.

(** The calls that the bot makes on clients, in the order they are made:
    [client.on('message', handler)], whose handler hands the message to
    [receive], and [client.destroy()]. *)
Inductive ClientCall : Type :=
| ClientOnMessage (client : ClientId)
| ClientDestroy (client : ClientId).

(** The field [client] of the bot, [undefined] on a new bot, with the calls
    made on clients.  It is kept apart from [Bot]: [listen] and [close] are
    the only methods that read or write it, and they touch nothing else. *)
Record Connection : Type :=
  mkConnection { client : option ClientId; client_calls : list ClientCall }.

(** The connection of a new bot. *)
Definition no_connection : Connection := mkConnection None [].

(** [Bot.listen] *)
Definition listen (c : ClientId) (k : Connection) : Connection :=
  {| client := Some c; client_calls := client_calls k ++ [ClientOnMessage c] |}.

(** [Bot.close] *)
Definition close (k : Connection) : Connection :=
  match client k with
  | Some c => {| client := client k; client_calls := client_calls k ++ [ClientDestroy c] |}
  | None => k
  end.

(** [listen] on each client of a list, in turn. *)
Definition listen_all (cs : list ClientId) (k : Connection) : Connection :=
  foldl (λ k c, listen c k) k cs.

(* ===================================================================== *)
(** * Notions used in the statements *)
(* ===================================================================== *)

(** The segments of the path that [register] is given. *)
Definition register_path (arguments_ : RegisterArgs) : list string :=
  Js.split_space
    match arguments_ with
    | ByPath commandPath _ _ => commandPath
    | ByPlugin options => plugin_command options
    end.

(** The node [newCmd] that [register] builds. *)
Definition register_node (arguments_ : RegisterArgs) : Command :=
  match arguments_ with
  | ByPath _ action help => mkCommand action ∅ help
  | ByPlugin options =>
      mkCommand (plugin_action options) (default ∅ (plugin_sub options))
        (plugin_help options)
  end.

(** The request that [receive] builds for a message of the bot with the
    prefix [p], from what [weakDive] returned and the text [rest]. *)
Definition request_of (p : string) (message : Message) (cmd : CommandsThrough)
    (rest : string) : Request :=
  let components := parse p (content message) in
  {| req_message := message; req_components := components;
     req_commands := through cmd;
     req_args := drop (length (through cmd)) components;
     req_rest := rest; req_command := command cmd |}.

(** The test of [receive] for its help branch. *)
Definition help_branch (natives : gmap string Help) (request : Request) : bool :=
  (length (req_args request) =? 1) &&
  ((negb (defined (req_command request)) &&
    bool_decide (req_args request !! 0 = Some "help")) ||
   (defined (req_command request) &&
    bool_decide (req_args request !! 0 = Some "--help") &&
    defined (req_command request ≫= help_of natives))).

(** The calls that [onError] makes. *)
Definition error_events (b : Bot) (request : Request) (error : Error) : list Event :=
  [EvConsoleError error; EvReply (req_message request) (Text (errorMessage b))].

(** The calls that [onHelp] makes. *)
Definition help_events (cb : Callbacks) (w : World) (request : Request) : list Event :=
  match req_command request with
  | None => [EvReply (req_message request) (global_help (bot w))]
  | Some v =>
      match help_of (natives w) v with
      | Some (DynamicHelp f) =>
          EvHelp f ::
          match run_help cb f (bot w) with
          | inl error => error_events (bot w) request error
          | inr helpMessage => [EvReply (req_message request) helpMessage]
          end
      | Some (StaticHelp helpMessage) => [EvReply (req_message request) helpMessage]
      | None => [EvReply (req_message request) Undefined]
      end
  end.

(** The calls that the last branch of [receive] makes for the command [v]:
    the call of its action and what follows from it, or, for a host object,
    what follows from the failed read of its action. *)
Definition action_events (cb : Callbacks) (b : Bot) (request : Request) (v : Value)
    : list Event :=
  match v with
  | Node c =>
      EvAction (cmd_action c) request ::
      match run_action cb (cmd_action c) b request with
      | Some error => error_events b request error
      | None => []
      end
  | Native _ => error_events b request (TypeErrorUndefined "call")
  end.

(** The calls that [receive] makes for a request. *)
Definition dispatch_events (cb : Callbacks) (w : World) (request : Request) : list Event :=
  if help_branch (natives w) request then help_events cb w request
  else match req_command request with
       | None => [EvReply (req_message request) (Text (invalidCommandError (bot w)))]
       | Some v => action_events cb (bot w) request v
       end.

(** The world after more calls. *)
Definition add_log (evs : list Event) (w : World) : World :=
  {| bot := bot w; natives := natives w; log := log w ++ evs |}.

(** The calls that [receive] adds to the log for a message. *)
Definition new_events (cb : Callbacks) (m : Message) (w : World) : list Event :=
  drop (length (log w)) (log (receive cb m w).1).

(** The listeners that a fan-out starting with [ls] calls: each one in turn,
    up to and including the first that throws. *)
Fixpoint notified (cb : Callbacks) (b : Bot) (previousState newState : State)
    (ls : list ListenerId) : list ListenerId :=
  match ls with
  | [] => []
  | l :: ls' =>
      l :: match run_listener cb l b previousState newState with
           | Some _ => []
           | None => notified cb b previousState newState ls'
           end
  end.

(** The error of the first listener of [ls] that throws. *)
Fixpoint first_throw (cb : Callbacks) (b : Bot) (previousState newState : State)
    (ls : list ListenerId) : option Error :=
  match ls with
  | [] => None
  | l :: ls' =>
      match run_listener cb l b previousState newState with
      | Some e => Some e
      | None => first_throw cb b previousState newState ls'
      end
  end.

(** No syntax character of regular expressions occurs in the string. *)
Fixpoint regex_plain (s : string) : bool :=
  match s with
  | EmptyString => true
  | String c s' => negb (Regex.syntax_char c) && regex_plain s'
  end.

(** The items of a source without syntax characters. *)
Fixpoint chars (s : string) : list Regex.item :=
  match s with
  | EmptyString => []
  | String c s' => Regex.Chr c :: chars s'
  end.

(** The items of [through.join('\\s+')] for names without syntax characters. *)
Fixpoint path_items (through : list string) : list Regex.item :=
  match through with
  | [] => []
  | [t] => chars t
  | t :: more => chars t ++ Regex.SpacePlus :: path_items more
  end.

(** The string is empty or starts with whitespace. *)
Definition word_end (s : string) : bool :=
  match s with
  | EmptyString => true
  | String c _ => Js.is_space c
  end.

(** [s] is the names [ts], separated by whitespace, followed by [r]. *)
Fixpoint spaced (ts : list string) (s r : string) : Prop :=
  match ts with
  | [] => s = r
  | [t] => s = t +:+ r
  | t :: more =>
      ∃ w s', s = t +:+ w +:+ s' ∧ Js.blank w = true ∧ w ≠ "" ∧
              word_end s' = false ∧ spaced more s' r
  end.

(** The consumed names as they stand in the message: the prefix is glued to
    the first. *)
Definition glued (prefix : string) (through : list string) : list string :=
  match through with
  | [] => []
  | t :: more => (prefix +:+ t) :: more
  end.

(** [parse] as C3 words it: nothing for a message that does not start with
    the prefix, nothing for the prefix alone or followed only by whitespace,
    and otherwise the trimmed message with its whitespace runs collapsed,
    split on spaces, one prefix length taken off the first token. *)
Definition parse_as_claimed (prefix message : string) : list string :=
  if negb (Js.startsWith message prefix) then []
  else if Js.blank (Js.slice (String.length prefix) message) then []
  else match Js.split_space (Js.collapse (Js.trim message)) with
       | s0 :: more => Js.slice (String.length prefix) s0 :: more
       | [] => []
       end.

(** ** Notions used in the further properties *)

(** The commands that a dictionary holds: [own_child] is the lookup of
    [child_of] without what is inherited, and [node_at] follows a path
    through it. *)
Definition own_child (root : gmap string Command) (current : option Command)
    (segment : string) : option Command :=
  match current with
  | Some c => cmd_sub c !! segment
  | None => root !! segment
  end.

Fixpoint node_at (root : gmap string Command) (current : option Command)
    (path : list string) : option Command :=
  match path with
  | [] => current
  | segment :: more =>
      match own_child root current segment with
      | None => None
      | Some c => node_at root (Some c) more
      end
  end.

(** The slot of a new node is free of commands: the parent path is empty or
    leads to a node, which holds no child [name]. *)
Definition free_slot (root : gmap string Command) (parent : list string) (name : string) : Prop :=
  (parent = [] ∨ is_Some (node_at root None parent)) ∧
  own_child root (node_at root None parent) name = None.

(** A token: not empty, and without whitespace. *)
Definition is_token (t : string) : bool :=
  negb (String.eqb t "") && Js.spaceless t.

(** A reply of the bot. *)
Definition is_reply (ev : Event) : bool :=
  match ev with EvReply _ _ => true | _ => false end.

(** A call of a function of the user. *)
Definition is_call (ev : Event) : bool :=
  match ev with EvAction _ _ | EvHelp _ => true | _ => false end.

(** The states that [setState] calls in a row go through: the state before
    and the state after each call. *)
Fixpoint transitions (s : State) (partials : list (gmap string JsValue))
    : list (State * State) :=
  match partials with
  | [] => []
  | p :: more => (s, spread s p) :: transitions (spread s p) more
  end.

(* ===================================================================== *)
(** * The bots and callbacks of the examples *)
(* ===================================================================== *)

(** A bot with an empty log. *)
Definition world0 (b : Bot) : World := {| bot := b; natives := ∅; log := [] |}.

(** [{ prefix: ';;' }] *)
Definition demo_options : ConstructorOptions := mkOptions ";;" None None.

(** [new Bot({ prefix: ';;' })] *)
Definition fresh_world : World := world0 (newBot demo_options).

(** The tree [a → aa → aaa] of the tests, with a second root [b]. *)
Definition diving_setup : M unit :=
  register (ByPath "a" 1 None);;
  register (ByPath "a aa" 2 None);;
  register (ByPath "a aa aaa" 3 None);;
  register (ByPath "b" 4 None).

Definition diving_bot : Bot := bot (diving_setup (world0 (newBot demo_options))).1.

Definition node_aaa : Command := mkCommand 3 ∅ None.

Definition node_aa : Command := mkCommand 2 {[ "aaa" := node_aaa ]} None.

Definition node_a : Command := mkCommand 1 {[ "aa" := node_aa ]} None.

(** The world after [bot.register('a', action1)] on a new bot. *)
Definition world_with_a : World := (register (ByPath "a" 1 None) fresh_world).1.

(** A bot with a command named [help]. *)
Definition world_with_help : World := (register (ByPath "help" 5 None) fresh_world).1.

(** A new bot whose prefix ends with a space. *)
Definition world_spaced_prefix : World := world0 (newBot (mkOptions "! " None None)).

(** A bot with the prefix [$] and the command [echo]. *)
Definition dollar_world : World :=
  (register (ByPath "echo" 1 None) (world0 (newBot (mkOptions "$" None None)))).1.

(** The bot of the tests of [receive]: [echo] with a static help, [about]
    with help generator 8, [error] whose action throws. *)
Definition suite_world : World :=
  ((register (ByPath "echo" 1 None);;
    help "echo" (StaticHelp (Text "Echoes back what you say"));;
    register (ByPath "about" 2 None);;
    help "about" (DynamicHelp 8);;
    register (ByPath "error" 3 None)) fresh_world).1.

(** A new bot with the listeners 1 and 2, registered in this order. *)
Definition world_two_listeners : World :=
  ((onStateUpdate 1;; onStateUpdate 2) fresh_world).1.

(** [{ value1: 'a' }] and [{ value2: 'b' }] *)
Definition value1_a : gmap string JsValue := {[ "value1" := JsString "a" ]}.

Definition value2_b : gmap string JsValue := {[ "value2" := JsString "b" ]}.

(** Callbacks that all return. *)
Definition quiet : Callbacks :=
  {| run_action := λ _ _ _, None;
     run_help := λ _ _, inr Undefined;
     run_listener := λ _ _ _ _, None;
     run_regexp := λ _ _, inl (MkError "Invalid regular expression") |}.

(** The callbacks of the tests: action 3 throws, the help generators tell
    the prefix. *)
Definition test_callbacks : Callbacks :=
  {| run_action := λ a _ _, if a =? 3 then Some (MkError "Uh-oh") else None;
     run_help := λ _ b,
       inr (Text ("More about this bot that has a prefix of " +:+ prefix b));
     run_listener := λ _ _ _ _, None;
     run_regexp := λ _ _, inl (MkError "Invalid regular expression") |}.

(** Callbacks where the help generators throw. *)
Definition help_throws : Callbacks :=
  {| run_action := λ _ _ _, None;
     run_help := λ _ _, inl (MkError "No help");
     run_listener := λ _ _ _ _, None;
     run_regexp := λ _ _, inl (MkError "Invalid regular expression") |}.

(** Callbacks where listener 1 throws and everything else returns. *)
Definition listener1_throws : Callbacks :=
  {| run_action := λ _ _ _, None;
     run_help := λ _ _, inr Undefined;
     run_listener := λ l _ _ _, if l =? 1 then Some (MkError "listener") else None;
     run_regexp := λ _ _, inl (MkError "Invalid regular expression") |}.

(** The bot of the README: [ping] with a help message, and its subcommand
    [ping pong]. *)
Definition readme_world : World :=
  ((register (ByPath "ping" 1 None);;
    help "ping" (StaticHelp (Text "Responds with Pong!"));;
    register (ByPath "ping pong" 2 None)) fresh_world).1.

(* ===================================================================== *)
(** * Facts about the string primitives *)
(* ===================================================================== *)

Module JsFacts.
Import Js.

Lemma space_is_space : is_space " " = true.
Proof. reflexivity. Qed.

Lemma eqb_space c : Ascii.eqb c " " = true → is_space c = true.
Proof. intros H. apply Ascii.eqb_eq in H. by subst. Qed.

Lemma not_space_neq c : is_space c = false → Ascii.eqb c " " = false.
Proof.
  intros H. destruct (Ascii.eqb c " ") eqn:E; [|done].
  apply eqb_space in E. congruence.
Qed.

Lemma append_nil_r s : s +:+ "" = s.
Proof. induction s; simpl; congruence. Qed.

Lemma append_assoc s t u : (s +:+ t) +:+ u = s +:+ (t +:+ u).
Proof. induction s; simpl; congruence. Qed.

Lemma length_append s t : String.length (s +:+ t) = String.length s + String.length t.
Proof. induction s; simpl; congruence. Qed.

Lemma startsWith_append p r : startsWith (p +:+ r) p = true.
Proof. induction p; simpl; [done|]. by rewrite Ascii.eqb_refl. Qed.

Lemma startsWith_inv s p : startsWith s p = true → ∃ r, s = p +:+ r.
Proof.
  revert s; induction p as [|a p IH]; intros s H; simpl in *.
  - by exists s.
  - destruct s as [|b s]; [done|].
    destruct (Ascii.eqb_spec a b) as [->|]; [|done].
    destruct (IH _ H) as [r ->]. by exists r.
Qed.

Lemma slice_append p r : slice (String.length p) (p +:+ r) = r.
Proof. induction p; simpl; [by destruct r|done]. Qed.

(** ** Blank strings and trimming *)

Lemma trimStart_blank s : blank s = true → trimStart s = "".
Proof.
  induction s as [|c s IH]; simpl; [done|].
  intros [Hc Hs]%andb_true_iff. rewrite Hc. auto.
Qed.

Lemma trimEnd_blank s : blank s = true → trimEnd s = "".
Proof.
  induction s as [|c s IH]; simpl; [done|].
  intros [Hc Hs]%andb_true_iff. by rewrite IH, Hc.
Qed.

Lemma trimEnd_nil_blank s : trimEnd s = "" → blank s = true.
Proof.
  induction s as [|c s IH]; simpl; [done|].
  destruct (trimEnd s) eqn:E; [|done].
  destruct (is_space c); [auto|done].
Qed.

Lemma blank_trimStart s : blank (trimStart s) = blank s.
Proof.
  induction s as [|c s IH]; simpl; [done|].
  destruct (is_space c) eqn:E; simpl; [done|by rewrite E].
Qed.

Lemma trimStart_head s c r : trimStart s = String c r → is_space c = false.
Proof.
  induction s as [|d s IH]; simpl; [done|].
  destruct (is_space d) eqn:E; [done|]. congruence.
Qed.

(** [trimEnd] keeps the first code unit of what it does not erase. *)
Lemma trimEnd_head c s :
  trimEnd (String c s) = "" ∨ ∃ r, trimEnd (String c s) = String c r.
Proof.
  simpl. destruct (trimEnd s); [destruct (is_space c)|]; eauto.
Qed.

Lemma trimEnd_idemp s : trimEnd (trimEnd s) = trimEnd s.
Proof.
  induction s as [|c s IH]; simpl; [done|].
  destruct (trimEnd s) as [|d r] eqn:E.
  - destruct (is_space c) eqn:Ec; simpl; [done|by rewrite Ec].
  - simpl in *. by rewrite IH.
Qed.

Lemma trimEnd_append_blank s w : blank w = true → trimEnd (s +:+ w) = trimEnd s.
Proof.
  intros Hw. induction s as [|c s IH]; simpl.
  - by apply trimEnd_blank.
  - by rewrite IH.
Qed.

Lemma trimStart_append s w :
  trimStart (s +:+ w) = if blank s then trimStart w else trimStart s +:+ w.
Proof.
  induction s as [|c s IH]; simpl; [done|].
  destruct (is_space c); simpl; done.
Qed.

Lemma trim_append_blank s w : blank w = true → trim (s +:+ w) = trim s.
Proof.
  intros Hw. unfold trim. rewrite trimStart_append.
  destruct (blank s) eqn:Hs.
  - by rewrite !trimStart_blank.
  - by apply trimEnd_append_blank.
Qed.

(** ** Words *)

Lemma words_blank s : blank s = true → words s = [].
Proof.
  induction s as [|c s IH]; simpl; [done|].
  intros [Hc Hs]%andb_true_iff. rewrite Hc. auto.
Qed.

Lemma words_trimStart s : words (trimStart s) = words s.
Proof.
  induction s as [|c s IH]; simpl; [done|].
  destruct (is_space c) eqn:E; [done|]. simpl. by rewrite E.
Qed.

Lemma words_trimEnd s : words (trimEnd s) = words s.
Proof.
  induction s as [|c s IH]; [done|].
  destruct s as [|d s].
  { simpl. destruct (is_space c) eqn:E; simpl; by rewrite ?E. }
  destruct (trimEnd_head d s) as [Hn|[r Hr]].
  - pose proof (trimEnd_nil_blank _ Hn) as Hb.
    change (trimEnd (String c (String d s))) with
      (match trimEnd (String d s) with
       | "" => if is_space c then "" else String c ""
       | r => String c r end).
    rewrite Hn. pose proof Hb as Hb'. simpl in Hb'.
    apply andb_true_iff in Hb' as [Hd _].
    change (words (String c (String d s))) with
      (if is_space c then words (String d s)
       else if is_space d then String c "" :: words (String d s)
            else match words (String d s) with
                 | w :: ws => String c w :: ws
                 | [] => [String c ""] end).
    rewrite Hd, (words_blank _ Hb).
    destruct (is_space c) eqn:E; simpl; by rewrite ?E.
  - change (trimEnd (String c (String d s))) with
      (match trimEnd (String d s) with
       | "" => if is_space c then "" else String c ""
       | r => String c r end).
    rewrite Hr.
    change (words (String c (String d s))) with
      (if is_space c then words (String d s)
       else if is_space d then String c "" :: words (String d s)
            else match words (String d s) with
                 | w :: ws => String c w :: ws
                 | [] => [String c ""] end).
    change (words (String c (String d r))) with
      (if is_space c then words (String d r)
       else if is_space d then String c "" :: words (String d r)
            else match words (String d r) with
                 | w :: ws => String c w :: ws
                 | [] => [String c ""] end).
    rewrite <- Hr, IH. done.
Qed.

Lemma words_trim s : words (trim s) = words s.
Proof. unfold trim. by rewrite words_trimEnd, words_trimStart. Qed.

(** ** Collapsing and splitting give the words *)

Lemma collapse_from_head c s b :
  is_space c = false →
  collapse_from b (String c s) = String c (collapse_from false s).
Proof. intros E. simpl. by rewrite E. Qed.

Lemma trimEnd_fixed_tail c d s :
  trimEnd (String c (String d s)) = String c (String d s) →
  trimEnd (String d s) = String d s.
Proof.
  change (trimEnd (String c (String d s))) with
    (match trimEnd (String d s) with
     | "" => if is_space c then "" else String c ""
     | r => String c r end).
  destruct (trimEnd (String d s)); [destruct (is_space c); done|congruence].
Qed.

Lemma split_collapse_words s :
  trimEnd s = s → s ≠ "" → split_space (collapse_from true s) = words s.
Proof.
  induction s as [|c s IH]; [done|]. intros Ht _.
  destruct s as [|d s].
  { simpl in Ht |- *. destruct (is_space c) eqn:E; [done|].
    simpl. by rewrite (not_space_neq _ E). }
  specialize (IH (trimEnd_fixed_tail _ _ _ Ht) ltac:(done)).
  change (words (String c (String d s))) with
    (if is_space c then words (String d s)
     else if is_space d then String c "" :: words (String d s)
          else match words (String d s) with
               | w :: ws => String c w :: ws
               | [] => [String c ""] end).
  destruct (is_space c) eqn:Ec.
  { rewrite <- IH. simpl. by rewrite Ec. }
  rewrite (collapse_from_head _ _ _ Ec).
  destruct (is_space d) eqn:Ed.
  - rewrite <- IH. simpl. by rewrite Ed, (not_space_neq _ Ec).
  - rewrite <- IH, !(collapse_from_head _ _ _ Ed).
    change (split_space (String c ?x)) with
      (if Ascii.eqb c " " then "" :: split_space x
       else match split_space x with
            | w :: ws => String c w :: ws
            | [] => [String c ""] end).
    by rewrite (not_space_neq _ Ec).
Qed.

(** The tokens that [parse] splits a message into are its words. *)
Lemma tokens_words m :
  blank m = false → split_space (collapse (trim m)) = words m.
Proof.
  intros Hm. rewrite <- (words_trim m). unfold trim.
  destruct (trimStart m) as [|c r] eqn:Es.
  { pose proof (blank_trimStart m) as Hb. rewrite Es in Hb. simpl in Hb. congruence. }
  pose proof (trimStart_head _ _ _ Es) as Ec.
  destruct (trimEnd_head c r) as [Hn|[r' Hr]].
  { apply trimEnd_nil_blank in Hn. simpl in Hn. by rewrite Ec in Hn. }
  unfold collapse. rewrite Hr, (collapse_from_head _ _ false Ec).
  rewrite <- (collapse_from_head _ _ true Ec), <- Hr.
  apply split_collapse_words; [apply trimEnd_idemp|by rewrite Hr].
Qed.

Lemma tokens_blank m :
  blank m = true → split_space (collapse (trim m)) = [""].
Proof.
  intros Hm. unfold trim. rewrite (trimStart_blank _ Hm). done.
Qed.

Lemma words_head c r :
  is_space c = false → ∃ w ws, words (String c r) = String c w :: ws.
Proof.
  intros E. simpl. rewrite E. destruct r as [|d r]; [by eauto|].
  destruct (is_space d); [by eauto|].
  destruct (words (String d r)); eauto.
Qed.

Lemma spaceless_not_blank p : spaceless p = true → p ≠ "" → blank p = false.
Proof.
  destruct p as [|c p]; [done|]. simpl.
  intros [Hc _]%andb_true_iff _. by destruct (is_space c).
Qed.

Lemma blank_append s t : blank (s +:+ t) = blank s && blank t.
Proof. induction s as [|c s IH]; simpl; [done|]. by rewrite IH, andb_assoc. Qed.

(** The words of a spaceless, non-empty [p] followed by [r]. *)
Lemma words_spaceless_append p r :
  spaceless p = true → p ≠ "" →
  words (p +:+ r) =
    match r with
    | "" => [p]
    | String d _ =>
        if is_space d then p :: words r
        else match words r with
             | w :: ws => (p +:+ w) :: ws
             | [] => [p]
             end
    end.
Proof.
  induction p as [|c p IH]; [done|]. intros [Hc Hp]%andb_true_iff _.
  apply negb_true_iff in Hc.
  destruct p as [|e p].
  { simpl. rewrite Hc. destruct r as [|d r]; [done|].
    destruct (is_space d); [done|]. by destruct (words (String d r)). }
  specialize (IH Hp ltac:(done)).
  pose proof Hp as [He _]%andb_true_iff. apply negb_true_iff in He.
  change (words (String c (String e p) +:+ r)) with
    (if is_space c then words (String e p +:+ r)
     else if is_space e then String c "" :: words (String e p +:+ r)
          else match words (String e p +:+ r) with
               | w :: ws => String c w :: ws
               | [] => [String c ""] end).
  rewrite Hc, He, IH.
  destruct r as [|d r]; [done|].
  destruct (is_space d); [done|]. by destruct (words (String d r)).
Qed.

Lemma startsWith_append_blank p m w :
  spaceless p = true → blank w = true →
  startsWith (m +:+ w) p = startsWith m p.
Proof.
  intros Hp Hw. revert m. induction p as [|a p IH]; intros m; [done|].
  apply andb_true_iff in Hp as [Ha Hp]. apply negb_true_iff in Ha.
  destruct m as [|b m]; simpl.
  - destruct w as [|b w]; [done|]. simpl in Hw.
    apply andb_true_iff in Hw as [Hb _].
    destruct (Ascii.eqb_spec a b) as [->|]; [congruence|done].
  - destruct (Ascii.eqb a b); [by apply IH|done].
Qed.

Lemma startsWith_blank_head p w m :
  spaceless p = true → p ≠ "" → blank w = true → w ≠ "" →
  startsWith (w +:+ m) p = false.
Proof.
  destruct p as [|a p]; [done|]. destruct w as [|b w]; [done|].
  simpl. intros [Ha _]%andb_true_iff _ [Hb _]%andb_true_iff _.
  apply negb_true_iff in Ha.
  destruct (Ascii.eqb_spec a b) as [->|]; [congruence|done].
Qed.

End JsFacts.

(* ===================================================================== *)
(** * The parser: lemmas *)
(* ===================================================================== *)

Section ParseFacts.
Import Js JsFacts.

Variable prefix : string.

Lemma parse_not_addressed m : startsWith m prefix = false → parse prefix m = [].
Proof. intros H. unfold parse. by rewrite H. Qed.

Hypothesis prefix_spaceless : spaceless prefix = true.

Lemma parse_append_blank m w :
  blank w = true → parse prefix (m +:+ w) = parse prefix m.
Proof.
  intros Hw. unfold parse.
  by rewrite startsWith_append_blank, trim_append_blank.
Qed.

Hypothesis prefix_nonempty : prefix ≠ "".

Lemma parse_blank_first w m :
  blank w = true → w ≠ "" → parse prefix (w +:+ m) = [].
Proof.
  intros Hw Hn. apply parse_not_addressed. by apply startsWith_blank_head.
Qed.

Lemma parse_bare_prefix r :
  match r with "" => True | String d _ => is_space d = true end →
  parse prefix (prefix +:+ r) = [].
Proof.
  intros Hr. unfold parse. rewrite startsWith_append, tokens_words.
  2:{ rewrite blank_append, spaceless_not_blank; done. }
  rewrite words_spaceless_append by done.
  destruct r as [|d r]; [by rewrite String.eqb_refl|].
  by rewrite Hr, String.eqb_refl.
Qed.

Lemma parse_glued_word c r :
  is_space c = false →
  parse prefix (prefix +:+ String c r) = words (String c r).
Proof.
  intros Hc. unfold parse. rewrite startsWith_append, tokens_words.
  2:{ rewrite blank_append, spaceless_not_blank; done. }
  rewrite words_spaceless_append, Hc by done.
  destruct (words_head c r Hc) as (w & ws & ->).
  destruct (String.eqb_spec (prefix +:+ String c w) prefix) as [E|_].
  { rewrite <- (append_nil_r prefix) in E at 2. by apply (inj _) in E. }
  by rewrite slice_append.
Qed.

End ParseFacts.

(* ===================================================================== *)
(** * The two walks: lemmas *)
(* ===================================================================== *)

Section WalkFacts.

Variable root : gmap string Command.

Lemma get_property_Node o name c :
  get_property o name = Some (Node c) ↔ o !! name = Some c.
Proof.
  unfold get_property. destruct (o !! name); [|destruct (inherited name)];
    split; intros; simplify_eq; done.
Qed.

Lemma get_property_Native o name n :
  get_property o name = Some (Native n) ↔
    o !! name = None ∧ inherited name = true ∧ n = name.
Proof.
  unfold get_property. destruct (o !! name); [|destruct (inherited name)];
    split; intros; destruct_and?; simplify_eq; done.
Qed.

Lemma get_property_None o name :
  get_property o name = None ↔ o !! name = None ∧ inherited name = false.
Proof.
  unfold get_property. destruct (o !! name); [|destruct (inherited name)];
    split; intros; destruct_and?; simplify_eq; done.
Qed.

(** A step from a host object throws, whatever the tree. *)
Lemma strictDive_loop_native n path :
  strictDive_loop root (Some (Native n)) path =
    match path with
    | [] => Ret (Some (Native n))
    | s :: _ => Throw (TypeErrorUndefined s)
    end.
Proof. by destruct path. Qed.

Lemma weakDive_loop_native n through path :
  weakDive_loop root (Some (Native n)) through path =
    match path with
    | [] => Ret (mkCommandsThrough through (Some (Native n)))
    | s :: _ => Throw (TypeErrorUndefined s)
    end.
Proof. by destruct path. Qed.

(** The walks stay in the states of [World]. *)
Lemma child_of_modelled current s : child_of root current s ≠ Unmodelled.
Proof. by destruct current as [[c|n]|]. Qed.

Lemma strictDive_loop_modelled current path :
  strictDive_loop root current path ≠ Unmodelled.
Proof.
  revert current. induction path as [|s path IH]; intros current; [done|].
  simpl. pose proof (child_of_modelled current s).
  destruct (child_of root current s) as [[v|]|e|]; by auto.
Qed.

Lemma weakDive_loop_modelled current through path :
  weakDive_loop root current through path ≠ Unmodelled.
Proof.
  revert current through. induction path as [|s path IH]; intros current through; [done|].
  simpl. pose proof (child_of_modelled current s).
  destruct (child_of root current s) as [[v|]|e|]; by auto.
Qed.

(** Once the strict loop has found nothing, it has stopped. *)
Lemma strictDive_loop_None_app p1 p2 current :
  strictDive_loop root current p1 = Ret None → p1 ≠ [] →
  strictDive_loop root current (p1 ++ p2) = Ret None.
Proof.
  revert current. induction p1 as [|s p1 IH]; intros current H Hne; [done|].
  simpl in *. destruct (child_of root current s) as [[v|]|e|]; try done.
  destruct p1 as [|s' p1]; [done|]. by apply IH.
Qed.

Lemma strictDive_loop_app p1 p2 current v :
  strictDive_loop root current p1 = Ret (Some v) →
  strictDive_loop root current (p1 ++ p2) = strictDive_loop root (Some v) p2.
Proof.
  revert current. induction p1 as [|s p1 IH]; intros current H.
  { simpl in H. by simplify_eq. }
  simpl in *. destruct (child_of root current s) as [[v'|]|e|]; try done.
  by apply IH.
Qed.

Lemma strictDive_loop_prefix p1 p2 current v :
  strictDive_loop root current (p1 ++ p2) = Ret (Some v) → p1 ≠ [] →
  ∃ v', strictDive_loop root current p1 = Ret (Some v').
Proof.
  revert current. induction p1 as [|s p1 IH]; intros current H Hne; [done|].
  simpl in *. destruct (child_of root current s) as [[v'|]|e|]; try done.
  destruct p1 as [|s' p1]; [by eexists|]. by apply IH.
Qed.

(** What the loop of [weakDive] computes: it consumes a prefix of the path
    that the strict loop follows, and stops at the end of the path, or at a
    segment with no child, or throws at the segment after a host object. *)
Lemma weakDive_loop_spec path current through :
  ∃ consumed rest last,
    path = consumed ++ rest ∧
    strictDive_loop root current consumed = Ret last ∧
    (consumed = [] ∨ is_Some last) ∧
    match rest with
    | [] => weakDive_loop root current through path =
              Ret (mkCommandsThrough (through ++ consumed) last)
    | s :: _ =>
        match child_of root last s with
        | Ret None => weakDive_loop root current through path =
                        Ret (mkCommandsThrough (through ++ consumed) last)
        | Throw e => weakDive_loop root current through path = Throw e
        | _ => False
        end
    end.
Proof.
  revert current through.
  induction path as [|s path IH]; intros current through.
  { exists [], [], current. simpl. rewrite app_nil_r. auto. }
  simpl. destruct (child_of root current s) as [[v|]|e|] eqn:E.
  - destruct (IH (Some v) (through ++ [s])) as (consumed & rest & last & -> & Hl & Hc & Hr).
    exists (s :: consumed), rest, last. simpl. rewrite E, <- app_assoc in *.
    split_and!; [done|done| |done]. right. destruct Hc as [->|]; [|done].
    simpl in Hl. simplify_eq. by eexists.
  - exists [], (s :: path), current. simpl. rewrite app_nil_r, E. auto.
  - exists [], (s :: path), current. simpl. rewrite E. auto.
  - by apply child_of_modelled in E.
Qed.

(** The nodes among what the strict loop finds are those that the tree
    holds. *)
Lemma strictDive_loop_Node (current : option Command) path c :
  strictDive_loop root (Node <$> current) path = Ret (Some (Node c)) ↔
    node_at root current path = Some c.
Proof.
  revert current. induction path as [|s path IH]; intros current.
  { simpl. destruct current; simpl; split; intros; simplify_eq; done. }
  simpl.
  assert (child_of root (Node <$> current) s =
            Ret (get_property (match current with Some c0 => cmd_sub c0 | None => root end) s))
    as -> by (by destruct current).
  unfold own_child. set (o := match current with Some c0 => cmd_sub c0 | None => root end).
  replace (match current with Some c0 => cmd_sub c0 !! s | None => root !! s end)
    with (o !! s) by (by destruct current).
  unfold get_property. destruct (o !! s) as [c'|].
  - apply (IH (Some c')).
  - destruct (inherited s); [|done]. rewrite strictDive_loop_native. by destruct path.
Qed.

End WalkFacts.

(** [weakDive] in terms of the strict loop. *)
Lemma weakDive_spec b path :
  ∃ consumed rest last,
    path = consumed ++ rest ∧
    strictDive_loop (commands b) None consumed = Ret last ∧
    (consumed = [] ∨ is_Some last) ∧
    match rest with
    | [] => weakDive b path = Ret (mkCommandsThrough consumed last)
    | s :: _ =>
        match child_of (commands b) last s with
        | Ret None => weakDive b path = Ret (mkCommandsThrough consumed last)
        | Throw e => weakDive b path = Throw e
        | _ => False
        end
    end.
Proof. apply (weakDive_loop_spec (commands b) path None []). Qed.

(** What [weakDive] returns. *)
Lemma weakDive_Ret b path cmd :
  weakDive b path = Ret cmd →
  ∃ rest,
    path = through cmd ++ rest ∧
    strictDive_loop (commands b) None (through cmd) = Ret (command cmd) ∧
    (through cmd = [] ∨ is_Some (command cmd)) ∧
    match rest with
    | [] => True
    | s :: _ => child_of (commands b) (command cmd) s = Ret None
    end.
Proof.
  intros Hw. destruct (weakDive_spec b path) as (consumed & rest & last & Hp & Hl & Hc & Hr).
  exists rest. destruct rest as [|s rest].
  { rewrite Hw in Hr. by simplify_eq. }
  destruct (child_of (commands b) last s) as [[v|]|e|] eqn:E; try done.
  - rewrite Hw in Hr. by simplify_eq.
  - congruence.
Qed.

Lemma weakDive_modelled b path : weakDive b path ≠ Unmodelled.
Proof. apply weakDive_loop_modelled. Qed.

Lemma strictDive_Ret b path v :
  strictDive b path = Ret v ↔ strictDive_loop (commands b) None path = Ret (Some v).
Proof.
  unfold strictDive. destruct (strictDive_loop _ _ _) as [[v'|]|e|];
    split; intros; simplify_eq; done.
Qed.

Lemma strictDive_Throw b path :
  strictDive_loop (commands b) None path = Ret None →
  strictDive b path = Throw unable_to_follow.
Proof. unfold strictDive. by intros ->. Qed.

Lemma strictDive_Throw_inv b path :
  strictDive b path = Throw unable_to_follow →
  strictDive_loop (commands b) None path = Ret None.
Proof.
  unfold strictDive. pose proof (strictDive_loop_modelled (commands b) None path).
  destruct (strictDive_loop _ _ _) as [[v'|]|e|] eqn:E; try done.
  intros [= ->]. exfalso. clear H. revert E. generalize (@None Value).
  induction path as [|s path IH]; intros current; [done|]. simpl.
  destruct (child_of (commands b) current s) as [[v|]|e|] eqn:Ec; try done.
  - apply IH.
  - destruct current as [[c|n]|]; simpl in Ec; by simplify_eq.
Qed.

Lemma strictDive_Node b path c :
  strictDive b path = Ret (Node c) ↔ node_at (commands b) None path = Some c.
Proof. rewrite strictDive_Ret. apply (strictDive_loop_Node (commands b) None). Qed.

Lemma strictDive_modelled b path : strictDive b path ≠ Unmodelled.
Proof.
  unfold strictDive. pose proof (strictDive_loop_modelled (commands b) None path).
  by destruct (strictDive_loop _ _ _) as [[v'|]|e|].
Qed.

Lemma weakDive_of_resolved b path v :
  strictDive_loop (commands b) None path = Ret (Some v) →
  weakDive b path = Ret (mkCommandsThrough path (Some v)).
Proof.
  intros Hs. destruct (weakDive_spec b path) as (consumed & rest & last & Hp & Hl & Hc & Hr).
  destruct rest as [|s rest].
  { rewrite app_nil_r in Hp. subst. rewrite Hs in Hl. by simplify_eq. }
  exfalso. rewrite Hp in Hs.
  assert (strictDive_loop (commands b) last (s :: rest) = Ret (Some v)) as Hstep.
  { destruct Hc as [->|[v' ->]]; [simpl in Hl; by simplify_eq|].
    by rewrite (strictDive_loop_app _ _ _ _ _ Hl) in Hs. }
  simpl in Hstep.
  destruct (child_of (commands b) last s) as [[v''|]|e|]; done.
Qed.

Lemma longer_prefix_split {A} (t rest q k : list A) :
  t ++ rest = q ++ k → length t < length q →
  ∃ s k', q = t ++ s :: k' ∧ rest = s :: k' ++ k.
Proof.
  intros H Hlen. apply app_eq_inv in H as [(k0 & -> & _)|(k0 & -> & ->)].
  - rewrite length_app in Hlen. lia.
  - destruct k0 as [|s k']; [rewrite app_nil_r in Hlen; lia|]. by exists s, k'.
Qed.

(** Where the strict walk finds nothing, the permissive walk stops before. *)
Lemma weakDive_shorter_than_unresolved b path q rest :
  path = q ++ rest → q ≠ [] →
  strictDive_loop (commands b) None q = Ret None →
  ∃ cmd, weakDive b path = Ret cmd ∧ length (through cmd) < length q.
Proof.
  intros -> Hne Hs.
  destruct (weakDive_spec b (q ++ rest)) as (consumed & rest' & last & Hp & Hl & Hc & Hr).
  destruct (decide (length consumed < length q)) as [Hlt|Hge].
  - destruct (longer_prefix_split _ _ _ _ (eq_sym Hp) Hlt) as (s & k & -> & ->).
    exists (mkCommandsThrough consumed last). split; [|done].
    assert (strictDive_loop (commands b) last (s :: k) = Ret None) as Hstep.
    { destruct Hc as [->|[v ->]]; [simpl in Hl; by simplify_eq|].
      by rewrite (strictDive_loop_app _ _ _ _ _ Hl) in Hs. }
    simpl in Hstep.
    destruct (child_of (commands b) last s) as [[v|]|e|]; done.
  - exfalso. apply Nat.nlt_ge in Hge.
    assert (∃ k, consumed = q ++ k) as [k ->].
    { apply app_eq_inv in Hp as [(k & Hk & _)|(k & Hk & _)]; [|by exists k].
      exists []. rewrite app_nil_r. rewrite Hk in Hge |- *.
      rewrite length_app in Hge. destruct k; [by rewrite app_nil_r|simpl in Hge; lia]. }
    rewrite (strictDive_loop_None_app _ _ _ _ Hs Hne) in Hl.
    destruct Hc as [Hc|[v Hv]]; [by destruct q|]. by simplify_eq.
Qed.

(* ===================================================================== *)
(** * Registration: lemmas *)
(* ===================================================================== *)

Lemma register_unfold arguments_ w :
  register arguments_ w =
    let path := register_path arguments_ in
    match weakDive (bot w) path with
    | Ret cmd =>
        let name := default "undefined" (path !! (length path - 1)) in
        if negb (defined (command cmd)) && (length path =? 1) then
          update (set_commands (λ root, <[name := register_node arguments_]> root)) w
        else if defined (command cmd) && (length (through cmd) =? length path - 1) then
          match command cmd with
          | Some (Native _) => (w, Throw (TypeErrorUndefined name))
          | _ =>
              update (set_commands (λ root,
                set_sub_at root (through cmd) name (register_node arguments_))) w
          end
        else (w, Throw unable_to_follow)
    | Throw e => (w, Throw e)
    | Unmodelled => (w, Unmodelled)
    end.
Proof.
  destruct arguments_; unfold register, register_path, register_node; simpl;
    unfold mbind, M_bind, this, lift; simpl;
    (destruct (weakDive _ _) as [cmd|e|]; [|done..]);
    repeat match goal with |- context [if ?b then _ else _] => destruct b end;
    try done; by destruct (command cmd) as [[c|n]|].
Qed.

(** Registration of a path that resolves already is refused. *)
Lemma register_registered arguments_ w v :
  strictDive (bot w) (register_path arguments_) = Ret v →
  register arguments_ w = (w, Throw unable_to_follow).
Proof.
  intros Hs%strictDive_Ret. rewrite register_unfold. cbv zeta.
  rewrite (weakDive_of_resolved _ _ _ Hs). simpl.
  destruct (register_path arguments_) as [|s path]; [done|].
  simpl length. rewrite Nat.sub_succ, Nat.sub_0_r.
  destruct (Nat.eqb_spec (S (length path)) (length path)); [lia|done].
Qed.

(** Registration below an ancestor that does not resolve is refused. *)
Lemma register_missing_ancestor arguments_ w q rest :
  register_path arguments_ = q ++ rest → q ≠ [] → rest ≠ [] →
  strictDive (bot w) q = Throw unable_to_follow →
  register arguments_ w = (w, Throw unable_to_follow).
Proof.
  intros Hp Hq Hrest Hs%strictDive_Throw_inv. rewrite register_unfold. cbv zeta.
  destruct (weakDive_shorter_than_unresolved _ _ _ _ Hp Hq Hs) as (cmd & -> & Hlen).
  assert (length (register_path arguments_) = length q + length rest) as Hl
    by (by rewrite Hp, length_app).
  assert (0 < length q) by (destruct q; [done|simpl; lia]).
  assert (0 < length rest) by (destruct rest; [done|simpl; lia]).
  destruct (Nat.eqb_spec (length (register_path arguments_)) 1); [lia|].
  destruct (Nat.eqb_spec (length (through cmd))
              (length (register_path arguments_) - 1)); [lia|].
  by rewrite !andb_false_r.
Qed.

Ltac map_eval :=
  repeat progress
    (unfold update, set_commands, get_property; simpl;
     rewrite ?(lookup_insert_eq (M:=gmap string)), ?(lookup_empty (M:=gmap string)),
       ?(insert_insert_eq (M:=gmap string))).

(** Registering [a], [a b] and [a b c] in this order, on a tree with no
    root [a]. *)
Lemma register_chain w act1 act2 act3 h1 h2 h3 :
  commands (bot w) !! "a" = None →
  let n3 := mkCommand act3 ∅ h3 in
  let n2 := mkCommand act2 {[ "c" := n3 ]} h2 in
  let n1 := mkCommand act1 {[ "b" := n2 ]} h1 in
  (register (ByPath "a" act1 h1);;
   register (ByPath "a b" act2 h2);;
   register (ByPath "a b c" act3 h3)) w =
    ({| bot := set_commands (λ root, <["a" := n1]> root) (bot w);
        natives := natives w; log := log w |},
     Ret tt).
Proof.
  intros Ha n3 n2 n1. destruct w as [b nat l]. simpl in Ha.
  unfold mbind, M_bind. rewrite register_unfold. cbv zeta.
  unfold register_path, register_node, weakDive. map_eval. rewrite Ha. map_eval.
  rewrite register_unfold. cbv zeta.
  unfold register_path, register_node, weakDive. map_eval.
  rewrite register_unfold. cbv zeta.
  unfold register_path, register_node, weakDive. map_eval.
  by rewrite !(insert_empty (M:=gmap string)).
Qed.

Section StateFacts.

Variable cb : Callbacks.

Lemma forEach_listeners previousState newState ls w :
  forEach (call_listener cb previousState newState) ls w =
    (add_log (map (λ l, EvListener l previousState newState)
                (notified cb (bot w) previousState newState ls)) w,
     match first_throw cb (bot w) previousState newState ls with
     | Some e => Throw e
     | None => Ret tt
     end).
Proof.
  revert w. induction ls as [|l ls IH]; intros w.
  { destruct w. unfold add_log. simpl. by rewrite app_nil_r. }
  simpl. unfold mbind, M_bind, call_listener, this, emit. simpl.
  unfold mbind, M_bind. simpl.
  destruct (run_listener cb l (bot w) previousState newState) as [e|] eqn:E; simpl.
  { done. }
  rewrite IH. unfold add_log. simpl. by rewrite <- app_assoc.
Qed.

Lemma setState_unfold partial w :
  let previous := state (bot w) in
  let next := spread previous partial in
  let b' := set_state next (bot w) in
  setState cb partial w =
    ({| bot := b'; natives := natives w;
        log := log w ++ map (λ l, EvListener l previous next)
                          (notified cb b' previous next (stateListeners (bot w))) |},
     match first_throw cb b' previous next (stateListeners (bot w)) with
     | Some e => Throw e
     | None => Ret tt
     end).
Proof.
  intros previous next b'.
  unfold setState, dispatchStateUpdate, mbind, M_bind, this, update. simpl.
  unfold mbind, M_bind. simpl. by rewrite forEach_listeners.
Qed.

Lemma notified_prefix b p n ls : notified cb b p n ls `prefix_of` ls.
Proof.
  induction ls as [|l ls IH]; simpl; [done|].
  destruct (run_listener cb l b p n).
  - by exists ls.
  - by apply prefix_cons.
Qed.

Lemma notified_all b p n ls :
  first_throw cb b p n ls = None → notified cb b p n ls = ls.
Proof.
  induction ls as [|l ls IH]; simpl; [done|].
  destruct (run_listener cb l b p n); [done|]. intros H. by rewrite IH.
Qed.

Lemma first_throw_Some b p n ls l e :
  l ∈ ls → run_listener cb l b p n = Some e →
  is_Some (first_throw cb b p n ls).
Proof.
  induction ls as [|l' ls IH]; simpl; [by intros ?%elem_of_nil|].
  intros [->|Hin]%elem_of_cons He.
  - by rewrite He.
  - destruct (run_listener cb l' b p n); [done|by apply IH].
Qed.

End StateFacts.

Lemma onStateUpdate_listeners action w :
  stateListeners (bot (onStateUpdate action w).1) =
    if bool_decide (action ∈ stateListeners (bot w)) then stateListeners (bot w)
    else stateListeners (bot w) ++ [action].
Proof. unfold onStateUpdate, update. simpl. by case_bool_decide. Qed.

Lemma onStateUpdate_NoDup action w :
  NoDup (stateListeners (bot w)) →
  NoDup (stateListeners (bot (onStateUpdate action w).1)).
Proof.
  intros H. rewrite onStateUpdate_listeners. case_bool_decide; [done|].
  apply NoDup_app. split_and!; [done| |apply NoDup_singleton].
  intros x Hx ->%list_elem_of_singleton. done.
Qed.

Lemma onStateUpdate_twice action w :
  (onStateUpdate action;; onStateUpdate action) w = onStateUpdate action w.
Proof.
  unfold mbind, M_bind, onStateUpdate, update. simpl.
  destruct w as [b nat l]. simpl. f_equal. f_equal.
  repeat case_bool_decide; try done.
  exfalso. simpl in *. set_solver.
Qed.

Section DispatchFacts.

Variable cb : Callbacks.

Lemma receive_automated m w :
  author_bot m = true → receive cb m w = (w, Ret ReceivedFalse).
Proof. intros H. unfold receive. by rewrite H. Qed.

Lemma receive_not_addressed m w :
  author_bot m = false → parse (prefix (bot w)) (content m) = [] →
  receive cb m w = (w, Ret ReceivedFalse).
Proof.
  intros H Hp. unfold receive. rewrite H.
  unfold mbind, M_bind, this. by rewrite Hp.
Qed.

(** [receive] when the walk throws. *)
Lemma receive_walk_throws m w e :
  author_bot m = false →
  parse (prefix (bot w)) (content m) ≠ [] →
  weakDive (bot w) (parse (prefix (bot w)) (content m)) = Throw e →
  receive cb m w = (w, Throw e).
Proof.
  intros Hbot Hp Hw. unfold receive. rewrite Hbot.
  unfold mbind, M_bind, this, lift.
  destruct (parse (prefix (bot w)) (content m)) as [|t ts]; [done|].
  simpl. by rewrite Hw.
Qed.

(** [receive] when the regular expression throws. *)
Lemma receive_throw m w cmd e :
  author_bot m = false →
  parse (prefix (bot w)) (content m) ≠ [] →
  weakDive (bot w) (parse (prefix (bot w)) (content m)) = Ret cmd →
  rest_of cb (prefix (bot w)) (through cmd) (content m) = Throw e →
  receive cb m w = (w, Throw e).
Proof.
  intros Hbot Hp Hw Hrest. unfold receive. rewrite Hbot.
  unfold mbind, M_bind, this, lift.
  destruct (parse (prefix (bot w)) (content m)) as [|t ts]; [done|].
  simpl. by rewrite Hw, Hrest.
Qed.

Lemma rest_of_modelled p through content : rest_of cb p through content ≠ Unmodelled.
Proof.
  unfold rest_of. cbv zeta.
  by destruct (Regex.compile _); [|destruct (run_regexp _ _ _)].
Qed.

(** [receive] on a message that is addressed to the bot, once the walk has
    returned and the regular expression is within the modelled fragment. *)
Lemma receive_addressed m w cmd rest :
  let b := bot w in
  let request := request_of (prefix b) m cmd rest in
  author_bot m = false →
  parse (prefix b) (content m) ≠ [] →
  weakDive b (parse (prefix b) (content m)) = Ret cmd →
  rest_of cb (prefix b) (through cmd) (content m) = Ret rest →
  receive cb m w =
    (if help_branch (natives w) request then onHelp cb request;; mret ReceivedVoid
     else match req_command request with
          | None => onInvalidCommand m;; mret ReceivedVoid
          | Some v =>
              try_catch (action ← action_of v; call_action cb action request)
                        (λ error, onError error request);;
              mret ReceivedVoid
          end) w.
Proof.
  intros b request Hbot Hp Hw Hrest. unfold receive. rewrite Hbot.
  unfold request, request_of in *.
  unfold help_branch, mbind at 1 2 3 4, M_bind at 1 2 3 4, this, lift, get_help.
  simpl. fold b.
  destruct (parse (prefix b) (content m)) as [|t ts] eqn:Ep; [done|].
  simpl. rewrite Hw, Hrest. done.
Qed.

Lemma onError_run error request w :
  onError error request w = (add_log (error_events (bot w) request error) w, Ret tt).
Proof.
  unfold onError, reply, emit, mbind, M_bind, this, add_log, error_events. simpl.
  by rewrite <- app_assoc.
Qed.

Lemma onHelp_run request w :
  onHelp cb request w = (add_log (help_events cb w request) w, Ret tt).
Proof.
  unfold onHelp, help_events, mbind at 1, M_bind at 1, this at 1. simpl.
  destruct (req_command request) as [v|]; [|done].
  unfold mbind at 1, M_bind at 1, get_help. simpl.
  destruct (help_of (natives w) v) as [[h|f]|]; [done| |done].
  unfold try_catch, call_help, onError, error_events, reply, add_log,
    mbind, M_bind, this, emit, mret, M_ret, throw.
  simpl. destruct (run_help cb f (bot w)) as [e|h]; simpl;
    by rewrite <- !app_assoc.
Qed.

Lemma call_action_run v request w :
  (try_catch (action ← action_of v; call_action cb action request)
             (λ error, onError error request)) w =
    (add_log (action_events cb (bot w) request v) w, Ret tt).
Proof.
  destruct v as [c|n].
  - unfold try_catch, action_of, call_action, action_events, onError, error_events, reply,
      add_log, mbind, M_bind, this, emit, mret, M_ret, throw. simpl.
    destruct (run_action cb (cmd_action c) (bot w) request) as [e|]; simpl;
      by rewrite <- ?app_assoc.
  - unfold try_catch, action_of, action_events, mbind, M_bind, throw.
    by rewrite onError_run.
Qed.

(** [receive] on a message addressed to the bot resolves, after the calls
    of [dispatch_events]. *)
Lemma receive_run m w cmd rest :
  let b := bot w in
  let request := request_of (prefix b) m cmd rest in
  author_bot m = false →
  parse (prefix b) (content m) ≠ [] →
  weakDive b (parse (prefix b) (content m)) = Ret cmd →
  rest_of cb (prefix b) (through cmd) (content m) = Ret rest →
  receive cb m w = (add_log (dispatch_events cb w request) w, Ret ReceivedVoid).
Proof.
  intros b request Hbot Hp Hw Hrest.
  rewrite (receive_addressed m w cmd rest Hbot Hp Hw Hrest). fold b request.
  unfold dispatch_events. destruct (help_branch (natives w) request).
  { unfold mbind, M_bind. by rewrite onHelp_run. }
  destruct (req_command request) as [v|].
  - unfold mbind at 1, M_bind at 1. by rewrite call_action_run.
  - done.
Qed.

End DispatchFacts.

(** Membership of an event in an explicit list of events of other kinds. *)
Ltac in_events H :=
  repeat (apply elem_of_cons in H as [H|H]; [discriminate H|]);
  apply elem_of_nil in H.

Section ReceiveCases.

Variable cb : Callbacks.

(** The three ends of [receive]: not for the bot, a throw of the walk or of
  the regular expression, or a dispatch. *)
Lemma receive_cases m w :
let b := bot w in
receive cb m w = (w, Ret ReceivedFalse) ∨
(∃ e, receive cb m w = (w, Throw e)) ∨
(∃ cmd rest,
   author_bot m = false ∧ parse (prefix b) (content m) ≠ [] ∧
   weakDive b (parse (prefix b) (content m)) = Ret cmd ∧
   rest_of cb (prefix b) (through cmd) (content m) = Ret rest ∧
   receive cb m w =
     (add_log (dispatch_events cb w (request_of (prefix b) m cmd rest)) w,
      Ret ReceivedVoid)).
Proof.
intros b. destruct (author_bot m) eqn:Hbot.
{ left. by apply receive_automated. }
destruct (decide (parse (prefix b) (content m) = [])) as [Hp|Hp].
{ left. by apply receive_not_addressed. }
destruct (weakDive b (parse (prefix b) (content m))) as [cmd|e|] eqn:Hw.
2:{ right. left. exists e. by apply receive_walk_throws. }
2:{ by apply weakDive_modelled in Hw. }
destruct (rest_of cb (prefix b) (through cmd) (content m)) as [rest|e|] eqn:Hrest.
- right. right. exists cmd, rest. split_and!; [done..|]. by apply receive_run.
- right. left. exists e. by apply (receive_throw cb m w cmd).
- by apply rest_of_modelled in Hrest.
Qed.

Lemma new_events_add evs w r m :
receive cb m w = (add_log evs w, r) → new_events cb m w = evs.
Proof.
intros H. unfold new_events. rewrite H. simpl. by rewrite drop_app_length.
Qed.

Lemma new_events_none w r m :
receive cb m w = (w, r) → new_events cb m w = [].
Proof.
intros H. unfold new_events. rewrite H. simpl. by rewrite drop_all.
Qed.

Lemma action_in_dispatch_events w request a request' :
EvAction a request' ∈ dispatch_events cb w request →
help_branch (natives w) request = false ∧ request' = request ∧
∃ c, req_command request = Some (Node c) ∧ a = cmd_action c.
Proof.
unfold dispatch_events, help_events, action_events, error_events. intros Hin.
destruct (help_branch (natives w) request).
{ destruct (req_command request) as [v|]; [|by in_events Hin].
  destruct (help_of (natives w) v) as [[h|f]|]; [by in_events Hin| |by in_events Hin].
  destruct (run_help cb f (bot w)); by in_events Hin. }
destruct (req_command request) as [[c|n]|]; [|by in_events Hin..].
split; [done|].
apply elem_of_cons in Hin as [Heq|Hin].
- injection Heq as -> ->. eauto.
- destruct (run_action cb (cmd_action c) (bot w) request); by in_events Hin.
Qed.

Lemma help_in_dispatch_events w request f :
EvHelp f ∈ dispatch_events cb w request →
help_branch (natives w) request = true ∧
∃ v, req_command request = Some v ∧ help_of (natives w) v = Some (DynamicHelp f).
Proof.
unfold dispatch_events, help_events, action_events, error_events. intros Hin.
destruct (help_branch (natives w) request).
- destruct (req_command request) as [v|]; [|by in_events Hin].
  destruct (help_of (natives w) v) as [[h|f']|] eqn:Eh; [by in_events Hin| |by in_events Hin].
  split; [done|]. exists v. split; [done|].
  apply elem_of_cons in Hin as [Heq|Hin].
  + injection Heq as ->. exact Eh.
  + destruct (run_help cb f' (bot w)); by in_events Hin.
- destruct (req_command request) as [[c|n]|]; [|by in_events Hin..].
  destruct (run_action cb (cmd_action c) (bot w) request); by in_events Hin.
Qed.

End ReceiveCases.

(** ** The regular expression on plain prefixes *)

Lemma syntax_char_false c :
  Regex.syntax_char c = false →
  Ascii.eqb c "\" = false ∧ Ascii.eqb c "^" = false ∧ Ascii.eqb c "$" = false.
Proof.
  unfold Regex.syntax_char. simpl. intros H.
  repeat (apply orb_false_elim in H as [? H]). done.
Qed.

Lemma compile_plain p r :
  regex_plain p = true →
  Regex.compile (p +:+ r) = (chars p ++.) <$> Regex.compile r.
Proof.
  induction p as [|c p IH]; intros Hp.
  { simpl. by destruct (Regex.compile r). }
  simpl in Hp. apply andb_true_iff in Hp as [Hc Hp]. apply negb_true_iff in Hc.
  destruct (syntax_char_false _ Hc) as (H1 & H2 & H3).
  simpl. rewrite H1, H2, H3, Hc, (IH Hp).
  by destruct (Regex.compile r).
Qed.

Lemma rest_of_no_command cb p content :
  regex_plain p = true → ∃ rest, rest_of cb p [] content = Ret rest.
Proof.
  intros Hp. unfold rest_of. cbv zeta. simpl Js.join.
  change ("^" +:+ p +:+ "" +:+ "\s*") with (String "^" (p +:+ "\s*")).
  simpl. rewrite (compile_plain _ _ Hp). simpl. eauto.
Qed.

Lemma help_names_spec b :
  Sorted String.le (help_names b) ∧
  help_names b ≡ₚ object_keys (commands b) ++ ["help"] ∧
  (∀ k, k ∈ help_names b ↔ k = "help" ∨ is_Some (commands b !! k)).
Proof.
  unfold help_names, js_sort. split_and!.
  - apply (Sorted_merge_sort _).
  - apply merge_sort_Permutation.
  - intros k. rewrite merge_sort_Permutation, elem_of_app, list_elem_of_singleton.
    unfold object_keys. rewrite list_elem_of_fmap. split.
    + intros [([k' c] & -> & Hin%elem_of_map_to_list)| ->]; [right; by eexists|by left].
    + intros [->|[c Hc]]; [by right|left].
      exists (k, c). split; [done|]. by apply elem_of_map_to_list.
Qed.

Lemma help_names_NoDup b :
  commands b !! "help" = None → NoDup (help_names b).
Proof.
  intros Hh. destruct (help_names_spec b) as (_ & Hp & _). rewrite Hp.
  apply NoDup_app. split_and!.
  - apply NoDup_fst_map_to_list.
  - intros k Hk Hk'. apply list_elem_of_singleton in Hk'. subst k.
    unfold object_keys in Hk.
    apply list_elem_of_fmap in Hk as ([k' c] & Heq & Hin%elem_of_map_to_list).
    simpl in *. subst k'. congruence.
  - apply NoDup_singleton.
Qed.

Lemma parse_help_word p :
  Js.spaceless p = true → parse p (p +:+ "help") = ["help"].
Proof.
  intros Hp. destruct p as [|c p]; [done|].
  by rewrite parse_glued_word.
Qed.

(* ===================================================================== *)
(** * The regular expression on plain names *)
(* ===================================================================== *)

Section RegexFacts.
Import Js JsFacts Regex.

Lemma chars_app s t : chars (s +:+ t) = chars s ++ chars t.
Proof. induction s; simpl; congruence. Qed.

Lemma regex_plain_app s t :
regex_plain (s +:+ t) = regex_plain s && regex_plain t.
Proof. induction s as [|c s IH]; simpl; [done|]. by rewrite IH, andb_assoc. Qed.

Lemma match_chars t re b x :
match_here (chars t ++ re) b (t +:+ x) =
  match_here re (match t with "" => b | _ => false end) x.
Proof.
revert b. induction t as [|c t IH]; intros b; [done|].
simpl. rewrite Ascii.eqb_refl, IH. by destruct t.
Qed.

Lemma greedy_spaces_end b s :
greedy_spaces (match_here []) b s = Some (trimStart s).
Proof.
revert b. induction s as [|c s IH]; intros b; [done|].
simpl. destruct (is_space c); [by rewrite IH|done].
Qed.

(** The greedy quantifier takes the whole run when what follows matches. *)
Lemma greedy_spaces_run k b w x r :
blank w = true → word_end x = false → k false x = Some r →
(w = "" → b = false) →
greedy_spaces k b (w +:+ x) = Some r.
Proof.
intros Hw Hx Hk. revert b. induction w as [|c w IH]; intros b Hb.
- rewrite Hb by done. destruct x as [|d x]; [done|].
  simpl in *. by rewrite Hx.
- simpl in Hw. apply andb_true_iff in Hw as [Hc Hw].
  simpl. rewrite Hc, (IH Hw false); done.
Qed.

Lemma compile_path through tail :
Forall (λ t, regex_plain t = true) through →
compile (join "\s+" through +:+ tail) = (path_items through ++.) <$> compile tail.
Proof.
induction 1 as [|t more Ht Hmore IH].
{ simpl. by destruct (compile tail). }
destruct more as [|t' more].
{ simpl. by apply compile_plain. }
change (join "\s+" (t :: t' :: more)) with
  (t +:+ "\s+" +:+ join "\s+" (t' :: more)).
rewrite !append_assoc, (compile_plain _ _ Ht).
change (compile ("\s+" +:+ ?x)) with (cons SpacePlus <$> compile x).
rewrite IH. change (path_items (t :: t' :: more)) with
  (chars t ++ SpacePlus :: path_items (t' :: more)).
destruct (compile tail); simpl; [|done]. by rewrite <- app_assoc.
Qed.

(** The match of the names and the final [\s*] on a text made of them. *)
Lemma match_spaced ts s r b :
ts ≠ [] → spaced ts s r → word_end r = true →
match_here (path_items ts ++ [SpaceStar]) b s = Some (trimStart r).
Proof.
intros Hne Hs Hr. revert s b Hs. induction ts as [|t more IH]; [done|].
intros s b Hs. destruct more as [|t' more].
{ simpl in Hs. subst s. cbn [path_items]. rewrite match_chars.
  cbn [match_here]. apply greedy_spaces_end. }
destruct Hs as (w & s' & -> & Hw & Hwn & Hs' & Hsp).
change (path_items (t :: t' :: more)) with
  (chars t ++ SpacePlus :: path_items (t' :: more)).
rewrite <- app_assoc, match_chars. cbn [app match_here].
destruct w as [|c w]; [done|]. simpl in Hw. apply andb_true_iff in Hw as [Hc Hw].
simpl. rewrite Hc.
apply greedy_spaces_run; [done|done| |done].
by apply IH.
Qed.

(** ** Words of a text and its shape *)

Lemma words_cons_inv s t ts :
words s = t :: ts → word_end s = false →
∃ s', s = t +:+ s' ∧ word_end s' = true ∧ words s' = ts.
Proof.
revert t ts. induction s as [|c s IH]; intros t ts Hw Hs; [done|].
simpl in Hs. simpl in Hw. rewrite Hs in Hw.
destruct s as [|d s].
{ injection Hw as <- <-. by exists "". }
destruct (is_space d) eqn:Ed.
{ injection Hw as <- <-. exists (String d s). simpl. by rewrite Ed. }
destruct (words (String d s)) as [|u us] eqn:Eu.
{ destruct (words_head d s Ed) as (? & ? & ?). congruence. }
injection Hw as <- <-.
destruct (IH u us eq_refl) as (s' & Hs' & He & Hws); [by simpl|].
exists s'. rewrite Hs'. done.
Qed.

Lemma split_leading s :
∃ w, s = w +:+ trimStart s ∧ blank w = true ∧
     (word_end s = true → s ≠ "" → w ≠ "").
Proof.
induction s as [|c s (w & Hw & Hb & _)]; [by exists ""|].
simpl. destruct (is_space c) eqn:E.
- exists (String c w). simpl. rewrite E, Hb. by rewrite <- Hw.
- exists "". split_and!; [done|done|]. simpl. congruence.
Qed.

Lemma trimStart_word_end s : words s ≠ [] → word_end (trimStart s) = false.
Proof.
induction s as [|c s IH]; simpl; [done|].
destruct (is_space c) eqn:E; [done|]. intros _. simpl. by rewrite E.
Qed.

(** A text whose words start with [ts] is [ts], spaced, and a rest. *)
Lemma words_spaced ts us s :
ts ≠ [] → words s = ts ++ us → word_end s = false →
∃ r, spaced ts s r ∧ word_end r = true ∧ words r = us.
Proof.
intros Hne. revert s. induction ts as [|t more IH]; [done|]. intros s Hw Hs.
destruct (words_cons_inv s t (more ++ us) Hw Hs) as (s' & -> & He & Hws).
destruct more as [|t' more].
{ exists s'. by simpl. }
destruct (split_leading s') as (w & Hsplit & Hb & Hwn).
assert (words (trimStart s') = (t' :: more) ++ us) as Hw' by (by rewrite words_trimStart).
assert (word_end (trimStart s') = false) as He'.
{ apply trimStart_word_end. by rewrite Hws. }
destruct (IH ltac:(done) (trimStart s') Hw' He') as (r & Hsp & Hr & Hwr).
exists r. split_and!; [|done|done].
exists w, (trimStart s'). split_and!; try done.
- by rewrite <- Hsplit.
- apply Hwn; [done|]. intros ->. by simpl in Hws.
Qed.

End RegexFacts.

Section RestFacts.
Import Js JsFacts Regex.

Variable cb : Callbacks.

Lemma trimStart_idemp s : trimStart (trimStart s) = trimStart s.
Proof.
induction s as [|c s IH]; simpl; [done|].
destruct (is_space c) eqn:E; [done|]. simpl. by rewrite E.
Qed.

Lemma replace_from_match re b s r :
match_here re b s = Some r → replace_from re b s = r.
Proof. intros H. destruct s; simpl; by rewrite H. Qed.

Lemma path_items_glued p t more :
chars p ++ path_items (t :: more) = path_items (glued p (t :: more)).
Proof.
simpl. destruct more; rewrite chars_app; [done|]. by rewrite <- app_assoc.
Qed.

Lemma spaceless_word_end p : spaceless p = true → p ≠ "" → ∀ x, word_end (p +:+ x) = false.
Proof.
destruct p as [|c p]; [done|]. simpl.
intros [Hc _]%andb_true_iff _ x. by apply negb_true_iff.
Qed.

(** [rest] for a prefix and names without syntax characters: the message is
  the prefix, the consumed names separated by whitespace, and a rest [r];
  [rest] is [r] trimmed, and its words are the tokens not consumed. *)
Lemma rest_of_plain p through args content :
p ≠ "" → spaceless p = true → regex_plain p = true →
through ≠ [] → Forall (λ t, regex_plain t = true) through →
parse p content = through ++ args →
∃ r, spaced (glued p through) content r ∧ word_end r = true ∧ words r = args ∧
     rest_of cb p through content = Ret (trim r).
Proof.
intros Hp Hs Hplain Hne Hts Hparse.
destruct (startsWith content p) eqn:Hsw.
2:{ rewrite (parse_not_addressed _ _ Hsw) in Hparse. by destruct through. }
apply startsWith_inv in Hsw as [body ->].
destruct body as [|c body].
{ rewrite (parse_bare_prefix p Hs Hp "" I) in Hparse. by destruct through. }
destruct (is_space c) eqn:Ec.
{ rewrite (parse_bare_prefix p Hs Hp (String c body) Ec) in Hparse. by destruct through. }
rewrite (parse_glued_word p Hs Hp c body Ec) in Hparse.
destruct through as [|t more]; [done|].
assert (words (p +:+ String c body) = glued p (t :: more) ++ args) as Hw.
{ rewrite words_spaceless_append, Ec, Hparse by done. done. }
destruct (words_spaced (glued p (t :: more)) args (p +:+ String c body))
  as (r & Hsp & Hr & Hwr); [done|done|by apply spaceless_word_end|].
exists r. split_and!; [done..|].
unfold rest_of. cbv zeta.
change ("^" +:+ ?x) with (String "^" x). cbn [compile Ascii.eqb Bool.eqb].
rewrite (compile_plain _ _ Hplain), (compile_path _ _ Hts).
change (compile "\s*") with (Some [SpaceStar]). cbn [fmap option_fmap option_map].
rewrite app_assoc, path_items_glued. unfold replace_first.
rewrite (replace_from_match _ _ _ (trimStart r)).
- unfold trim. by rewrite trimStart_idemp.
- cbn [match_here]. by apply match_spaced.
Qed.

(** X15: the request of [receive] where the regular expression does what is
  meant: for a non-empty prefix without whitespace, and without syntax
  characters in the prefix and in the consumed names, a message for which
  [weakDive] returns a command of the tree, and that does not ask for help,
  runs the action of that command once, with a request whose [commands] are
  the consumed segments, whose [args] are the tokens after them, and whose
  [rest] is the text after the prefix and the consumed names, trimmed. *)
Theorem receive_request_of_plain_names (w : World) (m : Message)
  (cmd : CommandsThrough) (c : Command) :
let b := bot w in
let components := parse (prefix b) (content m) in
author_bot m = false →
prefix b ≠ "" → spaceless (prefix b) = true → regex_plain (prefix b) = true →
weakDive b components = Ret cmd →
Forall (λ t, regex_plain t = true) (through cmd) →
command cmd = Some (Node c) →
∃ r,
  let request := request_of (prefix b) m cmd (trim r) in
  spaced (glued (prefix b) (through cmd)) (content m) r ∧
  req_commands request = through cmd ∧
  through cmd ++ req_args request = components ∧
  words (req_rest request) = req_args request ∧
  (help_branch (natives w) request = false →
   receive cb m w = (add_log (action_events cb b request (Node c)) w, Ret ReceivedVoid)).
Proof.
intros b components Hbot Hp Hs Hplain Hw Hts Hc.
destruct (weakDive_Ret b components cmd Hw) as (args & Hsplit & Hcmd & Hthrough & _).
assert (through cmd ≠ []) as Hne.
{ intros Hnil. rewrite Hnil in Hcmd. simpl in Hcmd. congruence. }
destruct (rest_of_plain (prefix b) (through cmd) args (content m))
  as (r & Hsp & Hr & Hwr & Hrest); [done..|].
assert (drop (length (through cmd)) components = args) as Hargs.
{ transitivity (drop (length (through cmd)) (through cmd ++ args));
    [by f_equal|by rewrite drop_app_length]. }
exists r. cbv zeta. split_and!; [done|done| | |].
{ unfold request_of. simpl. fold components. rewrite Hargs. symmetry. exact Hsplit. }
{ unfold request_of. simpl. fold components. rewrite words_trim, Hargs. exact Hwr. }
intros Hb. rewrite (receive_run cb m w cmd (trim r)); fold b.
- unfold dispatch_events. rewrite Hb.
  assert (req_command (request_of (prefix b) m cmd (trim r)) = Some (Node c)) as ->
    by exact Hc.
  done.
- done.
- fold components. intros Hnil. rewrite Hnil in Hsplit. by destruct (through cmd).
- exact Hw.
- exact Hrest.
Qed.

End RestFacts.

(* ===================================================================== *)
(** * The tests of the repository, on the model *)
(* ===================================================================== *)

Example test_parse_no_prefix :
  parse ";;" "test" = [] ∧ parse ";;" "test ;;me" = [] ∧ parse ";;" "  ;;test" = [].
Proof. by vm_compute. Qed.

Example test_parse_arguments :
  parse ";;" ";;test" = ["test"] ∧
  parse ";;" ";;test my script" = ["test"; "my"; "script"] ∧
  parse ";;" ";;test my script ;;" = ["test"; "my"; "script"; ";;"].
Proof. by vm_compute. Qed.

Example test_state_can_be_changed :
  state (bot ((setState quiet value1_a;; setState quiet value2_b) fresh_world).1) =
    Some {[ "value1" := JsString "a"; "value2" := JsString "b" ]} ∧
  state (bot ((setState quiet value1_a;; setState quiet value2_b;;
               setState quiet {[ "value2" := JsString "B"; "value1" := JsString "A" ]})
                fresh_world).1) =
    Some {[ "value1" := JsString "A"; "value2" := JsString "B" ]}.
Proof. by vm_compute. Qed.

Example test_state_listeners :
  log ((onStateUpdate 1;; setState quiet value1_a;; setState quiet value2_b)
         fresh_world).1 =
    [ EvListener 1 None (Some value1_a);
      EvListener 1 (Some value1_a)
        (Some {[ "value1" := JsString "a"; "value2" := JsString "b" ]}) ].
Proof. by vm_compute. Qed.

Example test_register_needs_parent :
  (register (ByPath "test this" 1 None) fresh_world).2 = Throw unable_to_follow ∧
  (help "test" (StaticHelp (Text "Help!")) fresh_world).2 = Throw unable_to_follow.
Proof. by vm_compute. Qed.

Example test_register_subcommands :
  commands (bot ((register (ByPath "test" 1 None);;
                  register (ByPath "test this" 2 None);;
                  help "test this" (StaticHelp (Text "Help!"));;
                  register (ByPath "test this script" 3 None)) fresh_world).1) =
    {[ "test" :=
         mkCommand 1
           {[ "this" :=
                mkCommand 2 {[ "script" := mkCommand 3 ∅ None ]}
                  (Some (StaticHelp (Text "Help!"))) ]}
           None ]}.
Proof. by vm_compute. Qed.

Example test_strictDive :
  strictDive diving_bot ["a"] = Ret (Node node_a) ∧
  strictDive diving_bot ["b"] = Ret (Node (mkCommand 4 ∅ None)) ∧
  strictDive diving_bot ["a"; "aa"; "aaa"] = Ret (Node node_aaa) ∧
  strictDive diving_bot ["z"] = Throw unable_to_follow ∧
  strictDive diving_bot ["a"; "b"] = Throw unable_to_follow ∧
  strictDive diving_bot ["a"; "aa"; "aaa"; "b"] = Throw unable_to_follow.
Proof. by vm_compute. Qed.

Example test_weakDive :
  weakDive diving_bot ["a"] = Ret (mkCommandsThrough ["a"] (Some (Node node_a))) ∧
  weakDive diving_bot ["a"; "b"; "c"] =
    Ret (mkCommandsThrough ["a"] (Some (Node node_a))) ∧
  weakDive diving_bot ["a"; "aa"; "aaa"; "c"] =
    Ret (mkCommandsThrough ["a"; "aa"; "aaa"] (Some (Node node_aaa))) ∧
  weakDive diving_bot ["z"; "a"; "aa"] = Ret (mkCommandsThrough [] None).
Proof. by vm_compute. Qed.

Example test_receive_ignores :
  receive test_callbacks (mkMessage true ";;echo") suite_world =
    (suite_world, Ret ReceivedFalse) ∧
  receive test_callbacks (mkMessage false "echo is my favorite overwatch character")
    suite_world = (suite_world, Ret ReceivedFalse) ∧
  receive test_callbacks (mkMessage false ";;") suite_world =
    (suite_world, Ret ReceivedFalse).
Proof. by vm_compute. Qed.

Example test_receive_invalid_command :
  receive test_callbacks (mkMessage false ";;yeet") suite_world =
    (add_log [EvReply (mkMessage false ";;yeet") (Text default_invalidCommandError)]
       suite_world,
     Ret ReceivedVoid).
Proof. by vm_compute. Qed.

Example test_receive_request :
  receive test_callbacks (mkMessage false ";;echo Hi! I'm a bot!") suite_world =
    (add_log
       [EvAction 1
          {| req_message := mkMessage false ";;echo Hi! I'm a bot!";
             req_components := ["echo"; "Hi!"; "I'm"; "a"; "bot!"];
             req_commands := ["echo"];
             req_args := ["Hi!"; "I'm"; "a"; "bot!"];
             req_rest := "Hi! I'm a bot!";
             req_command :=
               Some (Node (mkCommand 1 ∅ (Some (StaticHelp (Text "Echoes back what you say"))))) |}]
       suite_world,
     Ret ReceivedVoid).
Proof. by vm_compute. Qed.

Example test_receive_help :
  receive test_callbacks (mkMessage false ";;echo --help") suite_world =
    (add_log [EvReply (mkMessage false ";;echo --help") (Text "Echoes back what you say")]
       suite_world,
     Ret ReceivedVoid) ∧
  receive test_callbacks (mkMessage false ";;about --help") suite_world =
    (add_log
       [EvHelp 8;
        EvReply (mkMessage false ";;about --help")
          (Text "More about this bot that has a prefix of ;;")]
       suite_world,
     Ret ReceivedVoid).
Proof. by vm_compute. Qed.

(* ===================================================================== *)
(** * The claims of the specification *)
(* ===================================================================== *)

(** C1, as stated, fails: on the bot that has [a] registered,
    [strictDive] finds the node at [a], and [register('a', ...)] throws and
    overwrites nothing. *)
Lemma register_existing_path_is_refused :
  strictDive (bot world_with_a) ["a"] = Ret (Node (mkCommand 1 ∅ None)) ∧
  register (ByPath "a" 2 None) world_with_a = (world_with_a, Throw unable_to_follow) ∧
  register (ByPlugin (mkPlugin "a" 2 (Some {[ "x" := mkCommand 3 ∅ None ]}) None))
    world_with_a = (world_with_a, Throw unable_to_follow).
Proof. split_and!; by vm_compute. Qed.

(** C1 (amended): for every bot whose command tree already has a node at
    the exact path p, [register] with that path, in either form of its
    arguments, throws the error "Unable to follow commands" and leaves the
    bot, its tree included, as it was: the node at p is not overwritten. *)
Theorem register_existing_path_throws (arguments_ : RegisterArgs) (w : World) (c : Command) :
  strictDive (bot w) (register_path arguments_) = Ret (Node c) →
  register arguments_ w = (w, Throw unable_to_follow) ∧
  strictDive (bot (register arguments_ w).1) (register_path arguments_) = Ret (Node c).
Proof.
  intros H. rewrite (register_registered _ _ _ H). done.
Qed.

Lemma register_existing_path_throws_witness :
  register (ByPath "a" 2 None) world_with_a = (world_with_a, Throw unable_to_follow) ∧
  strictDive (bot (register (ByPath "a" 2 None) world_with_a).1) ["a"] =
    Ret (Node (mkCommand 1 ∅ None)).
Proof.
  apply (register_existing_path_throws (ByPath "a" 2 None) world_with_a
           (mkCommand 1 ∅ None)).
  vm_compute. reflexivity.
Defined.

(** C2 at the failing input: on a new bot nothing is registered, and yet
    [strictDive] finds something at [constructor], the function that every
    object inherits under this name; [register] for the path
    [constructor x], whose ancestor [constructor] is not registered, then
    leaves the bot unchanged, but what it throws is not the error "Unable to
    follow commands": it is the [TypeError] of the read of [x] in the
    property [sub], which that function does not have. *)
Lemma register_below_inherited_name :
  commands (bot fresh_world) = ∅ ∧
  strictDive (bot fresh_world) ["constructor"] = Ret (Native "constructor") ∧
  register (ByPath "constructor x" 1 None) fresh_world =
    (fresh_world, Throw (TypeErrorUndefined "x")) ∧
  TypeErrorUndefined "x" ≠ unable_to_follow.
Proof. split_and!; by vm_compute. Qed.

(** C3, as stated, fails: [;; test] starts with the prefix [;;] and has more
    than whitespace after it, so the claimed algorithm gives the tokens
    [""] and ["test"], while [parse] gives no token; and with the prefix
    ["! "], which has whitespace in it, the message that is only the prefix
    has a token. *)
Lemma parse_prefix_then_space_is_empty :
  (parse ";;" ";; test" = [] ∧ parse_as_claimed ";;" ";; test" = [""; "test"]) ∧
  (parse "! " "! " = [""] ∧ parse_as_claimed "! " "! " = []).
Proof. split; split; reflexivity. Qed.

(** C3 (amended): a message that does not start with the prefix has no
    tokens.  A message that starts with it (and is not all whitespace) is
    split into its whitespace-separated words, runs of whitespace counting as
    one separator; when the first word is exactly the prefix there are no
    tokens, otherwise exactly one prefix length is taken off the first word
    and the whole list is returned.  So, for a non-empty prefix without
    whitespace: the prefix alone, or the prefix followed by whitespace
    (whatever comes after the whitespace), has no tokens; and when a
    non-whitespace character follows the prefix the tokens are the words of
    what follows the prefix.  For the prefix [;;]: [;;test my script] gives
    [test], [my], [script]; [;;test   my] gives [test], [my]; [;;;;test]
    gives [;;test]; [;;] gives nothing. *)
Theorem parse_tokens (prefix : string) :
  (∀ m, Js.startsWith m prefix = false → parse prefix m = []) ∧
  (∀ m, Js.startsWith m prefix = true → Js.blank m = false →
        parse prefix m =
          match Js.words m with
          | w :: ws =>
              if String.eqb w prefix then []
              else Js.slice (String.length prefix) w :: ws
          | [] => []
          end) ∧
  (prefix ≠ "" → Js.spaceless prefix = true →
     parse prefix prefix = [] ∧
     (∀ c r, Js.is_space c = true → parse prefix (prefix +:+ String c r) = []) ∧
     (∀ c r, Js.is_space c = false →
             parse prefix (prefix +:+ String c r) = Js.words (String c r))) ∧
  (parse ";;" ";;test my script" = ["test"; "my"; "script"] ∧
   parse ";;" ";;test   my" = ["test"; "my"] ∧
   parse ";;" ";;;;test" = [";;test"] ∧
   parse ";;" ";;" = []).
Proof.
  split_and!; try reflexivity.
  - intros m. apply parse_not_addressed.
  - intros m Hs Hb. unfold parse. by rewrite Hs, JsFacts.tokens_words.
  - intros Hne Hs. split_and!.
    + rewrite <- (JsFacts.append_nil_r prefix) at 2. by apply parse_bare_prefix.
    + intros c r Hc. by apply parse_bare_prefix.
    + intros c r Hc. by apply parse_glued_word.
Qed.

Lemma parse_tokens_witness :
  parse "!" "hello" = [] ∧
  parse "!" "!roll  2d6 " = ["roll"; "2d6"] ∧
  parse "!" ("!" +:+ " roll  2d6") = [] ∧
  parse "!" ("!" +:+ "roll  2d6 ") = Js.words "roll  2d6 ".
Proof.
  split_and!.
  - apply (proj1 (parse_tokens "!") "hello"). reflexivity.
  - apply (proj1 (proj2 (parse_tokens "!")) "!roll  2d6 "); reflexivity.
  - apply (proj1 (proj2 (proj1 (proj2 (proj2 (parse_tokens "!")))
             ltac:(discriminate) ltac:(reflexivity))) " "%char "roll  2d6").
    reflexivity.
  - apply (proj2 (proj2 (proj1 (proj2 (proj2 (parse_tokens "!")))
             ltac:(discriminate) ltac:(reflexivity))) "r"%char "oll  2d6 ").
    reflexivity.
Defined.

(** C4, as stated, fails: with whitespace before the prefix the message is
    not addressed to the bot; and with the prefix ["a "], which has
    whitespace in it, whitespace after the message ["a"] makes it start with
    the prefix. *)
Lemma parse_leading_whitespace_differs :
  (parse ";;" ("  " +:+ ";;test" +:+ "") = [] ∧ parse ";;" ";;test" = ["test"]) ∧
  (parse "a " ("" +:+ "a" +:+ " ") = [""] ∧ parse "a " "a" = []).
Proof. split; split; reflexivity. Qed.

(** C4 (amended): whitespace at the end of a message does not change its
    tokens when the message starts with the prefix, and for a prefix without
    whitespace it changes the tokens of no message.  Whitespace at the start
    does: for a prefix that starts with a non-whitespace character, a message
    that starts with whitespace has no tokens ([  ;;test] has none, [;;test]
    has [test]). *)
Theorem parse_outer_whitespace (prefix : string) :
  (∀ m w2,
     Js.blank w2 = true →
     Js.startsWith m prefix = true ∨ Js.spaceless prefix = true →
     parse prefix (m +:+ w2) = parse prefix m) ∧
  (word_end prefix = false →
   ∀ m w1, Js.blank w1 = true → w1 ≠ "" → parse prefix (w1 +:+ m) = []).
Proof.
  split.
  - intros m w2 Hw [Hm|Hs].
    + unfold parse. rewrite Hm, JsFacts.trim_append_blank by done.
      destruct (JsFacts.startsWith_inv _ _ Hm) as [r ->].
      by rewrite JsFacts.append_assoc, JsFacts.startsWith_append.
    + by apply parse_append_blank.
  - intros Hp m w1 Hw Hw1. apply parse_not_addressed.
    destruct prefix as [|a p]; [done|]. destruct w1 as [|b w1]; [done|].
    simpl in *. apply andb_true_iff in Hw as [Hb _].
    destruct (Ascii.eqb_spec a b) as [->|]; [congruence|done].
Qed.

Lemma parse_outer_whitespace_witness :
  parse ";;" (";;test my" +:+ "  ") = parse ";;" ";;test my" ∧
  parse ";;" ("  " +:+ ";;test") = [].
Proof.
  split.
  - apply (proj1 (parse_outer_whitespace ";;")).
    + reflexivity.
    + left. reflexivity.
  - apply (proj2 (parse_outer_whitespace ";;")).
    + reflexivity.
    + reflexivity.
    + discriminate.
Defined.

(** C5 at the failing input: on the tree a → aa → aaa, where no command
    [toString] is registered, [weakDive] consumes [toString] and returns, as
    the command, the function that every object inherits under this name;
    and below [a], for the components [a], [constructor], [x], it returns
    nothing: it throws the [TypeError] of the read of [x]. *)
Lemma weakDive_on_inherited_names :
  commands diving_bot !! "toString" = None ∧
  weakDive diving_bot ["toString"] =
    Ret (mkCommandsThrough ["toString"] (Some (Native "toString"))) ∧
  cmd_sub node_a !! "constructor" = None ∧
  weakDive diving_bot ["a"; "constructor"; "x"] = Throw (TypeErrorUndefined "x").
Proof. split_and!; by vm_compute. Qed.

(** C6, as stated, fails: on a bot with a command named [help], the message
    [;;help] runs that command and no help is replied; and with the prefix
    ["! "], which has whitespace in it, the message [! help] is answered as
    an invalid command. *)
Lemma help_command_shadows_global_help :
  receive quiet (mkMessage false ";;help") world_with_help =
    (add_log
       [EvAction 5
          {| req_message := mkMessage false ";;help";
             req_components := ["help"]; req_commands := ["help"];
             req_args := []; req_rest := "";
             req_command := Some (Node (mkCommand 5 ∅ None)) |}]
       world_with_help,
     Ret ReceivedVoid) ∧
  receive quiet (mkMessage false ("! " +:+ "help")) world_spaced_prefix =
    (add_log
       [EvReply (mkMessage false "! help") (Text default_invalidCommandError)]
       world_spaced_prefix,
     Ret ReceivedVoid).
Proof. split; by vm_compute. Qed.

(** C6 (amended): for every command tree with no top-level command named
    [help], and a prefix without whitespace and without syntax characters of
    regular expressions, the message [<prefix>help] from a non-automated
    sender gets exactly one reply, the global help: an embed whose field
    [Commands] lists, one per line, the names of the top-level commands and
    the literal [help], each once, sorted by code units. *)
Theorem help_message_lists_top_level_commands (cb : Callbacks) (w : World) :
  let b := bot w in
  let m := mkMessage false (prefix b +:+ "help") in
  Js.spaceless (prefix b) = true →
  regex_plain (prefix b) = true →
  commands b !! "help" = None →
  ∃ names,
    receive cb m w =
      (add_log
         [EvReply m
            (Embed "Help"
               [ ("Commands", Js.join newline (map bullet names));
                 ("Help with commands",
                  "You can get help with commands and sub-commands by running `"
                    +:+ prefix b +:+ "command --help`") ])] w,
       Ret ReceivedVoid) ∧
    Sorted String.le names ∧
    NoDup names ∧
    (∀ k, k ∈ names ↔ k = "help" ∨ is_Some (commands b !! k)).
Proof.
  intros b m Hs Hp Hh. exists (help_names b).
  destruct (help_names_spec b) as (Hsorted & _ & Hmem).
  split_and!; [|done|by apply help_names_NoDup|done].
  destruct (rest_of_no_command cb (prefix b) (prefix b +:+ "help") Hp) as [rest Hrest].
  assert (weakDive b ["help"] = Ret (mkCommandsThrough [] None)) as Hw.
  { unfold weakDive, get_property. simpl. unfold get_property. by rewrite Hh. }
  assert (request_of (prefix b) m (mkCommandsThrough [] None) rest =
            {| req_message := m; req_components := ["help"]; req_commands := [];
               req_args := ["help"]; req_rest := rest; req_command := None |}) as Hreq.
  { unfold request_of. simpl. by rewrite (parse_help_word _ Hs). }
  rewrite (receive_run cb m w (mkCommandsThrough [] None) rest); fold b.
  - by rewrite Hreq.
  - done.
  - simpl. by rewrite (parse_help_word _ Hs).
  - simpl. by rewrite (parse_help_word _ Hs).
  - done.
Qed.

Lemma help_message_lists_top_level_commands_witness :
  ∃ names,
    receive quiet (mkMessage false ";;help") (world0 diving_bot) =
      (add_log
         [EvReply (mkMessage false ";;help")
            (Embed "Help"
               [ ("Commands", Js.join newline (map bullet names));
                 ("Help with commands",
                  "You can get help with commands and sub-commands by running `;;command --help`") ])]
         (world0 diving_bot),
       Ret ReceivedVoid) ∧
    Sorted String.le names ∧
    NoDup names ∧
    (∀ k, k ∈ names ↔ k = "help" ∨ is_Some (commands diving_bot !! k)).
Proof.
  apply (help_message_lists_top_level_commands quiet (world0 diving_bot)).
  - vm_compute. reflexivity.
  - vm_compute. reflexivity.
  - vm_compute. reflexivity.
Defined.

(** C7 at the failing input: with the prefix [$], the message [$echo hi]
    runs the action of [echo] once with a request whose [rest] is the whole
    message, the prefix and the command still in it. *)
Lemma receive_rest_with_dollar_prefix :
  receive quiet (mkMessage false "$echo hi") dollar_world =
    (add_log
       [EvAction 1
          {| req_message := mkMessage false "$echo hi";
             req_components := ["echo"; "hi"]; req_commands := ["echo"];
             req_args := ["hi"]; req_rest := "$echo hi";
             req_command := Some (Node (mkCommand 1 ∅ None)) |}]
       dollar_world,
     Ret ReceivedVoid).
Proof. by vm_compute. Qed.

(** C8, as stated, fails: with listeners 1 and 2 registered and listener 1
    throwing, [setState] calls listener 1 and never listener 2. *)
Lemma setState_skips_listeners_after_a_throw :
  stateListeners (bot world_two_listeners) = [1; 2] ∧
  setState listener1_throws value1_a world_two_listeners =
    ({| bot := set_state (Some value1_a) (bot world_two_listeners);
        natives := ∅;
        log := [EvListener 1 None (Some value1_a)] |},
     Throw (MkError "listener")).
Proof. split; by vm_compute. Qed.

(** C8 (amended): every [setState(partial)] replaces the state by the
    shallow union of the previous state and the partial one (keys of the
    partial state win, the other keys stay), and then calls the registered
    listeners in the order of their registration, each at most once, with the
    state before the call and the merged state, also when the merge changes
    nothing: all of them when no listener throws, and otherwise those up to
    and including the first that throws.  Registering a listener that is
    registered already changes nothing, so it is called once per
    [setState]. *)
Theorem setState_merges_then_notifies (cb : Callbacks) (partial : gmap string JsValue)
    (w : World) :
  let previous := state (bot w) in
  let next := spread previous partial in
  let b' := set_state next (bot w) in
  let ls := stateListeners (bot w) in
  let called := notified cb b' previous next ls in
  bot (setState cb partial w).1 = b' ∧
  (∃ merged, next = Some merged ∧
     ∀ k, merged !! k = match partial !! k with
                        | Some v => Some v
                        | None => default ∅ previous !! k
                        end) ∧
  (∀ s, previous = Some s → partial ⊆ s → next = previous) ∧
  log (setState cb partial w).1 =
    log w ++ map (λ l, EvListener l previous next) called ∧
  called `prefix_of` ls ∧
  (NoDup ls → NoDup called) ∧
  (first_throw cb b' previous next ls = None →
     called = ls ∧ (setState cb partial w).2 = Ret tt) ∧
  (∀ action w0,
     (onStateUpdate action;; onStateUpdate action) w0 = onStateUpdate action w0 ∧
     (NoDup (stateListeners (bot w0)) →
      NoDup (stateListeners (bot (onStateUpdate action w0).1)))).
Proof.
  intros previous next b' ls called.
  pose proof (setState_unfold cb partial w) as Hs. cbv zeta in Hs.
  fold previous next b' ls called in Hs. rewrite Hs. simpl.
  pose proof (notified_prefix cb b' previous next ls) as Hpre. fold called in Hpre.
  split_and!.
  - done.
  - eexists. split; [done|]. intros k. rewrite lookup_union.
    destruct (partial !! k), (default ∅ previous !! k); done.
  - intros s Hprev Hsub. unfold next, spread. rewrite Hprev. simpl.
    f_equal. by apply map_subseteq_union.
  - done.
  - done.
  - intros Hnd. destruct Hpre as [k Hk]. rewrite Hk in Hnd.
    by apply NoDup_app in Hnd as (? & _).
  - intros Hnone. split; [by apply notified_all|by rewrite Hnone].
  - intros action w0. split; [apply onStateUpdate_twice|apply onStateUpdate_NoDup].
Qed.

Lemma setState_merges_then_notifies_witness :
  notified quiet (set_state (Some value1_a) (bot world_two_listeners)) None
    (Some value1_a) [1; 2] = [1; 2] ∧
  (setState quiet value1_a world_two_listeners).2 = Ret tt.
Proof.
  destruct (setState_merges_then_notifies quiet value1_a world_two_listeners)
    as (_ & _ & _ & _ & _ & _ & H & _).
  apply H. vm_compute. reflexivity.
Defined.

(** C9: when the action of the resolved command is called and throws (or
    rejects), or the help generator of the resolved command is called and
    throws, the error does not leave [receive]: the call resolves, after the
    error was printed with [console.error] and the message was answered with
    one reply, the configured [errorMessage]; by default this is not the
    message for an invalid command. *)
Theorem receive_contains_errors (cb : Callbacks) (w : World) (m : Message) :
  let b := bot w in
  (∀ a request e,
     EvAction a request ∈ new_events cb m w →
     run_action cb a b request = Some e →
     (∃ c, req_command request = Some (Node c) ∧ a = cmd_action c) ∧
     receive cb m w =
       (add_log [EvAction a request; EvConsoleError e;
                 EvReply m (Text (errorMessage b))] w,
        Ret ReceivedVoid)) ∧
  (∀ f e,
     EvHelp f ∈ new_events cb m w →
     run_help cb f b = inl e →
     receive cb m w =
       (add_log [EvHelp f; EvConsoleError e; EvReply m (Text (errorMessage b))] w,
        Ret ReceivedVoid)) ∧
  errorMessage (newBot (mkOptions (prefix b) None None)) ≠
    invalidCommandError (newBot (mkOptions (prefix b) None None)).
Proof.
  intros b. split_and!; [| |done].
  - intros a request e Hin He.
    destruct (receive_cases cb m w) as [H|[[e' H]|(cmd & rest & _ & _ & _ & _ & H)]].
    + rewrite (new_events_none _ _ _ _ H) in Hin. by apply elem_of_nil in Hin.
    + rewrite (new_events_none _ _ _ _ H) in Hin. by apply elem_of_nil in Hin.
    + rewrite (new_events_add _ _ _ _ _ H) in Hin. fold b in Hin, H.
      destruct (action_in_dispatch_events _ _ _ _ _ Hin) as (Hb & -> & c & Hc & ->).
      split; [by exists c|]. rewrite H.
      unfold dispatch_events, action_events. fold b. by rewrite Hb, Hc, He.
  - intros f e Hin He.
    destruct (receive_cases cb m w) as [H|[[e' H]|(cmd & rest & _ & _ & _ & _ & H)]].
    + rewrite (new_events_none _ _ _ _ H) in Hin. by apply elem_of_nil in Hin.
    + rewrite (new_events_none _ _ _ _ H) in Hin. by apply elem_of_nil in Hin.
    + rewrite (new_events_add _ _ _ _ _ H) in Hin. fold b in Hin, H.
      destruct (help_in_dispatch_events _ _ _ _ Hin) as (Hb & v & Hc & Hf).
      rewrite H. unfold dispatch_events, help_events. fold b. by rewrite Hb, Hc, Hf, He.
Qed.

Lemma receive_contains_errors_witness :
  receive test_callbacks (mkMessage false ";;error") suite_world =
    (add_log
       [EvAction 3
          (request_of ";;" (mkMessage false ";;error")
             (mkCommandsThrough ["error"] (Some (Node (mkCommand 3 ∅ None)))) "");
        EvConsoleError (MkError "Uh-oh");
        EvReply (mkMessage false ";;error") (Text default_errorMessage)] suite_world,
     Ret ReceivedVoid) ∧
  receive help_throws (mkMessage false ";;about --help") suite_world =
    (add_log
       [EvHelp 8; EvConsoleError (MkError "No help");
        EvReply (mkMessage false ";;about --help") (Text default_errorMessage)] suite_world,
     Ret ReceivedVoid).
Proof.
  split.
  - apply (proj1 (receive_contains_errors test_callbacks suite_world
                    (mkMessage false ";;error"))
             3 (request_of ";;" (mkMessage false ";;error")
                  (mkCommandsThrough ["error"] (Some (Node (mkCommand 3 ∅ None)))) "")
             (MkError "Uh-oh")).
    + vm_compute. apply list_elem_of_here.
    + vm_compute. reflexivity.
  - apply (proj1 (proj2 (receive_contains_errors help_throws suite_world
                    (mkMessage false ";;about --help")))
             8 (MkError "No help")).
    + vm_compute. apply list_elem_of_here.
    + vm_compute. reflexivity.
Defined.

(** C10: [setState] assigns the merged state before it calls a listener: a
    listener is called on a bot that holds the merged state already, and when
    a registered listener throws, [setState] throws (the error of the first
    listener that throws) and the bot keeps the merged state. *)
Theorem setState_not_rolled_back (cb : Callbacks) (partial : gmap string JsValue)
    (w : World) (l : ListenerId) (e : Error) :
  let previous := state (bot w) in
  let next := spread previous partial in
  let b' := set_state next (bot w) in
  l ∈ stateListeners (bot w) →
  run_listener cb l b' previous next = Some e →
  state b' = next ∧
  ∃ e', first_throw cb b' previous next (stateListeners (bot w)) = Some e' ∧
        (setState cb partial w).2 = Throw e' ∧
        state (bot (setState cb partial w).1) = next ∧
        (stateListeners (bot w) = [l] → e' = e).
Proof.
  intros previous next b' Hin He. split; [done|].
  destruct (first_throw_Some cb b' previous next _ l e Hin He) as [e' He'].
  exists e'. pose proof (setState_unfold cb partial w) as Hs. cbv zeta in Hs.
  fold previous next b' in Hs. rewrite Hs, He'. simpl. split_and!; try done.
  intros Hl. rewrite Hl in He'. simpl in He'. rewrite He in He'. congruence.
Qed.

Lemma setState_not_rolled_back_witness :
  ∃ e', first_throw listener1_throws
          (set_state (Some value1_a) (bot world_two_listeners)) None (Some value1_a)
          [1; 2] = Some e' ∧
        (setState listener1_throws value1_a world_two_listeners).2 = Throw e' ∧
        state (bot (setState listener1_throws value1_a world_two_listeners).1) =
          Some value1_a ∧
        (stateListeners (bot world_two_listeners) = [1] → e' = MkError "listener").
Proof.
  apply (proj2 (setState_not_rolled_back listener1_throws value1_a
                  world_two_listeners 1 (MkError "listener")
                  ltac:(vm_compute; apply list_elem_of_here)
                  ltac:(vm_compute; reflexivity))).
Defined.

(* ===================================================================== *)
(** * Further properties of the code *)
(* ===================================================================== *)

(** ** The command tree *)

Section TreeFacts.

Implicit Types root : gmap string Command.

(** Below a node, the walk does not look at the root. *)
Lemma node_at_from root root' c path :
  node_at root (Some c) path = node_at root' (Some c) path.
Proof.
  revert c. induction path as [|s path IH]; intros c; [done|].
  simpl. destruct (cmd_sub c !! s); [apply IH|done].
Qed.

Lemma node_at_sub root c path :
  path ≠ [] →
  node_at root (Some c) path = node_at (cmd_sub c) None path.
Proof.
  destruct path as [|s path]; [done|]. intros _. simpl.
  destruct (cmd_sub c !! s); [apply node_at_from|done].
Qed.


(** The walk of the tree after [node.sub[name] = newCmd], along the path of
    the new node and below it. *)
Lemma walk_set_sub_at_new root parent name newCmd q :
  parent = [] ∨ is_Some (node_at root None parent) →
  node_at (set_sub_at root parent name newCmd) None (parent ++ name :: q) =
    node_at ∅ (Some newCmd) q.
Proof.
  revert root. induction parent as [|s parent IH]; intros root H.
  { simpl. rewrite (lookup_insert_eq (M:=gmap string)). apply node_at_from. }
  destruct H as [|H]; [done|]. simpl in H |- *.
  destruct (root !! s) as [c0|] eqn:E; [|by destruct H].
  rewrite (lookup_insert_eq (M:=gmap string)).
  rewrite node_at_sub by (by destruct parent). simpl.
  apply IH. destruct parent as [|s' parent]; [by left|right].
  by rewrite <- (node_at_sub root).
Qed.

Lemma free_slot_below root s c0 parent name :
  root !! s = Some c0 →
  free_slot root (s :: parent) name → free_slot (cmd_sub c0) parent name.
Proof.
  intros E [[|H] Hc]; [done|]. simpl in H, Hc. rewrite E in H, Hc.
  destruct parent as [|s' parent].
  { split; [by left|]. done. }
  rewrite (node_at_sub root) in H, Hc by done.
  split; [by right|].
  destruct (node_at (cmd_sub c0) None (s' :: parent)); [done|by destruct H].
Qed.

(** What was registered stays registered, with its action and its help. *)
Lemma walk_set_sub_at_keeps root parent name newCmd q d :
  free_slot root parent name →
  node_at root None q = Some d →
  ∃ d', node_at (set_sub_at root parent name newCmd) None q = Some d' ∧
        cmd_action d' = cmd_action d ∧ cmd_help d' = cmd_help d ∧
        (¬ q `prefix_of` parent → d' = d).
Proof.
  revert root q. induction parent as [|s0 parent IH]; intros root q Hfree Hq.
  { destruct Hfree as [_ Hn]. simpl in Hn.
    destruct q as [|s q]; [done|]. simpl in Hq |- *.
    destruct (root !! s) as [c|] eqn:E; [|done].
    rewrite (lookup_insert_ne (M:=gmap string)) by congruence.
    rewrite E, (node_at_from _ root). exists d. by split_and!. }
  pose proof Hfree as [[|Hp] _]; [done|]. simpl in Hp.
  destruct (root !! s0) as [c0|] eqn:E0; [|by destruct Hp].
  destruct q as [|s q]; [done|]. simpl in Hq |- *. rewrite E0.
  destruct (decide (s = s0)) as [->|Hne].
  2:{ rewrite (lookup_insert_ne (M:=gmap string)) by congruence.
      destruct (root !! s) as [c|]; [|done].
      rewrite (node_at_from _ root). exists d. by split_and!. }
  rewrite E0 in Hq. rewrite (lookup_insert_eq (M:=gmap string)).
  destruct q as [|s' q].
  { simpl in Hq |- *. injection Hq as <-. eexists. split_and!; [done..|].
    intros Hnp. exfalso. apply Hnp. by apply prefix_cons, prefix_nil. }
  rewrite node_at_sub in Hq |- * by done. simpl cmd_sub.
  destruct (IH (cmd_sub c0) (s' :: q) (free_slot_below _ _ _ _ _ E0 Hfree) Hq)
    as (d' & Hd' & Ha & Hh & Heq).
  exists d'. split_and!; [done..|].
  intros Hnp. apply Heq. intros Hpre. apply Hnp. by apply prefix_cons.
Qed.

(** Nothing else becomes registered. *)
Lemma walk_set_sub_at_only_adds root parent name newCmd q :
  free_slot root parent name →
  is_Some (node_at (set_sub_at root parent name newCmd) None q) →
  (parent ++ [name]) `prefix_of` q ∨ is_Some (node_at root None q).
Proof.
  revert root q. induction parent as [|s0 parent IH]; intros root q Hfree Hq.
  { destruct q as [|s q]; [by destruct Hq|]. simpl in Hq |- *.
    destruct (decide (s = name)) as [->|Hne].
    - left. by apply prefix_cons, prefix_nil.
    - right. rewrite (lookup_insert_ne (M:=gmap string)) in Hq by congruence.
      destruct (root !! s); [|by destruct Hq].
      by rewrite (node_at_from _ (<[name:=newCmd]> root)). }
  pose proof Hfree as [[|Hp] _]; [done|]. simpl in Hp.
  destruct (root !! s0) as [c0|] eqn:E0; [|by destruct Hp].
  destruct q as [|s q]; [by destruct Hq|]. simpl in Hq |- *. rewrite E0 in Hq.
  destruct (decide (s = s0)) as [->|Hne].
  2:{ right. rewrite (lookup_insert_ne (M:=gmap string)) in Hq by congruence.
      destruct (root !! s); [|by destruct Hq].
      by rewrite (node_at_from _ (<[s0:=mkCommand (cmd_action c0)
                    (set_sub_at (cmd_sub c0) parent name newCmd) (cmd_help c0)]> root)). }
  rewrite E0. rewrite (lookup_insert_eq (M:=gmap string)) in Hq.
  destruct q as [|s' q]; [right; by eexists|].
  rewrite node_at_sub in Hq |- * by done. simpl cmd_sub in Hq.
  destruct (IH (cmd_sub c0) (s' :: q) (free_slot_below _ _ _ _ _ E0 Hfree) Hq)
    as [Hpre|Hs]; [left|by right].
  by apply prefix_cons.
Qed.

End TreeFacts.

(** ** The walks and the commands of the tree *)

Section WalkCases.

Implicit Types root : gmap string Command.

(** Below a value, the walk does not look at the root. *)
Lemma strictDive_loop_from root root' v path :
  strictDive_loop root (Some v) path = strictDive_loop root' (Some v) path.
Proof.
  revert v. induction path as [|s path IH]; intros v; [done|].
  simpl. destruct v as [c|n]; simpl; [|done].
  destruct (get_property (cmd_sub c) s); [apply IH|done].
Qed.

Lemma strictDive_loop_sub root c path :
  path ≠ [] →
  strictDive_loop root (Some (Node c)) path = strictDive_loop (cmd_sub c) None path.
Proof.
  destruct path as [|s path]; [done|]. intros _. simpl.
  destruct (get_property (cmd_sub c) s); [apply strictDive_loop_from|done].
Qed.

(** A path leads to a node of the tree, or there is a first segment that
    the node reached does not hold. *)
Lemma node_at_split root current path :
  (∃ parent s rest,
     path = parent ++ s :: rest ∧
     (parent = [] ∨ is_Some (node_at root current parent)) ∧
     own_child root (node_at root current parent) s = None) ∨
  node_at root current path = current ∧ path = [] ∨
  is_Some (node_at root current path) ∧ path ≠ [].
Proof.
  revert current. induction path as [|s path IH]; intros current; [by auto|].
  simpl. destruct (own_child root current s) as [c|] eqn:E.
  2:{ left. exists [], s, path. by auto. }
  destruct (IH (Some c)) as [(parent & s' & rest & -> & Hp & Hn)|[[Hc ->]|[Hc Hne]]].
  - left. exists (s :: parent), s', rest. simpl. rewrite E.
    split_and!; [done| |done]. right. destruct Hp as [->|]; [by eexists|done].
  - right. right. simpl. by eauto.
  - right. right. by eauto.
Qed.

(** The strict loop at the first segment that the tree does not hold. *)
Lemma strictDive_loop_stops root (current : option Command) parent s rest :
  parent = [] ∨ is_Some (node_at root current parent) →
  own_child root (node_at root current parent) s = None →
  strictDive_loop root (Node <$> current) (parent ++ s :: rest) =
    if inherited s then
      match rest with
      | [] => Ret (Some (Native s))
      | t :: _ => Throw (TypeErrorUndefined t)
      end
    else Ret None.
Proof.
  intros Hp Hs.
  assert (strictDive_loop root (Node <$> current) (parent ++ s :: rest) =
            strictDive_loop root (Node <$> node_at root current parent) (s :: rest)) as ->.
  { destruct Hp as [->|[c Hc]]; [done|]. rewrite Hc.
    apply strictDive_loop_app. by apply strictDive_loop_Node. }
  simpl. destruct (node_at root current parent) as [c|]; simpl in *;
    unfold get_property; rewrite Hs; destruct (inherited s); try done;
    apply strictDive_loop_native.
Qed.

(** The permissive loop there. *)
Lemma weakDive_loop_stops root (current : option Command) through parent s rest :
  parent = [] ∨ is_Some (node_at root current parent) →
  own_child root (node_at root current parent) s = None →
  weakDive_loop root (Node <$> current) through (parent ++ s :: rest) =
    if inherited s then
      match rest with
      | [] => Ret (mkCommandsThrough (through ++ parent ++ [s]) (Some (Native s)))
      | t :: _ => Throw (TypeErrorUndefined t)
      end
    else Ret (mkCommandsThrough (through ++ parent) (Node <$> node_at root current parent)).
Proof.
  revert current through. induction parent as [|s0 parent IH]; intros current through Hp Hs.
  { simpl in *. rewrite app_nil_r.
    assert (child_of root (Node <$> current) s =
              Ret (if inherited s then Some (Native s) else None)) as ->.
    { destruct current as [c|]; simpl in *; unfold get_property; by rewrite Hs. }
    destruct (inherited s); [|done]. apply weakDive_loop_native. }
  destruct Hp as [|Hp]; [done|]. simpl in Hp, Hs |- *.
  destruct (own_child root current s0) as [c0|] eqn:E0; [|by destruct Hp].
  assert (child_of root (Node <$> current) s0 = Ret (Some (Node c0))) as ->.
  { destruct current as [c|]; simpl in *; unfold get_property; by rewrite E0. }
  assert (parent = [] ∨ is_Some (node_at root (Some c0) parent)) as Hp'
    by (destruct parent; [by left|by right]).
  pose proof (IH (Some c0) (through ++ [s0]) Hp' Hs) as H. simpl in H.
  by rewrite H, <- !app_assoc.
Qed.

(** The permissive loop on a path that leads to a node. *)
Lemma weakDive_loop_resolved root (current : option Command) through path c :
  node_at root current path = Some c →
  weakDive_loop root (Node <$> current) through path =
    Ret (mkCommandsThrough (through ++ path) (Some (Node c))).
Proof.
  revert current through. induction path as [|s path IH]; intros current through H.
  { simpl in *. subst. by rewrite app_nil_r. }
  simpl in H |- *. destruct (own_child root current s) as [c0|] eqn:E0; [|done].
  assert (child_of root (Node <$> current) s = Ret (Some (Node c0))) as ->.
  { destruct current as [c'|]; simpl in *; unfold get_property; by rewrite E0. }
  pose proof (IH (Some c0) (through ++ [s]) H) as H'. simpl in H'.
  by rewrite H', <- app_assoc.
Qed.

End WalkCases.

(** The walks of a bot at the first segment that the tree does not hold. *)
Lemma walk_stops b parent s rest :
  free_slot (commands b) parent s →
  if inherited s then
    match rest with
    | [] => strictDive b (parent ++ [s]) = Ret (Native s) ∧
            weakDive b (parent ++ [s]) =
              Ret (mkCommandsThrough (parent ++ [s]) (Some (Native s)))
    | t :: _ => strictDive b (parent ++ s :: rest) = Throw (TypeErrorUndefined t) ∧
                weakDive b (parent ++ s :: rest) = Throw (TypeErrorUndefined t)
    end
  else strictDive b (parent ++ s :: rest) = Throw unable_to_follow ∧
       weakDive b (parent ++ s :: rest) =
         Ret (mkCommandsThrough parent (Node <$> node_at (commands b) None parent)).
Proof.
  intros [Hp Hn].
  pose proof (strictDive_loop_stops (commands b) None parent s rest Hp Hn) as Hs.
  pose proof (weakDive_loop_stops (commands b) None [] parent s rest Hp Hn) as Hw.
  simpl in Hs, Hw. unfold strictDive, weakDive.
  destruct (inherited s); [|by rewrite Hs, Hw]. destruct rest; by rewrite Hs, Hw.
Qed.

(** The walks of a bot, by what the tree holds along the path. *)
Lemma walk_cases b path :
  path = [] ∨
  (∃ c, node_at (commands b) None path = Some c ∧
        strictDive b path = Ret (Node c) ∧
        weakDive b path = Ret (mkCommandsThrough path (Some (Node c)))) ∨
  (∃ parent s rest,
     path = parent ++ s :: rest ∧
     free_slot (commands b) parent s ∧
     node_at (commands b) None path = None ∧
     if inherited s then
       match rest with
       | [] => strictDive b path = Ret (Native s) ∧
               weakDive b path = Ret (mkCommandsThrough path (Some (Native s)))
       | t :: _ => strictDive b path = Throw (TypeErrorUndefined t) ∧
                   weakDive b path = Throw (TypeErrorUndefined t)
       end
     else strictDive b path = Throw unable_to_follow ∧
          weakDive b path =
            Ret (mkCommandsThrough parent (Node <$> node_at (commands b) None parent))).
Proof.
  destruct (node_at_split (commands b) None path)
    as [(parent & s & rest & -> & Hp & Hn)|[[_ ->]|[[c Hc] Hne]]]; [|by left|].
  - right. right. exists parent, s, rest.
    pose proof (walk_stops b parent s rest (conj Hp Hn)) as H.
    split_and!; [done|done| |].
    { destruct (node_at (commands b) None (parent ++ s :: rest)) as [c|] eqn:E; [|done].
      apply strictDive_Node in E. destruct (inherited s); [destruct rest|];
        destruct H as [Hs _]; congruence. }
    by destruct (inherited s), rest.
  - right. left. exists c. split_and!; [done|by apply strictDive_Node|].
    apply (weakDive_loop_resolved (commands b) None [] path c Hc).
Qed.

(** ** The two walks *)

(** An equivalence between equations of results, one side with a side
    condition. *)
Ltac by_cases :=
  intros ?; split; [intros ?|intros [? ?]]; simplify_eq; done.

(** X1: [strictDive] and [weakDive] agree: the strict walk returns a value
    exactly when the path is not empty and the permissive walk consumes all
    of it, reaching that value; it throws "Unable to follow commands" exactly
    when the path is empty or the permissive walk returns before its end; and
    the permissive walk throws exactly when the strict walk throws another
    error, the same one.  In particular the empty path always throws. *)
Theorem strictDive_iff_weakDive_consumes_all (b : Bot) (path : list string) :
  (∀ v, strictDive b path = Ret v ↔
        path ≠ [] ∧ weakDive b path = Ret (mkCommandsThrough path (Some v))) ∧
  (strictDive b path = Throw unable_to_follow ↔
        path = [] ∨
        ∃ cmd, weakDive b path = Ret cmd ∧ length (through cmd) < length path) ∧
  (∀ e, weakDive b path = Throw e ↔
        strictDive b path = Throw e ∧ e ≠ unable_to_follow) ∧
  strictDive b [] = Throw unable_to_follow.
Proof.
  assert (strictDive b [] = Throw unable_to_follow) as Hnil by done.
  destruct (walk_cases b path)
    as [->|[(c & Hc & Hs & Hw)|(parent & s & rest & Hpath & _ & _ & H)]].
  - assert (weakDive b [] = Ret (mkCommandsThrough [] None)) as Hw by done.
    rewrite Hnil, Hw. split_and!; [by_cases|split; by auto|by_cases|done].
  - assert (path ≠ []) as Hne by (intros ->; done).
    rewrite Hs, Hw. split_and!; [by_cases| |by_cases|done].
    split; [done|]. intros [->|(cmd & [= <-] & Hlen)]; [done|]. simpl in Hlen. lia.
  - assert (path ≠ []) as Hne by (rewrite Hpath; by destruct parent).
    assert (length parent < length path) as Hlen.
    { rewrite Hpath, length_app. simpl. lia. }
    destruct (inherited s); [destruct rest as [|t rest]|];
      destruct H as [Hs Hw]; rewrite Hs, Hw; (split_and!; [| | |done]).
    + by_cases.
    + split; [done|]. intros [?|(cmd & [= <-] & Hl)]; [done|]. simpl in Hl. lia.
    + by_cases.
    + by_cases.
    + split; [done|]. intros [?|(cmd & ? & _)]; done.
    + by_cases.
    + intros v. split; [done|]. intros [_ [= Heq _]]. rewrite <- Heq in Hlen. lia.
    + split; [|done]. intros _. right. eexists. split; [done|]. done.
    + by_cases.
Qed.

(** What [strictDive] throws that is not "Unable to follow commands",
    [weakDive] throws as well. *)
Lemma strictDive_Throw_cases b path e :
  strictDive b path = Throw e →
  e = unable_to_follow ∨ weakDive b path = Throw e.
Proof.
  destruct (walk_cases b path)
    as [->|[(c & _ & Hs & _)|(parent & s & rest & _ & _ & _ & H)]].
  - intros [= <-]. by left.
  - by rewrite Hs.
  - destruct (inherited s); [destruct rest|]; destruct H as [-> Hw]; intros; simplify_eq;
      by auto.
Qed.

(** What [weakDive] throws is the [TypeError] of a read, and [strictDive]
    throws it as well. *)
Lemma weakDive_Throw b path e :
  weakDive b path = Throw e →
  strictDive b path = Throw e ∧ ∃ t, e = TypeErrorUndefined t.
Proof.
  destruct (walk_cases b path)
    as [->|[(c & _ & _ & Hw)|(parent & s & rest & _ & _ & _ & H)]].
  - done.
  - by rewrite Hw.
  - destruct (inherited s); [destruct rest|]; destruct H as [Hs ->]; intros; simplify_eq.
    split; [done|by eexists].
Qed.

(** A throw of a walk on a path is the throw on every longer path. *)
Lemma strictDive_Throw_app b p1 p2 t :
  strictDive b p1 = Throw (TypeErrorUndefined t) →
  strictDive b (p1 ++ p2) = Throw (TypeErrorUndefined t).
Proof.
  unfold strictDive. generalize (@None Value).
  induction p1 as [|s p1 IH]; intros current; [by destruct current|].
  simpl. destruct (child_of (commands b) current s) as [[v|]|e|]; try done. apply IH.
Qed.

(** ** Registration *)

Lemma split_space_nonempty s : Js.split_space s ≠ [].
Proof.
  destruct s as [|c s]; [done|]. simpl.
  destruct (Ascii.eqb c " "); [done|]. by destruct (Js.split_space s).
Qed.

Lemma register_path_last arguments_ parent name :
  register_path arguments_ = parent ++ [name] →
  length (register_path arguments_) - 1 = length parent ∧
  default "undefined" (register_path arguments_ !! (length (register_path arguments_) - 1))
    = name.
Proof.
  intros ->. rewrite length_app. simpl.
  replace (length parent + 1 - 1) with (length parent) by lia.
  split; [done|]. by rewrite list_lookup_middle.
Qed.

(** A free slot, by the walks: the path of the new node does not resolve,
    and its parent path is empty or resolves to a command of the tree. *)
Lemma free_slot_iff_walks b parent name :
  free_slot (commands b) parent name ∧ inherited name = false ↔
    strictDive b (parent ++ [name]) = Throw unable_to_follow ∧
    (parent = [] ∨ ∃ c, strictDive b parent = Ret (Node c)).
Proof.
  split.
  - intros [[Hp Hn] Hi]. split.
    + apply strictDive_Throw.
      pose proof (strictDive_loop_stops (commands b) None parent name [] Hp Hn) as H.
      by rewrite Hi in H.
    + destruct Hp as [|[c Hc]]; [by left|right]. exists c. by apply strictDive_Node.
  - intros [Hs%strictDive_Throw_inv Hp].
    assert (parent = [] ∨ is_Some (node_at (commands b) None parent)) as Hp'.
    { destruct Hp as [|[c Hc%strictDive_Node]]; [by left|right; by eexists]. }
    assert (get_property
              (match node_at (commands b) None parent with
               | Some c => cmd_sub c | None => commands b end) name = None) as Hg.
    { destruct Hp' as [->|[c Hc]].
      - simpl in *. by destruct (get_property (commands b) name).
      - rewrite Hc.
        rewrite (strictDive_loop_app _ _ _ _ (Node c)) in Hs
          by (by apply (strictDive_loop_Node (commands b) None)).
        simpl in Hs. by destruct (get_property (cmd_sub c) name). }
    apply get_property_None in Hg as [Hg Hi]. split; [|done]. split; [done|].
    unfold own_child. by destruct (node_at (commands b) None parent).
Qed.

(** [register] on a free slot. *)
Lemma register_free arguments_ w parent name :
  register_path arguments_ = parent ++ [name] →
  free_slot (commands (bot w)) parent name → inherited name = false →
  register arguments_ w =
    (mkWorld
       (set_commands (λ root, set_sub_at root parent name (register_node arguments_)) (bot w))
       (natives w) (log w),
     Ret tt).
Proof.
  intros Hpath [Hp Hn] Hi. rewrite register_unfold. cbv zeta.
  destruct (register_path_last _ _ _ Hpath) as [Hlen Hname].
  rewrite Hname, Hlen, Hpath. unfold weakDive.
  pose proof (weakDive_loop_stops (commands (bot w)) None [] parent name [] Hp Hn) as Hw.
  rewrite Hi in Hw. simpl in Hw. rewrite Hw. simpl.
  destruct Hp as [->|[c Hc]]; [done|].
  rewrite Hc. simpl. by rewrite Nat.eqb_refl.
Qed.

(** The ends of [register]. *)
Lemma register_cases arguments_ w parent name :
  register_path arguments_ = parent ++ [name] →
  let free :=
    strictDive (bot w) (parent ++ [name]) = Throw unable_to_follow ∧
    (parent = [] ∨ ∃ c, strictDive (bot w) parent = Ret (Node c)) in
  (free ∧ free_slot (commands (bot w)) parent name ∧
   register arguments_ w =
     (mkWorld
        (set_commands (λ root, set_sub_at root parent name (register_node arguments_)) (bot w))
        (natives w) (log w),
      Ret tt)) ∨
  (¬ free ∧
   register arguments_ w =
     (w, Throw match weakDive (bot w) (parent ++ [name]) with
               | Throw e => e
               | _ => unable_to_follow
               end)).
Proof.
  intros Hpath free.
  assert (free → free ∧ free_slot (commands (bot w)) parent name ∧
          register arguments_ w =
            (mkWorld
               (set_commands (λ root,
                  set_sub_at root parent name (register_node arguments_)) (bot w))
               (natives w) (log w),
             Ret tt)) as Hfree.
  { intros Hf. pose proof Hf as [Hs Hi]%free_slot_iff_walks.
    split_and!; [done|done|]. by apply register_free. }
  destruct (strictDive (bot w) (parent ++ [name])) as [v|e|] eqn:Hs.
  - right. split; [by intros [? _]|].
    pose proof Hs as Hw%strictDive_Ret%weakDive_of_resolved. rewrite Hw.
    apply (register_registered _ _ v). by rewrite Hpath.
  - destruct (strictDive_Throw_cases _ _ _ Hs) as [->|Hw].
    2:{ right. destruct (weakDive_Throw _ _ _ Hw) as [_ [t ->]].
        split; [by intros [? _]|]. rewrite Hw.
        rewrite register_unfold. cbv zeta. by rewrite Hpath, Hw. }
    destruct parent as [|s parent].
    { left. apply Hfree. split; [done|by left]. }
    destruct (strictDive (bot w) (s :: parent)) as [[c|n]|e|] eqn:Hp.
    + left. apply Hfree. split; [done|]. right. by exists c.
    + exfalso. apply strictDive_Ret in Hp. apply strictDive_Throw_inv in Hs.
      rewrite (strictDive_loop_app _ _ _ _ _ Hp) in Hs. done.
    + right. split; [by intros [_ [|[c ?]]]|].
      assert (e = unable_to_follow) as ->.
      { destruct (strictDive_Throw_cases _ _ _ Hp) as [->|Hw]; [done|]. exfalso.
        destruct (weakDive_Throw _ _ _ Hw) as [_ [t ->]].
        by rewrite (strictDive_Throw_app _ _ [name] _ Hp) in Hs. }
      destruct (weakDive_shorter_than_unresolved (bot w) ((s :: parent) ++ [name])
                  (s :: parent) [name]) as (cmd & Hw & _);
        [done|done|by apply strictDive_Throw_inv|].
      rewrite Hw.
      by apply (register_missing_ancestor _ _ (s :: parent) [name]).
    + by apply strictDive_modelled in Hp.
  - by apply strictDive_modelled in Hs.
Qed.

Lemma register_path_snoc arguments_ :
  ∃ parent name, register_path arguments_ = parent ++ [name].
Proof.
  destruct (register_path arguments_) as [|s l] eqn:E using rev_ind; [|by eauto].
  unfold register_path in E. by apply split_space_nonempty in E.
Qed.

(** X2: [register] returns exactly when the slot of the new node is free: the
    path does not resolve (the strict walk throws "Unable to follow
    commands" on it), and it has one segment or its parent path resolves to
    a command of the tree.  Otherwise it throws and changes nothing: "Unable
    to follow commands", or the [TypeError] that [weakDive] throws when the
    path goes on after a name that every object inherits.  When it returns,
    only the command tree has changed; the path resolves to the new node,
    and the paths below it resolve as in the children that a plugin supplied
    (none for the other forms). *)
Theorem register_returns_iff_slot_free (arguments_ : RegisterArgs) (w : World)
    (parent : list string) (name : string) :
  register_path arguments_ = parent ++ [name] →
  let free :=
    strictDive (bot w) (parent ++ [name]) = Throw unable_to_follow ∧
    (parent = [] ∨ ∃ c, strictDive (bot w) parent = Ret (Node c)) in
  let w' := (register arguments_ w).1 in
  ((register arguments_ w).2 = Ret tt ↔ free) ∧
  ((register arguments_ w).2 = Ret tt ∨
   ∃ e, register arguments_ w = (w, Throw e) ∧
        (e = unable_to_follow ∨ weakDive (bot w) (parent ++ [name]) = Throw e)) ∧
  (free →
     log w' = log w ∧
     natives w' = natives w ∧
     bot w' = set_commands (λ _, commands (bot w')) (bot w) ∧
     strictDive (bot w') (parent ++ [name]) = Ret (Node (register_node arguments_)) ∧
     ∀ q, q ≠ [] →
          strictDive (bot w') (parent ++ name :: q) =
            strictDive (set_commands (λ _, cmd_sub (register_node arguments_)) (bot w)) q).
Proof.
  intros Hpath free w'. unfold w'.
  destruct (register_cases arguments_ w parent name Hpath)
    as [(Hfree & Hslot & ->)|(Hfree & ->)]; fold free in Hfree; simpl.
  - split_and!; [done|by left|]. intros _.
    assert (strictDive_loop
              (set_sub_at (commands (bot w)) parent name (register_node arguments_)) None
              (parent ++ [name]) = Ret (Some (Node (register_node arguments_)))) as Hnew.
    { apply (strictDive_loop_Node _ None).
      by rewrite walk_set_sub_at_new by apply Hslot. }
    split_and!; [done|done|done| |].
    + by apply strictDive_Ret.
    + intros q Hq. unfold strictDive. simpl.
      change (parent ++ name :: q) with (parent ++ [name] ++ q).
      rewrite app_assoc, (strictDive_loop_app _ _ _ _ _ Hnew).
      by rewrite strictDive_loop_sub.
  - split_and!; [done| |done]. right. eexists. split; [done|].
    destruct (weakDive (bot w) (parent ++ [name])); by auto.
Qed.

Lemma register_returns_iff_slot_free_witness :
  (register (ByPath "a aa x" 7 None) (world0 diving_bot)).2 = Ret tt ∧
  strictDive (bot (register (ByPath "a aa x" 7 None) (world0 diving_bot)).1)
    ["a"; "aa"; "x"] = Ret (Node (mkCommand 7 ∅ None)).
Proof.
  destruct (register_returns_iff_slot_free (ByPath "a aa x" 7 None) (world0 diving_bot)
              ["a"; "aa"] "x" eq_refl) as (Hiff & _ & Hnew).
  assert (strictDive (bot (world0 diving_bot)) (["a"; "aa"] ++ ["x"]) = Throw unable_to_follow ∧
          (["a"; "aa"] = [] ∨
           ∃ c, strictDive (bot (world0 diving_bot)) ["a"; "aa"] = Ret (Node c)))
    as Hfree.
  { split; [vm_compute; reflexivity|]. right. eexists. vm_compute. reflexivity. }
  split.
  - apply Hiff. exact Hfree.
  - apply (Hnew Hfree).
Defined.

(** X3: [register] never removes a command and never changes the action or the
    help of one: a path that [strictDive] resolves to a command of the tree
    still does afterwards, whether [register] returns or throws, and the
    command has the same action and the same help. *)
Theorem register_keeps_registered_commands (arguments_ : RegisterArgs) (w : World)
    (q : list string) (d : Command) :
  strictDive (bot w) q = Ret (Node d) →
  ∃ d', strictDive (bot (register arguments_ w).1) q = Ret (Node d') ∧
        cmd_action d' = cmd_action d ∧ cmd_help d' = cmd_help d.
Proof.
  intros Hq. destruct (register_path_snoc arguments_) as (parent & name & Hpath).
  destruct (register_cases arguments_ w parent name Hpath)
    as [(_ & Hfree & ->)|(_ & ->)]; simpl.
  2:{ exists d. by split_and!. }
  apply strictDive_Node in Hq.
  destruct (walk_set_sub_at_keeps _ _ _ (register_node arguments_) _ _ Hfree Hq)
    as (d' & Hd' & Ha & Hh & _).
  exists d'. split_and!; [by apply strictDive_Node|done|done].
Qed.

Lemma register_keeps_registered_commands_witness :
  ∃ d', strictDive (bot (register (ByPath "a aa x" 7 None) (world0 diving_bot)).1)
          ["a"; "aa"] = Ret (Node d') ∧
        cmd_action d' = 2 ∧ cmd_help d' = None.
Proof.
  apply (register_keeps_registered_commands (ByPath "a aa x" 7 None) (world0 diving_bot)
           ["a"; "aa"] node_aa).
  vm_compute. reflexivity.
Defined.

(** X4: [register] adds one node and touches no other, in a tree whose command
    objects are not shared between two places: a path that resolves to a
    command afterwards resolved to one before, or is the registered path or
    lies below it; and a path that resolved to a command before, and is not
    an ancestor of the registered path, resolves to the command it resolved
    to, its subcommands included. *)
Theorem register_adds_one_node (arguments_ : RegisterArgs) (w : World) :
  let w' := (register arguments_ w).1 in
  (∀ q d', strictDive (bot w') q = Ret (Node d') →
     register_path arguments_ `prefix_of` q ∨ ∃ d, strictDive (bot w) q = Ret (Node d)) ∧
  (∀ q d, strictDive (bot w) q = Ret (Node d) →
     ¬ q `prefix_of` register_path arguments_ →
     strictDive (bot w') q = Ret (Node d)).
Proof.
  intros w'. destruct (register_path_snoc arguments_) as (parent & name & Hpath).
  unfold w'.
  destruct (register_cases arguments_ w parent name Hpath)
    as [(_ & Hfree & ->)|(_ & ->)]; simpl.
  2:{ split; [by eauto|done]. }
  split.
  - intros q d' Hq%strictDive_Node. simpl in Hq.
    destruct (walk_set_sub_at_only_adds _ _ _ (register_node arguments_) q Hfree)
      as [Hpre|[d Hd]]; [by eexists|left; by rewrite Hpath|right].
    exists d. by apply strictDive_Node.
  - intros q d Hq%strictDive_Node Hnp.
    destruct (walk_set_sub_at_keeps _ _ _ (register_node arguments_) _ _ Hfree Hq)
      as (d' & Hd' & _ & _ & Heq).
    apply strictDive_Node. simpl. rewrite Hd'. f_equal. apply Heq.
    intros Hpre. apply Hnp. rewrite Hpath. by apply prefix_app_r.
Qed.

Lemma register_adds_one_node_witness :
  (["a"; "aa"; "x"] `prefix_of` ["b"] ∨ ∃ d, strictDive diving_bot ["b"] = Ret (Node d)) ∧
  strictDive (bot (register (ByPath "a aa x" 7 None) (world0 diving_bot)).1)
    ["a"; "aa"; "aaa"] = Ret (Node node_aaa).
Proof.
  destruct (register_adds_one_node (ByPath "a aa x" 7 None) (world0 diving_bot))
    as [Honly Hsame].
  split.
  - apply (Honly ["b"] (mkCommand 4 ∅ None)). vm_compute. reflexivity.
  - apply (Hsame ["a"; "aa"; "aaa"] node_aaa).
    + vm_compute. reflexivity.
    + intros [k Hk]. discriminate Hk.
Defined.

(** ** Help messages of commands *)

Section HelpFacts.

Implicit Types root : gmap string Command.

Lemma set_help_at_cons root s s' more h :
  set_help_at root (s :: s' :: more) h =
    alter (λ c, mkCommand (cmd_action c) (set_help_at (cmd_sub c) (s' :: more) h) (cmd_help c))
      s root.
Proof. done. Qed.

Lemma set_sub_at_cons root s parent name newCmd :
  set_sub_at root (s :: parent) name newCmd =
    match root !! s with
    | Some c =>
        <[s := mkCommand (cmd_action c) (set_sub_at (cmd_sub c) parent name newCmd)
                 (cmd_help c)]> root
    | None => root
    end.
Proof. done. Qed.

(** The walk of the tree after [node.help = help] for the node at [path],
    against the walk before. *)
Lemma walk_set_help_at root path h q :
  match node_at root None q, node_at (set_help_at root path h) None q with
  | Some d, Some d' =>
      cmd_action d' = cmd_action d ∧
      (q ≠ path → cmd_help d' = cmd_help d) ∧
      (q = path → d' = mkCommand (cmd_action d) (cmd_sub d) (Some h)) ∧
      (¬ q `prefix_of` path → d' = d)
  | None, None => True
  | _, _ => False
  end.
Proof.
  revert root q. induction path as [|s0 path IH]; intros root q.
  { simpl. destruct (node_at root None q) eqn:E; [|done].
    split_and!; try done. intros ->. done. }
  destruct q as [|s q]; [done|].
  destruct (decide (s = s0)) as [->|Hne].
  2:{ assert (set_help_at root (s0 :: path) h !! s = root !! s) as Hl.
      { destruct path; simpl; by rewrite (lookup_alter_ne (M:=gmap string)). }
      cbn [node_at own_child]. rewrite Hl. destruct (root !! s) as [c|]; [|done].
      rewrite (node_at_from (set_help_at root (s0 :: path) h) root).
      destruct (node_at root (Some c) q); [|done].
      split_and!; try done. congruence. }
  destruct path as [|s1 path].
  - simpl. rewrite (lookup_alter_eq (M:=gmap string)).
    destruct (root !! s0) as [c0|]; [|done]. simpl.
    destruct q as [|s' q].
    { simpl. by split_and!. }
    rewrite !(node_at_sub _ _ (s' :: q)) by done. simpl cmd_sub.
    destruct (node_at (cmd_sub c0) None (s' :: q)); [|done].
    split_and!; done.
  - rewrite set_help_at_cons. cbn -[set_help_at].
    rewrite (lookup_alter_eq (M:=gmap string)).
    destruct (root !! s0) as [c0|]; [|done]. cbn -[set_help_at].
    destruct q as [|s' q].
    { cbn -[set_help_at]. split_and!; try done. intros Hnp. exfalso. apply Hnp.
      by apply prefix_cons, prefix_nil. }
    rewrite !(node_at_sub _ _ (s' :: q)) by done. cbn [cmd_sub].
    specialize (IH (cmd_sub c0) (s' :: q)).
    destruct (node_at (cmd_sub c0) None (s' :: q)) as [d|],
      (node_at (set_help_at (cmd_sub c0) (s1 :: path) h) None (s' :: q)) as [d'|];
      try done.
    destruct IH as (Ha & Hh & Hp & Hn). split_and!; [done| | |].
    + intros Hq. apply Hh. congruence.
    + intros Hq. apply Hp. congruence.
    + intros Hq. apply Hn. intros Hpre. apply Hq. by apply prefix_cons.
Qed.

(** The help of the new node, set after its registration. *)
Lemma set_help_at_set_sub_at root parent name a sub h0 h :
  parent = [] ∨ is_Some (node_at root None parent) →
  set_help_at (set_sub_at root parent name (mkCommand a sub h0)) (parent ++ [name]) h =
    set_sub_at root parent name (mkCommand a sub (Some h)).
Proof.
  revert root. induction parent as [|s parent IH]; intros root H.
  { simpl. by rewrite (alter_insert_eq (M:=gmap string)). }
  destruct H as [|H]; [done|]. simpl in H.
  destruct (root !! s) as [c0|] eqn:E; [|by destruct H].
  assert (parent = [] ∨ is_Some (node_at (cmd_sub c0) None parent)) as H'.
  { destruct parent as [|s' parent]; [by left|right].
    by rewrite <- (node_at_sub root). }
  change ((s :: parent) ++ [name]) with (s :: (parent ++ [name])).
  rewrite !set_sub_at_cons, E. specialize (IH (cmd_sub c0) H').
  destruct (parent ++ [name]) as [|s' more] eqn:Ep; [by destruct parent|].
  rewrite set_help_at_cons, (alter_insert_eq (M:=gmap string)). cbn [cmd_action cmd_sub cmd_help].
  by rewrite IH.
Qed.

Lemma set_help_at_twice root path h1 h2 :
  set_help_at (set_help_at root path h1) path h2 = set_help_at root path h2.
Proof.
  revert root. induction path as [|s path IH]; intros root; [done|].
  destruct path as [|s' path].
  - simpl. rewrite (alter_alter_eq (M:=gmap string)). by apply alter_ext.
  - rewrite !set_help_at_cons. rewrite (alter_alter_eq (M:=gmap string)).
    apply alter_ext. intros c _. cbn -[set_help_at]. by rewrite IH.
Qed.

End HelpFacts.

(** The node at the path, after [help]. *)
Lemma walk_set_help_at_path root path h c :
  node_at root None path = Some c →
  node_at (set_help_at root path h) None path =
    Some (mkCommand (cmd_action c) (cmd_sub c) (Some h)).
Proof.
  intros Hc. pose proof (walk_set_help_at root path h path) as Hw.
  rewrite Hc in Hw.
  destruct (node_at (set_help_at root path h) None path); [|done].
  destruct Hw as (_ & _ & -> & _); done.
Qed.

(** [help] sets no command where there was none, and removes none. *)
Lemma set_help_at_lookup root path h s :
  is_Some (set_help_at root path h !! s) ↔ is_Some (root !! s).
Proof.
  destruct path as [|s0 [|s1 path]]; [done| |]; simpl;
    (destruct (decide (s = s0)) as [->|Hne];
     [rewrite (lookup_alter_eq (M:=gmap string)); by rewrite fmap_is_Some
     |by rewrite (lookup_alter_ne (M:=gmap string))]).
Qed.

Lemma help_unfold commandPath h w :
  help commandPath h w =
    match strictDive (bot w) (Js.split_space commandPath) with
    | Ret (Node _) =>
        (mkWorld (set_commands (λ root, set_help_at root (Js.split_space commandPath) h) (bot w))
           (natives w) (log w), Ret tt)
    | Ret (Native name) => set_native_help name h w
    | Throw e => (w, Throw e)
    | Unmodelled => (w, Unmodelled)
    end.
Proof.
  unfold help, mbind, M_bind, this, lift, update. simpl.
  by destruct (strictDive (bot w) (Js.split_space commandPath)) as [[c|n]|e|].
Qed.



(** X5: [help] on a path on which [strictDive] throws, throws the same error
    and changes nothing.  On a path that resolves to a command of the tree it
    returns, and afterwards the path resolves to the same command (same
    action, same subcommands) with the new help; nothing but the command
    tree has changed.  On a path that ends at a name that every object
    inherits it returns as well, and the help is written on the function of
    the host that stands there ([__proto__], which stands for
    [Object.prototype] itself, left aside); the bot has not changed. *)
Theorem help_sets_help_of_registered_command (commandPath : string) (h : Help) (w : World) :
  let path := Js.split_space commandPath in
  let w' := (help commandPath h w).1 in
  (∀ e, strictDive (bot w) path = Throw e → help commandPath h w = (w, Throw e)) ∧
  (∀ c, strictDive (bot w) path = Ret (Node c) →
     (help commandPath h w).2 = Ret tt ∧
     log w' = log w ∧
     natives w' = natives w ∧
     bot w' = set_commands (λ _, commands (bot w')) (bot w) ∧
     strictDive (bot w') path = Ret (Node (mkCommand (cmd_action c) (cmd_sub c) (Some h)))) ∧
  (∀ name, strictDive (bot w) path = Ret (Native name) → name ≠ "__proto__" →
     help commandPath h w =
       ({| bot := bot w; natives := <[name := h]> (natives w); log := log w |}, Ret tt) ∧
     help_of (natives w') (Native name) = Some h).
Proof.
  intros path w'. unfold w'. rewrite help_unfold. fold path. split_and!.
  - by intros e ->.
  - intros c Hc. rewrite Hc. simpl. split_and!; [done..|].
    apply strictDive_Node in Hc. apply strictDive_Node. simpl.
    by apply walk_set_help_at_path.
  - intros name Hn Hne. rewrite Hn. unfold set_native_help, help_of, native_help.
    apply String.eqb_neq in Hne. rewrite Hne. simpl. split; [done|].
    apply (lookup_insert_eq (M:=gmap string)).
Qed.

Lemma help_sets_help_of_registered_command_witness :
  help "a" (StaticHelp (Text "A")) fresh_world = (fresh_world, Throw unable_to_follow) ∧
  strictDive (bot (help "a aa" (StaticHelp (Text "A")) (world0 diving_bot)).1) ["a"; "aa"] =
    Ret (Node (mkCommand 2 {[ "aaa" := node_aaa ]} (Some (StaticHelp (Text "A"))))) ∧
  help "valueOf" (StaticHelp (Text "A")) fresh_world =
    ({| bot := bot fresh_world; natives := <["valueOf" := StaticHelp (Text "A")]> ∅;
        log := [] |}, Ret tt).
Proof.
  split_and!.
  - apply (proj1 (help_sets_help_of_registered_command "a" (StaticHelp (Text "A"))
                    fresh_world)).
    vm_compute. reflexivity.
  - apply (proj1 (proj2 (help_sets_help_of_registered_command "a aa" (StaticHelp (Text "A"))
                           (world0 diving_bot))) node_aa).
    vm_compute. reflexivity.
  - apply (proj2 (proj2 (help_sets_help_of_registered_command "valueOf"
                           (StaticHelp (Text "A")) fresh_world)) "valueOf").
    + vm_compute. reflexivity.
    + discriminate.
Defined.



(** X7: registering a command with a help message is registering it without one
    and then calling [help] on its path, for both forms of the arguments of
    [register]: the same result, the same bot. *)
Theorem register_with_help_is_register_then_help (w : World) :
  (∀ commandPath action h,
     register (ByPath commandPath action (Some h)) w =
       (register (ByPath commandPath action None);; help commandPath h) w) ∧
  (∀ commandPath action sub h,
     register (ByPlugin (mkPlugin commandPath action sub (Some h))) w =
       (register (ByPlugin (mkPlugin commandPath action sub None));; help commandPath h) w).
Proof.
  assert (∀ args args0 commandPath a sub h,
            register_path args = Js.split_space commandPath →
            register_path args0 = Js.split_space commandPath →
            register_node args = mkCommand a sub (Some h) →
            register_node args0 = mkCommand a sub None →
            register args w = (register args0;; help commandPath h) w) as Hgen.
  { intros args args0 commandPath a sub h Hp Hp0 Hn Hn0.
    destruct (register_path_snoc args) as (parent & name & Hpath).
    assert (Js.split_space commandPath = parent ++ [name]) as Hsplit by congruence.
    rewrite Hsplit in Hp0.
    unfold mbind, M_bind.
    destruct (register_cases args w parent name Hpath) as [(Hf & Hfree & ->)|[Hf ->]],
      (register_cases args0 w parent name Hp0) as [(Hf0 & _ & ->)|[Hf0 ->]];
      [|done..].
    rewrite help_unfold, Hsplit. unfold strictDive. simpl.
    assert (strictDive_loop
              (set_sub_at (commands (bot w)) parent name (register_node args0)) None
              (parent ++ [name]) = Ret (Some (Node (register_node args0)))) as ->.
    { apply (strictDive_loop_Node _ None).
      by rewrite walk_set_sub_at_new by apply Hfree. }
    unfold set_commands. cbn [commands prefix state invalidCommandError errorMessage
                                stateListeners].
    rewrite Hn, Hn0, set_help_at_set_sub_at by apply Hfree. done. }
  split.
  - intros commandPath action h. by apply (Hgen _ _ commandPath action ∅ h).
  - intros commandPath action sub h.
    by apply (Hgen _ _ commandPath action (default ∅ sub) h).
Qed.

(** X8: a second [help] on the same path replaces the first: calling [help]
    twice is calling it with the last message. *)
Theorem help_last_message_wins (commandPath : string) (h1 h2 : Help) (w : World) :
  (help commandPath h1;; help commandPath h2) w = help commandPath h2 w.
Proof.
  unfold mbind, M_bind. rewrite (help_unfold _ h1 w), (help_unfold _ h2 w).
  destruct (strictDive (bot w) (Js.split_space commandPath)) as [[c|n]|e|] eqn:Hc;
    [| |done..].
  - apply strictDive_Node in Hc.
    assert (strictDive
              (set_commands (λ root, set_help_at root (Js.split_space commandPath) h1) (bot w))
              (Js.split_space commandPath) =
            Ret (Node (mkCommand (cmd_action c) (cmd_sub c) (Some h1)))) as Hc1.
    { apply strictDive_Node. simpl. by apply walk_set_help_at_path. }
    rewrite help_unfold. cbn [bot log natives]. rewrite Hc1.
    unfold set_commands. cbn [commands prefix state invalidCommandError errorMessage
                                stateListeners].
    by rewrite set_help_at_twice.
  - unfold set_native_help. destruct (String.eqb n "__proto__") eqn:E; [done|].
    rewrite help_unfold. cbn [bot]. rewrite Hc. unfold set_native_help. rewrite E.
    cbn [bot natives log]. by rewrite (insert_insert_eq (M:=gmap string)).
Qed.

(** ** The tokens of [parse] *)

Section TokenFacts.
Import Js JsFacts.

Lemma is_token_spec t : is_token t = true ↔ t ≠ "" ∧ spaceless t = true.
Proof.
  unfold is_token. rewrite andb_true_iff, negb_true_iff.
  destruct (String.eqb_spec t ""); split; intros [??]; done.
Qed.

Lemma is_token_cons c w :
  is_space c = false → (w = "" ∨ is_token w = true) → is_token (String c w) = true.
Proof.
  intros Hc Hw. apply is_token_spec. split; [done|]. simpl. rewrite Hc. simpl.
  destruct Hw as [->|Hw]; [done|]. by apply is_token_spec in Hw as [_ ?].
Qed.

(** The words of a string are tokens. *)
Lemma words_tokens s : Forall (λ t, is_token t = true) (words s).
Proof.
  induction s as [|c s IH]; [by constructor|].
  simpl. destruct (is_space c) eqn:Ec; [done|].
  destruct s as [|d s].
  { constructor; [|done]. apply is_token_cons; auto. }
  destruct (is_space d) eqn:Ed.
  { constructor; [|done]. apply is_token_cons; auto. }
  destruct (words (String d s)) as [|w ws].
  { constructor; [|done]. apply is_token_cons; auto. }
  apply Forall_cons in IH as [Hw Hws].
  constructor; [|done]. apply is_token_cons; auto.
Qed.

Lemma token_head t :
  is_token t = true → ∃ c r, t = String c r ∧ is_space c = false.
Proof.
  intros [Hne Hs]%is_token_spec. destruct t as [|c r]; [done|].
  exists c, r. split; [done|]. simpl in Hs.
  apply andb_true_iff in Hs as [Hc _]. by apply negb_true_iff.
Qed.

(** Tokens joined by single spaces are the words of the text. *)
Lemma words_join ts :
  Forall (λ t, is_token t = true) ts → words (join " " ts) = ts.
Proof.
  induction 1 as [|t ts Ht Hts IH]; [done|].
  pose proof Ht as [Hne Hs]%is_token_spec.
  destruct ts as [|t' ts].
  { simpl. rewrite <- (append_nil_r t) at 1. by rewrite words_spaceless_append. }
  change (join " " (t :: t' :: ts)) with (t +:+ String " " (join " " (t' :: ts))).
  rewrite words_spaceless_append by done. simpl is_space. cbv iota.
  f_equal. exact IH.
Qed.

Lemma join_head t ts :
  is_token t = true → ∃ c r, join " " (t :: ts) = String c r ∧ is_space c = false.
Proof.
  intros (c & r & -> & Hc)%token_head. destruct ts as [|t' ts]; simpl; eauto.
Qed.

(** [parse] with the empty prefix. *)
Lemma parse_empty_prefix m : parse "" m = words m.
Proof.
  unfold parse. simpl startsWith. cbv iota.
  destruct (blank m) eqn:Hb.
  { rewrite (tokens_blank _ Hb), (words_blank _ Hb). done. }
  rewrite (tokens_words _ Hb).
  pose proof (words_tokens m) as Hw.
  destruct (words m) as [|w ws]; [done|].
  apply Forall_cons in Hw as [[Hne _]%is_token_spec _].
  destruct (String.eqb_spec w ""); [done|]. simpl. by destruct w.
Qed.

End TokenFacts.

Lemma parse_Forall_token prefix message :
  Js.spaceless prefix = true →
  Forall (λ t, is_token t = true) (parse prefix message).
Proof.
  intros Hp. destruct (decide (prefix = "")) as [->|Hne].
  { rewrite parse_empty_prefix. apply words_tokens. }
  destruct (Js.startsWith message prefix) eqn:Hs.
  2:{ by rewrite parse_not_addressed. }
  apply JsFacts.startsWith_inv in Hs as [r ->].
  destruct r as [|c r].
  { by rewrite (parse_bare_prefix prefix Hp Hne "" I). }
  destruct (Js.is_space c) eqn:Hc.
  { by rewrite (parse_bare_prefix prefix Hp Hne (String c r) Hc). }
  rewrite parse_glued_word by done. apply words_tokens.
Qed.

(** X9: a message made of the prefix and of tokens joined by single spaces
    parses to these tokens, for a prefix without whitespace (the empty one
    included): formatting a command line and parsing it gives the command
    line back.  And the other way round: the tokens of a message that has
    some, formatted into a command line, parse to themselves. *)
Theorem parse_of_joined_tokens (prefix : string) :
  Js.spaceless prefix = true →
  (∀ ts, ts ≠ [] → Forall (λ t, is_token t = true) ts →
     parse prefix (prefix +:+ Js.join " " ts) = ts) ∧
  (∀ m, parse prefix m ≠ [] →
     parse prefix (prefix +:+ Js.join " " (parse prefix m)) = parse prefix m).
Proof.
  intros Hp.
  assert (∀ ts, ts ≠ [] → Forall (λ t, is_token t = true) ts →
            parse prefix (prefix +:+ Js.join " " ts) = ts) as Hjoin.
  { intros ts Hne Hts. destruct ts as [|t ts]; [done|].
    pose proof Hts as [Ht _]%Forall_cons.
    destruct (decide (prefix = "")) as [->|Hprefix].
    { rewrite parse_empty_prefix. by apply words_join. }
    destruct (join_head t ts Ht) as (c & r & Hj & Hc). rewrite Hj.
    rewrite parse_glued_word by done. rewrite <- Hj. by apply words_join. }
  split; [exact Hjoin|].
  intros m Hm. apply Hjoin; [done|]. by apply parse_Forall_token.
Qed.

Lemma parse_of_joined_tokens_witness :
  parse ";;" (";;" +:+ Js.join " " ["roll"; "2d6"; "+1"]) = ["roll"; "2d6"; "+1"] ∧
  parse ";;" (";;" +:+ Js.join " " (parse ";;" ";;roll   2d6  ")) = parse ";;" ";;roll   2d6  ".
Proof.
  split.
  - apply (proj1 (parse_of_joined_tokens ";;" eq_refl) ["roll"; "2d6"; "+1"]).
    + discriminate.
    + repeat constructor.
  - apply (proj2 (parse_of_joined_tokens ";;" eq_refl) ";;roll   2d6  ").
    discriminate.
Defined.

(** X10: for a prefix without whitespace, every token that [parse] gives is not
    empty and has no whitespace in it; and the tokens are as many as the
    words of the message, or none. *)
Theorem parse_gives_tokens (prefix message : string) :
  Js.spaceless prefix = true →
  Forall (λ t, is_token t = true) (parse prefix message) ∧
  (parse prefix message = [] ∨
   length (parse prefix message) = length (Js.words message)).
Proof.
  intros Hp. split; [by apply parse_Forall_token|].
  destruct (Js.startsWith message prefix) eqn:Hs.
  2:{ left. by apply parse_not_addressed. }
  destruct (Js.blank message) eqn:Hb.
  { left. apply JsFacts.startsWith_inv in Hs as [r ->].
    rewrite JsFacts.blank_append in Hb. apply andb_true_iff in Hb as [Hb Hr].
    destruct prefix as [|c p].
    - rewrite parse_empty_prefix. apply JsFacts.words_blank. exact Hr.
    - simpl in Hp, Hb. by destruct (Js.is_space c). }
  unfold parse. rewrite Hs, (JsFacts.tokens_words _ Hb).
  destruct (Js.words message) as [|w ws]; [by left|].
  destruct (String.eqb w prefix); [by left|by right].
Qed.

Lemma parse_gives_tokens_witness :
  Forall (λ t, is_token t = true) (parse ";;" ";;roll   2d6 ") ∧
  (parse ";;" ";;roll   2d6 " = [] ∨
   length (parse ";;" ";;roll   2d6 ") = length (Js.words ";;roll   2d6 ")).
Proof. apply (parse_gives_tokens ";;" ";;roll   2d6 "). reflexivity. Defined.

(** ** The dispatcher *)

Section DispatchMore.

Variable cb : Callbacks.

(** The events of a dispatch, by cases. *)
Lemma dispatch_events_cases w request :
  let evs := dispatch_events cb w request in
  let b := bot w in
  (∃ payload, evs = [EvReply (req_message request) payload]) ∨
  (∃ f payload, evs = [EvHelp f; EvReply (req_message request) payload]) ∨
  (∃ f e, evs = [EvHelp f; EvConsoleError e;
                 EvReply (req_message request) (Text (errorMessage b))]) ∨
  (∃ a e, run_action cb a b request = Some e ∧
          evs = [EvAction a request; EvConsoleError e;
                 EvReply (req_message request) (Text (errorMessage b))]) ∨
  (∃ a, run_action cb a b request = None ∧ evs = [EvAction a request]) ∨
  (∃ e, evs = [EvConsoleError e; EvReply (req_message request) (Text (errorMessage b))]).
Proof.
  unfold dispatch_events, help_events, action_events, error_events.
  destruct (help_branch (natives w) request).
  - destruct (req_command request) as [v|]; [|by eauto].
    destruct (help_of (natives w) v) as [[h|f]|]; [by eauto| |by eauto].
    destruct (run_help cb f (bot w)) as [e|h]; [|by eauto 6].
    right. right. left. by eauto.
  - destruct (req_command request) as [[c|n]|]; [| |by eauto].
    + destruct (run_action cb (cmd_action c) (bot w) request) as [e|] eqn:E.
      * right. right. right. left. by eauto.
      * right. right. right. right. left. by eauto.
    + repeat right. by eauto.
Qed.

(** The regular expression of a plain prefix and plain names is within the
    fragment. *)
Lemma rest_of_returns p through content :
  regex_plain p = true → Forall (λ t, regex_plain t = true) through →
  ∃ rest, rest_of cb p through content = Ret rest.
Proof.
  intros Hp Hts. unfold rest_of. cbv zeta.
  change ("^" +:+ ?x) with (String "^" x). cbn [Regex.compile Ascii.eqb Bool.eqb].
  rewrite (compile_plain _ _ Hp), (compile_path _ _ Hts).
  change (Regex.compile "\s*") with (Some [Regex.SpaceStar]).
  cbn [fmap option_fmap option_map]. eauto.
Qed.

End DispatchMore.

(** The names that every object inherits have no syntax character of
    regular expressions. *)
Lemma inherited_plain t : inherited t = true → regex_plain t = true.
Proof.
  unfold inherited, object_prototype_names. cbn [existsb]. intros H.
  repeat (apply orb_true_iff in H as [H|H]; [by apply String.eqb_eq in H as ->|]).
  done.
Qed.

Lemma inherited_help : inherited "help" = false ∧ inherited "--help" = false.
Proof. done. Qed.

(** X11: [receive] resolves to [false] exactly when the author of the message is
    a bot or [parse] gives no token for its content; it has then made no call
    and changed nothing. *)
Theorem receive_ignores_exactly (cb : Callbacks) (w : World) (m : Message) :
  ((receive cb m w).2 = Ret ReceivedFalse ↔
     author_bot m = true ∨ parse (prefix (bot w)) (content m) = []) ∧
  ((receive cb m w).2 = Ret ReceivedFalse → (receive cb m w).1 = w).
Proof.
  destruct (author_bot m) eqn:Hbot.
  { rewrite receive_automated by done. split; [|done]. split; auto. }
  destruct (decide (parse (prefix (bot w)) (content m) = [])) as [Hp|Hp].
  { rewrite receive_not_addressed by done. split; [|done]. split; auto. }
  destruct (weakDive (bot w) (parse (prefix (bot w)) (content m))) as [cmd|e|] eqn:Hw.
  2:{ rewrite (receive_walk_throws cb m w e) by done. simpl.
      split; [|done]. split; [done|]. intros [|]; done. }
  2:{ by apply weakDive_modelled in Hw. }
  destruct (rest_of cb (prefix (bot w)) (through cmd) (content m)) as [rest|e|] eqn:Hrest.
  - rewrite (receive_run cb m w cmd rest) by done. simpl.
    split; [|done]. split; [done|]. intros [|]; done.
  - rewrite (receive_throw cb m w cmd e) by done. simpl.
    split; [|done]. split; [done|]. intros [|]; done.
  - by apply rest_of_modelled in Hrest.
Qed.

Lemma receive_ignores_exactly_witness :
  (receive quiet (mkMessage false "hello") suite_world).1 = suite_world.
Proof.
  apply (proj2 (receive_ignores_exactly quiet suite_world (mkMessage false "hello"))).
  reflexivity.
Defined.

(** X12: for one message the bot itself replies at most once (what an action
    does with the message is its own), to the message received, and it calls
    at most one function of the user (an action or a help generator); its
    calls are added to the log in the order they are made.  When [receive]
    resolves to [void], there is exactly one such reply, unless the action of
    the command was called and returned: then the call of the action is all
    that [receive] did. *)
Theorem receive_replies_at_most_once (cb : Callbacks) (w : World) (m : Message) :
  let w' := (receive cb m w).1 in
  let evs := new_events cb m w in
  log w' = log w ++ evs ∧
  length (List.filter is_reply evs) ≤ 1 ∧
  length (List.filter is_call evs) ≤ 1 ∧
  (∀ to payload, EvReply to payload ∈ evs → to = m) ∧
  ((receive cb m w).2 = Ret ReceivedVoid →
     length (List.filter is_reply evs) = 1 ∨
     ∃ a request, evs = [EvAction a request] ∧ run_action cb a (bot w) request = None).
Proof.
  intros w' evs. unfold w', evs.
  destruct (receive_cases cb m w) as [H|[[e H]|(cmd & rest & _ & _ & _ & _ & H)]].
  - rewrite (new_events_none _ _ _ _ H), H. simpl. rewrite app_nil_r.
    split_and!; [done|lia|lia| |done].
    by intros to payload ?%elem_of_nil.
  - rewrite (new_events_none _ _ _ _ H), H. simpl. rewrite app_nil_r.
    split_and!; [done|lia|lia| |done].
    by intros to payload ?%elem_of_nil.
  - rewrite (new_events_add _ _ _ _ _ H), H. simpl.
    split; [done|].
    destruct (dispatch_events_cases cb w (request_of (prefix (bot w)) m cmd rest))
      as [(p & ->)|[(f & p & ->)|[(f & e & ->)|[(a & e & _ & ->)|[(a & Ha & ->)|(e & ->)]]]]];
      simpl; (split_and!; [lia|lia| |]);
      try (intros to payload Hin;
           repeat (apply elem_of_cons in Hin as [Hin|Hin]; [by simplify_eq|]);
           by apply elem_of_nil in Hin);
      intros _; eauto.
Qed.

Lemma receive_replies_at_most_once_witness :
  length (List.filter is_reply
            (new_events test_callbacks (mkMessage false ";;error") suite_world)) = 1 ∨
  ∃ a request,
    new_events test_callbacks (mkMessage false ";;error") suite_world =
      [EvAction a request] ∧
    run_action test_callbacks a (bot suite_world) request = None.
Proof.
  apply (proj2 (proj2 (proj2 (proj2
           (receive_replies_at_most_once test_callbacks suite_world
              (mkMessage false ";;error")))))).
  reflexivity.
Defined.

(** X13: what an unknown first token gets.  A message whose first token is no
    top-level command and no name that every object inherits, and that is not
    the single token [help], is answered with the message for an invalid
    command, once, and nothing else happens; on a new bot the message is the
    one given to the constructor, or the default one.  When the first token
    is no top-level command but a name that every object inherits
    ([constructor], [toString], ...), the message is not answered so: alone,
    the token counts as a command without an action, the [TypeError] of the
    call is printed and the message is answered with the error message; with
    more tokens after it, [receive] rejects with the [TypeError] of the
    walk. *)
Theorem unknown_command_gets_invalid_reply (cb : Callbacks) :
  (∀ w m t ts,
     author_bot m = false →
     regex_plain (prefix (bot w)) = true →
     parse (prefix (bot w)) (content m) = t :: ts →
     commands (bot w) !! t = None →
     inherited t = false →
     t :: ts ≠ ["help"] →
     receive cb m w =
       (add_log [EvReply m (Text (invalidCommandError (bot w)))] w, Ret ReceivedVoid)) ∧
  (∀ options m t ts,
     author_bot m = false →
     regex_plain (opt_prefix options) = true →
     parse (opt_prefix options) (content m) = t :: ts →
     inherited t = false →
     t :: ts ≠ ["help"] →
     receive cb m (world0 (newBot options)) =
       (add_log
          [EvReply m
             (Text (default default_invalidCommandError (opt_invalidCommandError options)))]
          (world0 (newBot options)),
        Ret ReceivedVoid)) ∧
  (∀ w m t,
     author_bot m = false →
     regex_plain (prefix (bot w)) = true →
     parse (prefix (bot w)) (content m) = [t] →
     commands (bot w) !! t = None →
     inherited t = true →
     receive cb m w =
       (add_log [EvConsoleError (TypeErrorUndefined "call");
                 EvReply m (Text (errorMessage (bot w)))] w, Ret ReceivedVoid)) ∧
  (∀ w m t u ts,
     author_bot m = false →
     parse (prefix (bot w)) (content m) = t :: u :: ts →
     commands (bot w) !! t = None →
     inherited t = true →
     receive cb m w = (w, Throw (TypeErrorUndefined u))).
Proof.
  assert (∀ w m t ts,
     author_bot m = false →
     regex_plain (prefix (bot w)) = true →
     parse (prefix (bot w)) (content m) = t :: ts →
     commands (bot w) !! t = None →
     inherited t = false →
     t :: ts ≠ ["help"] →
     receive cb m w =
       (add_log [EvReply m (Text (invalidCommandError (bot w)))] w, Ret ReceivedVoid)) as Hgen.
  { intros w m t ts Hbot Hplain Hparse Ht Hi Hne.
    destruct (rest_of_no_command cb (prefix (bot w)) (content m) Hplain) as [rest Hrest].
    assert (weakDive (bot w) (t :: ts) = Ret (mkCommandsThrough [] None)) as Hw.
    { unfold weakDive. simpl. unfold get_property. by rewrite Ht, Hi. }
    rewrite (receive_run cb m w (mkCommandsThrough [] None) rest);
      [|done|by rewrite Hparse|by rewrite Hparse|done].
    unfold dispatch_events, help_branch, request_of. simpl. rewrite Hparse.
    destruct ts as [|t' ts]; [|done]. simpl.
    case_bool_decide as Hh; [|done]. congruence. }
  split_and!; [exact Hgen| | |].
  - intros options m t ts Hbot Hplain Hparse Hi Hne.
    by apply (Hgen (world0 (newBot options)) m t ts).
  - intros w m t Hbot Hplain Hparse Ht Hi.
    assert (weakDive (bot w) [t] = Ret (mkCommandsThrough [t] (Some (Native t)))) as Hw.
    { unfold weakDive. simpl. unfold get_property. by rewrite Ht, Hi. }
    destruct (rest_of_returns cb (prefix (bot w)) [t] (content m) Hplain) as [rest Hrest].
    { constructor; [by apply inherited_plain|done]. }
    rewrite (receive_run cb m w (mkCommandsThrough [t] (Some (Native t))) rest);
      [|done|by rewrite Hparse|by rewrite Hparse|done].
    unfold dispatch_events, help_branch, request_of. simpl. by rewrite Hparse.
  - intros w m t u ts Hbot Hparse Ht Hi.
    apply receive_walk_throws; [done|by rewrite Hparse|].
    rewrite Hparse. unfold weakDive. simpl. unfold get_property. by rewrite Ht, Hi.
Qed.

Lemma unknown_command_gets_invalid_reply_witness :
  receive quiet (mkMessage false ";;yeet now") suite_world =
    (add_log [EvReply (mkMessage false ";;yeet now") (Text default_invalidCommandError)]
       suite_world, Ret ReceivedVoid) ∧
  receive quiet (mkMessage false "!help me")
    (world0 (newBot (mkOptions "!" (Some "What?") None))) =
    (add_log [EvReply (mkMessage false "!help me") (Text "What?")]
       (world0 (newBot (mkOptions "!" (Some "What?") None))), Ret ReceivedVoid) ∧
  receive quiet (mkMessage false ";;constructor") suite_world =
    (add_log [EvConsoleError (TypeErrorUndefined "call");
              EvReply (mkMessage false ";;constructor") (Text default_errorMessage)]
       suite_world, Ret ReceivedVoid) ∧
  receive quiet (mkMessage false ";;toString now") suite_world =
    (suite_world, Throw (TypeErrorUndefined "now")).
Proof.
  split_and!.
  - apply (proj1 (unknown_command_gets_invalid_reply quiet) suite_world
             (mkMessage false ";;yeet now") "yeet" ["now"]).
    + reflexivity.
    + reflexivity.
    + reflexivity.
    + vm_compute. reflexivity.
    + reflexivity.
    + discriminate.
  - apply (proj1 (proj2 (unknown_command_gets_invalid_reply quiet))
             (mkOptions "!" (Some "What?") None) (mkMessage false "!help me") "help" ["me"]).
    + reflexivity.
    + reflexivity.
    + reflexivity.
    + reflexivity.
    + discriminate.
  - apply (proj1 (proj2 (proj2 (unknown_command_gets_invalid_reply quiet))) suite_world
             (mkMessage false ";;constructor") "constructor").
    + reflexivity.
    + reflexivity.
    + reflexivity.
    + vm_compute. reflexivity.
    + reflexivity.
  - apply (proj2 (proj2 (proj2 (unknown_command_gets_invalid_reply quiet))) suite_world
             (mkMessage false ";;toString now") "toString" "now" []).
    + reflexivity.
    + reflexivity.
    + vm_compute. reflexivity.
    + reflexivity.
Defined.

Section TrimFacts.
Import Js JsFacts.

Lemma trimStart_trimEnd t : trimStart t = t → trimStart (trimEnd t) = trimEnd t.
Proof.
  intros Ht. destruct t as [|c r]; [done|].
  pose proof (trimStart_head _ _ _ Ht) as Hc.
  destruct (trimEnd_head c r) as [->|[r' ->]]; [done|].
  simpl. by rewrite Hc.
Qed.

Lemma trim_idemp s : trim (trim s) = trim s.
Proof.
  unfold trim. rewrite trimStart_trimEnd by apply trimStart_idemp.
  apply trimEnd_idemp.
Qed.

Lemma rest_of_trimmed cb p through content rest :
  rest_of cb p through content = Ret rest → trim rest = rest.
Proof.
  unfold rest_of. cbv zeta.
  destruct (Regex.compile _); [|destruct (run_regexp _ _ _)];
    intros H; simplify_eq; apply trim_idemp.
Qed.

End TrimFacts.

(** X14: the request that an action is called with is well formed: it carries
    the message received; its components are the tokens of the message, and
    they are the consumed segments followed by the arguments; the command is
    the command that [strictDive] finds at the consumed segments, and its action
    is the one called; [rest] has no whitespace at its ends.  For a prefix
    without whitespace, moreover, the segments and arguments are tokens, not
    empty and without whitespace: a command registered at a path with an
    empty segment, or with a segment that has whitespace in it, is never run
    by [receive]. *)
Theorem dispatched_request_is_well_formed (cb : Callbacks) (w : World) (m : Message)
    (a : ActionId) (request : Request) :
  EvAction a request ∈ new_events cb m w →
  req_message request = m ∧
  req_components request = parse (prefix (bot w)) (content m) ∧
  req_commands request ++ req_args request = req_components request ∧
  (∃ c, req_command request = Some (Node c) ∧
        strictDive (bot w) (req_commands request) = Ret (Node c) ∧ a = cmd_action c) ∧
  Js.trim (req_rest request) = req_rest request ∧
  (Js.spaceless (prefix (bot w)) = true →
     Forall (λ t, is_token t = true) (req_commands request) ∧
     Forall (λ t, is_token t = true) (req_args request) ∧
     ∀ path, ¬ Forall (λ t, is_token t = true) path → req_commands request ≠ path).
Proof.
  intros Hin.
  destruct (receive_cases cb m w) as [H|[[e H]|(cmd & rest & _ & _ & Hw & Hrest & H)]].
  { rewrite (new_events_none _ _ _ _ H) in Hin. by apply elem_of_nil in Hin. }
  { rewrite (new_events_none _ _ _ _ H) in Hin. by apply elem_of_nil in Hin. }
  rewrite (new_events_add _ _ _ _ _ H) in Hin.
  destruct (action_in_dispatch_events _ _ _ _ _ Hin) as (_ & -> & c & Hc & ->).
  destruct (weakDive_Ret _ _ _ Hw) as (args & Hp & Hcmd & _ & _).
  unfold request_of in *. simpl in *.
  assert (drop (length (through cmd)) (parse (prefix (bot w)) (content m)) = args) as Hargs.
  { transitivity (drop (length (through cmd)) (through cmd ++ args));
      [by f_equal|by rewrite drop_app_length]. }
  split_and!; [done|done|by rewrite Hargs| |by eapply rest_of_trimmed|].
  - exists c. split_and!; [done| |done]. apply strictDive_Ret. by rewrite Hcmd, Hc.
  - intros Hs.
    pose proof (parse_Forall_token (prefix (bot w)) (content m) Hs) as Htok.
    assert (Forall (λ t, is_token t = true) (through cmd)) as Hthrough.
    { eapply (Forall_app _ _ args). by rewrite <- Hp. }
    split_and!; [done|by apply Forall_drop|].
    intros path Hpath Heq. apply Hpath. by rewrite <- Heq.
Qed.

Lemma dispatched_request_is_well_formed_witness :
  let request :=
    request_of ";;" (mkMessage false ";;echo hi")
      (mkCommandsThrough ["echo"]
         (Some (Node (mkCommand 1 ∅ (Some (StaticHelp (Text "Echoes back what you say")))))))
      "hi" in
  req_message request = mkMessage false ";;echo hi" ∧
  req_components request = parse (prefix (bot suite_world)) ";;echo hi" ∧
  req_commands request ++ req_args request = req_components request ∧
  (∃ c, req_command request = Some (Node c) ∧
        strictDive (bot suite_world) (req_commands request) = Ret (Node c) ∧
        1 = cmd_action c) ∧
  Js.trim (req_rest request) = req_rest request ∧
  (Js.spaceless (prefix (bot suite_world)) = true →
     Forall (λ t, is_token t = true) (req_commands request) ∧
     Forall (λ t, is_token t = true) (req_args request) ∧
     ∀ path, ¬ Forall (λ t, is_token t = true) path → req_commands request ≠ path).
Proof.
  apply (dispatched_request_is_well_formed quiet suite_world (mkMessage false ";;echo hi") 1
           (request_of ";;" (mkMessage false ";;echo hi")
              (mkCommandsThrough ["echo"]
                 (Some (Node (mkCommand 1 ∅
                                (Some (StaticHelp (Text "Echoes back what you say")))))))
              "hi")).
  vm_compute. apply list_elem_of_here.
Defined.

(** ** From registration to dispatch *)

Section EndToEnd.
Import Js JsFacts.

Variable cb : Callbacks.

Lemma split_space_spaceless name : spaceless name = true → split_space name = [name].
Proof.
  induction name as [|c name IH]; [done|]. simpl.
  intros [Hc Hn]%andb_true_iff. apply negb_true_iff in Hc.
  by rewrite (not_space_neq _ Hc), (IH Hn).
Qed.

(** [register] of a new top-level command. *)
Lemma register_top_level w name action h :
  spaceless name = true → commands (bot w) !! name = None → inherited name = false →
  register (ByPath name action h) w =
    (mkWorld (set_commands (λ root, <[name := mkCommand action ∅ h]> root) (bot w))
       (natives w) (log w),
     Ret tt).
Proof.
  intros Hn Hfree Hi.
  apply (register_free (ByPath name action h) w [] name).
  - unfold register_path. by rewrite split_space_spaceless.
  - split; [by left|done].
  - done.
Qed.

(** The tokens of a message that is the prefix, a name and a text after
    it. *)
Lemma parse_name_text p name r :
  p ≠ "" → spaceless p = true → is_token name = true → word_end r = true →
  parse p (p +:+ name +:+ r) = name :: words r.
Proof.
  intros Hp Hs Hname Hr.
  destruct (token_head _ Hname) as (c & n & -> & Hc).
  apply is_token_spec in Hname as [Hne Hsn].
  change (String c n +:+ r) with (String c (n +:+ r)).
  rewrite parse_glued_word by done.
  change (String c (n +:+ r)) with (String c n +:+ r).
  rewrite words_spaceless_append by done.
  destruct r as [|d r]; [done|]. simpl in Hr. by rewrite Hr.
Qed.

(** The walk for a top-level command and arguments that name none of its
    subcommands. *)
Lemma weakDive_top_level b name c args :
  commands b !! name = Some c →
  match args with [] => True | t :: _ => get_property (cmd_sub c) t = None end →
  weakDive b (name :: args) = Ret (mkCommandsThrough [name] (Some (Node c))).
Proof.
  intros Hc Hargs. unfold weakDive. simpl. unfold get_property at 1. rewrite Hc.
  destruct args as [|t ts]; [done|]. simpl. by rewrite Hargs.
Qed.

(** [receive] on a message for a top-level command. *)
Lemma receive_top_level w m name c r :
  let b := bot w in
  author_bot m = false →
  content m = prefix b +:+ name +:+ r →
  prefix b ≠ "" → spaceless (prefix b) = true → regex_plain (prefix b) = true →
  is_token name = true → regex_plain name = true →
  commands b !! name = Some c →
  match words r with [] => True | t :: _ => get_property (cmd_sub c) t = None end →
  word_end r = true →
  receive cb m w =
    (add_log
       (dispatch_events cb w
          {| req_message := m; req_components := name :: words r;
             req_commands := [name]; req_args := words r;
             req_rest := trim r; req_command := Some (Node c) |}) w,
     Ret ReceivedVoid).
Proof.
  intros b Hbot Hcontent Hp Hs Hplain Hname Hnplain Hc Hargs Hr. subst b.
  assert (parse (prefix (bot w)) (content m) = name :: words r) as Hparse.
  { rewrite Hcontent. by apply parse_name_text. }
  pose proof (weakDive_top_level (bot w) name c (words r) Hc Hargs) as Hw.
  assert (request_of (prefix (bot w)) m (mkCommandsThrough [name] (Some (Node c))) (trim r) =
            {| req_message := m; req_components := name :: words r;
               req_commands := [name]; req_args := words r;
               req_rest := trim r; req_command := Some (Node c) |}) as Hreq.
  { unfold request_of. rewrite Hparse. done. }
  rewrite <- Hreq. apply receive_run; [done|by rewrite Hparse|by rewrite Hparse|].
  simpl.
  destruct (rest_of_plain cb (prefix (bot w)) [name] (words r) (content m))
    as (r' & Hsp & _ & _ & Hrest); [done|done|done|done|by constructor|done|].
  simpl in Hsp. rewrite Hcontent, <- append_assoc in Hsp.
  apply (inj _) in Hsp. by rewrite Hsp.
Qed.

End EndToEnd.

(** X16: a command registered by name at the top level is run by the messages
    that name it: for a non-empty prefix without whitespace, and without
    syntax characters of regular expressions in the prefix and in the name,
    after [register(name, action)] on a bot with no command of that name,
    for a name that no object inherits, a message that is the prefix, the
    name, and then nothing or whitespace and a text, calls the action once,
    with a request whose arguments are the words of the text and whose [rest]
    is the text, trimmed, provided that the first word of the text is no name
    that every object inherits; an error of the action is printed and
    answered with the error message.  With a help given at registration this
    holds for every such text but [--help]; without one, also for [--help],
    which is then an argument like another. *)
Theorem registered_command_is_run (cb : Callbacks) (w : World) (name : string)
    (action : ActionId) (h : option Help) (r : string) :
  let b := bot w in
  let m := mkMessage false (prefix b +:+ name +:+ r) in
  let request :=
    {| req_message := m; req_components := name :: Js.words r;
       req_commands := [name]; req_args := Js.words r;
       req_rest := Js.trim r; req_command := Some (Node (mkCommand action ∅ h)) |} in
  prefix b ≠ "" → Js.spaceless (prefix b) = true → regex_plain (prefix b) = true →
  is_token name = true → regex_plain name = true →
  commands b !! name = None → inherited name = false →
  word_end r = true →
  match Js.words r with [] => True | t :: _ => inherited t = false end →
  h = None ∨ Js.words r ≠ ["--help"] →
  ∃ w1,
    register (ByPath name action h) w = (w1, Ret tt) ∧
    receive cb m w1 =
      (add_log
         (EvAction action request ::
          match run_action cb action (bot w1) request with
          | Some e => [EvConsoleError e; EvReply m (Text (errorMessage b))]
          | None => []
          end) w1,
       Ret ReceivedVoid).
Proof.
  intros b m request Hp Hs Hplain Hname Hnplain Hfree Hi Hr Hargs Hh.
  pose proof Hname as [_ Hsn]%is_token_spec.
  eexists. split; [by apply register_top_level|].
  rewrite (receive_top_level cb _ m name (mkCommand action ∅ h) r); try done.
  - fold request. unfold dispatch_events, help_branch, action_events, error_events. simpl.
    destruct Hh as [->|Hh]; [by rewrite !andb_false_r|].
    destruct (Js.words r) as [|t [|t' ts]] eqn:Ew; try done. simpl.
    case_bool_decide as Ht; [|done]. by simplify_eq.
  - simpl. apply (lookup_insert_eq (M:=gmap string)).
  - simpl. destruct (Js.words r) as [|t ts]; [done|].
    unfold get_property. by rewrite (lookup_empty (M:=gmap string)), Hargs.
Qed.

Lemma registered_command_is_run_witness :
  ∃ w1,
    register (ByPath "echo" 1 None) fresh_world = (w1, Ret tt) ∧
    receive quiet (mkMessage false (";;" +:+ "echo" +:+ "  Hi!  I'm a bot! ")) w1 =
      (add_log
         [EvAction 1
            {| req_message := mkMessage false ";;echo  Hi!  I'm a bot! ";
               req_components := ["echo"; "Hi!"; "I'm"; "a"; "bot!"];
               req_commands := ["echo"];
               req_args := ["Hi!"; "I'm"; "a"; "bot!"];
               req_rest := "Hi!  I'm a bot!";
               req_command := Some (Node (mkCommand 1 ∅ None)) |}] w1,
       Ret ReceivedVoid).
Proof.
  apply (registered_command_is_run quiet fresh_world "echo" 1 None "  Hi!  I'm a bot! ").
  - discriminate.
  - reflexivity.
  - reflexivity.
  - reflexivity.
  - reflexivity.
  - reflexivity.
  - reflexivity.
  - reflexivity.
  - reflexivity.
  - left. reflexivity.
Defined.

(** X17: the help of a command is what [--help] after its name is answered with:
    under the same conditions on the prefix and the name, after
    [register(name, action)] and [help(name, h)], a message that is the
    prefix, the name, whitespace and [--help] does not run the action; a help
    that is a message is replied as it is; a help that is a function is
    called once, and its message is replied, or its error is printed and
    answered with the error message. *)
Theorem registered_help_is_replied (cb : Callbacks) (w : World) (name : string)
    (action : ActionId) (h : Help) (r : string) :
  let b := bot w in
  let m := mkMessage false (prefix b +:+ name +:+ r) in
  prefix b ≠ "" → Js.spaceless (prefix b) = true → regex_plain (prefix b) = true →
  is_token name = true → regex_plain name = true →
  commands b !! name = None → inherited name = false →
  word_end r = true →
  Js.words r = ["--help"] →
  ∃ w1,
    (register (ByPath name action None);; help name h) w = (w1, Ret tt) ∧
    receive cb m w1 =
      (add_log
         match h with
         | StaticHelp helpMessage => [EvReply m helpMessage]
         | DynamicHelp f =>
             EvHelp f ::
             match run_help cb f (bot w1) with
             | inl e => [EvConsoleError e; EvReply m (Text (errorMessage b))]
             | inr helpMessage => [EvReply m helpMessage]
             end
         end w1,
       Ret ReceivedVoid).
Proof.
  intros b m Hp Hs Hplain Hname Hnplain Hfree Hi Hr Hw.
  pose proof Hname as [_ Hsn]%is_token_spec.
  exists (mkWorld (set_commands (λ root, <[name := mkCommand action ∅ (Some h)]> root) (bot w))
            (natives w) (log w)).
  split.
  { unfold mbind, M_bind. rewrite register_top_level by done.
    rewrite help_unfold, split_space_spaceless by done.
    unfold strictDive. simpl. unfold get_property.
    rewrite (lookup_insert_eq (M:=gmap string)). simpl.
    unfold set_commands. simpl. by rewrite (alter_insert_eq (M:=gmap string)). }
  rewrite (receive_top_level cb _ m name (mkCommand action ∅ (Some h)) r); try done.
  - rewrite Hw. unfold dispatch_events, help_branch, help_events, error_events. simpl.
    by destruct h as [hm|f].
  - simpl. apply (lookup_insert_eq (M:=gmap string)).
  - simpl. by rewrite Hw.
Qed.

Lemma registered_help_is_replied_witness :
  ∃ w1,
    (register (ByPath "echo" 1 None);;
     help "echo" (StaticHelp (Text "Echoes back what you say"))) fresh_world = (w1, Ret tt) ∧
    receive quiet (mkMessage false (";;" +:+ "echo" +:+ " --help")) w1 =
      (add_log [EvReply (mkMessage false ";;echo --help") (Text "Echoes back what you say")] w1,
       Ret ReceivedVoid).
Proof.
  apply (registered_help_is_replied quiet fresh_world "echo" 1
           (StaticHelp (Text "Echoes back what you say")) " --help").
  - discriminate.
  - reflexivity.
  - reflexivity.
  - reflexivity.
  - reflexivity.
  - reflexivity.
  - reflexivity.
  - reflexivity.
  - reflexivity.
Defined.

(** The subcommand [aa] of [a], with runs of whitespace and a text after
    it. *)
Lemma receive_request_of_plain_names_witness :
  let cmd := mkCommandsThrough ["a"; "aa"] (Some (Node node_aa)) in
  let m := mkMessage false ";;a  aa x  y " in
  ∃ r,
    spaced [";;a"; "aa"] ";;a  aa x  y " r ∧
    req_commands (request_of ";;" m cmd (Js.trim r)) = ["a"; "aa"] ∧
    ["a"; "aa"] ++ req_args (request_of ";;" m cmd (Js.trim r)) = ["a"; "aa"; "x"; "y"] ∧
    Js.words (req_rest (request_of ";;" m cmd (Js.trim r))) =
      req_args (request_of ";;" m cmd (Js.trim r)) ∧
    (help_branch ∅ (request_of ";;" m cmd (Js.trim r)) = false →
     receive quiet m (world0 diving_bot) =
       (add_log
          (action_events quiet diving_bot (request_of ";;" m cmd (Js.trim r)) (Node node_aa))
          (world0 diving_bot),
        Ret ReceivedVoid)).
Proof.
  apply (receive_request_of_plain_names quiet (world0 diving_bot)
           (mkMessage false ";;a  aa x  y ")
           (mkCommandsThrough ["a"; "aa"] (Some (Node node_aa))) node_aa).
  - reflexivity.
  - discriminate.
  - reflexivity.
  - reflexivity.
  - vm_compute. reflexivity.
  - repeat constructor.
  - reflexivity.
Defined.

(** ** The state container *)

(** X18: two [setState] calls in a row leave the state that one call with both
    partial states leaves, the keys of the second winning; this holds also
    when listeners throw, since the state is assigned before they are called.
    In particular a [setState] that is repeated leaves the state as the first
    one left it. *)
Theorem setState_composes (cb : Callbacks) (p1 p2 : gmap string JsValue) (w : World) :
  let w1 := (setState cb p1 w).1 in
  state (bot (setState cb p2 w1).1) = state (bot (setState cb (p2 ∪ p1) w).1) ∧
  state (bot (setState cb p1 w1).1) = state (bot w1).
Proof.
  intros w1. unfold w1.
  pose proof (setState_unfold cb) as H. cbv zeta in H.
  rewrite (H p1 w). cbn [fst bot log]. rewrite !H. cbn [fst bot log set_state state].
  unfold spread. simpl. split; f_equal.
  - by rewrite (assoc_L (∪)).
  - by rewrite (assoc_L (∪)), (idemp_L (∪)).
Qed.

Lemma first_throw_None cb b p n ls :
  (∀ l, l ∈ ls → run_listener cb l b p n = None) → first_throw cb b p n ls = None.
Proof.
  induction ls as [|l ls IH]; intros H; [done|]. simpl.
  rewrite (H l) by apply list_elem_of_here. apply IH.
  intros l' Hl'. apply H. by apply list_elem_of_further.
Qed.

(** X19: with listeners that do not throw, [setState] calls in a row all return,
    and the listeners are told of every step, in order: for each call, each
    listener in turn, with the state before that call and the state after it,
    which is the state before the next call; the state at the end is the
    merge of all the partial states, later keys winning. *)
Theorem listeners_see_every_transition (cb : Callbacks)
    (partials : list (gmap string JsValue)) (w : World) :
  (∀ l b p n, l ∈ stateListeners (bot w) → run_listener cb l b p n = None) →
  let w' := (forEach (setState cb) partials w).1 in
  (forEach (setState cb) partials w).2 = Ret tt ∧
  log w' =
    log w ++
    flat_map (λ t, map (λ l, EvListener l t.1 t.2) (stateListeners (bot w)))
      (transitions (state (bot w)) partials) ∧
  state (bot w') = foldl spread (state (bot w)) partials ∧
  stateListeners (bot w') = stateListeners (bot w).
Proof.
  revert w. induction partials as [|p partials IH]; intros w Hquiet.
  { simpl. by rewrite app_nil_r. }
  set (w1 := {| bot := set_state (spread (state (bot w)) p) (bot w);
                natives := natives w;
                log := log w ++ map (λ l, EvListener l (state (bot w))
                                            (spread (state (bot w)) p))
                                  (stateListeners (bot w)) |}).
  assert (forEach (setState cb) (p :: partials) w = forEach (setState cb) partials w1)
    as Hstep.
  { cbn [forEach]. unfold mbind, M_bind.
    pose proof (setState_unfold cb p w) as Hs. cbv zeta in Hs.
    rewrite Hs, first_throw_None, notified_all
      by (try apply first_throw_None; intros l Hl; by apply Hquiet).
    done. }
  cbv zeta. rewrite Hstep.
  destruct (IH w1) as (Hret & Hlog & Hstate & Hls); [exact Hquiet|].
  split_and!; [done| |done|done].
  rewrite Hlog. cbn [w1 log bot stateListeners set_state state transitions flat_map fst snd].
  by rewrite <- app_assoc.
Qed.

Lemma listeners_see_every_transition_witness :
  (forEach (setState quiet) [value1_a; value2_b] world_two_listeners).2 = Ret tt ∧
  log (forEach (setState quiet) [value1_a; value2_b] world_two_listeners).1 =
    [] ++
    flat_map (λ t, map (λ l, EvListener l t.1 t.2) [1; 2])
      (transitions None [value1_a; value2_b]) ∧
  state (bot (forEach (setState quiet) [value1_a; value2_b] world_two_listeners).1) =
    foldl spread None [value1_a; value2_b] ∧
  stateListeners (bot (forEach (setState quiet) [value1_a; value2_b] world_two_listeners).1) =
    [1; 2].
Proof.
  apply (listeners_see_every_transition quiet [value1_a; value2_b] world_two_listeners).
  intros l b p n _. reflexivity.
Defined.

(** X21: a listener that [onStateUpdate] registers is told last: [onStateUpdate]
    returns, calls no listener and changes nothing but the set of listeners;
    a listener that is registered already keeps its place, a new one comes
    after those registered before.  The next [setState], with listeners that
    do not throw, tells the listeners that were registered, in their order,
    and then the new one, each once, of the same two states. *)
Theorem new_listener_is_told_last (cb : Callbacks) (action : ListenerId)
    (partial : gmap string JsValue) (w : World) :
  let w' := (onStateUpdate action w).1 in
  let previous := state (bot w) in
  let next := spread previous partial in
  (∀ l b p n, l = action ∨ l ∈ stateListeners (bot w) → run_listener cb l b p n = None) →
  (onStateUpdate action w).2 = Ret tt ∧
  log w' = log w ∧
  bot w' = set_stateListeners (stateListeners (bot w')) (bot w) ∧
  stateListeners (bot w') =
    stateListeners (bot w) ++
    (if bool_decide (action ∈ stateListeners (bot w)) then [] else [action]) ∧
  log (setState cb partial w').1 =
    log w ++
    map (λ l, EvListener l previous next) (stateListeners (bot w)) ++
    (if bool_decide (action ∈ stateListeners (bot w)) then []
     else [EvListener action previous next]).
Proof.
  intros w' previous next Hquiet.
  assert (stateListeners (bot w') =
            stateListeners (bot w) ++
            (if bool_decide (action ∈ stateListeners (bot w)) then [] else [action])) as Hls.
  { unfold w'. rewrite onStateUpdate_listeners. case_bool_decide; [|done].
    by rewrite app_nil_r. }
  assert (bot w' = set_stateListeners (stateListeners (bot w')) (bot w)) as Hbot.
  { unfold w', onStateUpdate, update. simpl. case_bool_decide; [|done].
    by destruct (bot w). }
  assert (state (bot w') = state (bot w)) as Hstate by (by rewrite Hbot).
  split_and!; [done|done|done|done|].
  pose proof (setState_unfold cb partial w') as Hs. cbv zeta in Hs.
  rewrite Hs, Hstate. cbn [fst log]. fold previous next.
  rewrite notified_all.
  2:{ apply first_throw_None. intros l Hl. apply Hquiet.
      rewrite Hls in Hl. apply elem_of_app in Hl as [Hl|Hl]; [by right|left].
      case_bool_decide; [by apply elem_of_nil in Hl|by apply list_elem_of_singleton in Hl]. }
  rewrite Hls, map_app. f_equal. f_equal. by case_bool_decide.
Qed.

Lemma new_listener_is_told_last_witness :
  log (setState quiet value1_a (onStateUpdate 3 world_two_listeners).1).1 =
    [] ++
    map (λ l, EvListener l None (Some value1_a)) [1; 2] ++
    [EvListener 3 None (Some value1_a)].
Proof.
  apply (new_listener_is_told_last quiet 3 value1_a world_two_listeners).
  intros l b p n _. reflexivity.
Defined.

(** ** The client *)

Lemma listen_all_snoc cs c k :
  listen_all (cs ++ [c]) k = listen c (listen_all cs k).
Proof. unfold listen_all. by rewrite foldl_app. Qed.

Lemma listen_all_spec cs k :
  client (listen_all cs k) = match last cs with Some c => Some c | None => client k end ∧
  client_calls (listen_all cs k) = client_calls k ++ map ClientOnMessage cs.
Proof.
  induction cs as [|c cs [IH1 IH2]] using rev_ind.
  { simpl. by rewrite app_nil_r. }
  rewrite listen_all_snoc, last_snoc. simpl. split; [done|].
  by rewrite IH2, map_app, <- app_assoc.
Qed.

(** X20: [listen] subscribes a handler on every client it is given, once per
    call (also when a client is given again), and keeps the last client
    only; [close] destroys that client, each time it is called, since it
    keeps the client; the clients of earlier [listen] calls stay subscribed
    and are not destroyed; and [close] on a bot that has not listened makes
    no call. *)
Theorem close_destroys_the_last_client (cs : list ClientId) :
  let k := listen_all cs no_connection in
  client_calls k = map ClientOnMessage cs ∧
  client_calls (close k) =
    map ClientOnMessage cs ++
    match last cs with Some c => [ClientDestroy c] | None => [] end ∧
  client (close k) = last cs ∧
  client_calls (close (close k)) =
    map ClientOnMessage cs ++
    match last cs with Some c => [ClientDestroy c; ClientDestroy c] | None => [] end ∧
  (∀ c, ClientDestroy c ∈ client_calls (close k) → last cs = Some c) ∧
  close no_connection = no_connection.
Proof.
  intros k. destruct (listen_all_spec cs no_connection) as [Hc Hcalls].
  fold k in Hc, Hcalls. simpl in Hc, Hcalls.
  assert (client k = last cs) as Hk by (rewrite Hc; by destruct (last cs)).
  destruct (last cs) as [c|].
  - assert (close k = mkConnection (Some c) (map ClientOnMessage cs ++ [ClientDestroy c]))
      as Hclose by (unfold close; by rewrite Hk, Hcalls).
    rewrite Hclose. unfold close at 1. cbn [client client_calls].
    rewrite <- app_assoc. split_and!; try done.
    intros c' [Hin|Hin%list_elem_of_singleton]%elem_of_app; [|by simplify_eq].
    apply list_elem_of_fmap in Hin as (? & ? & ?). done.
  - assert (close k = k) as Hclose by (unfold close; by rewrite Hk).
    rewrite !Hclose, Hcalls, app_nil_r. split_and!; try done.
    intros c' Hin. apply list_elem_of_fmap in Hin as (? & ? & ?). done.
Qed.

Lemma close_destroys_the_last_client_witness :
  client_calls (close (listen_all [1; 2] no_connection)) =
    map ClientOnMessage [1; 2] ++ [ClientDestroy 2] ∧
  last [1; 2] = Some 2.
Proof.
  split.
  - apply (proj1 (proj2 (close_destroys_the_last_client [1; 2]))).
  - apply (proj1 (proj2 (proj2 (proj2 (proj2 (close_destroys_the_last_client [1; 2])))))).
    vm_compute. apply list_elem_of_further, list_elem_of_further, list_elem_of_here.
Defined.

(** ** Messages for registered paths *)

Section PathMessages.
Import Js JsFacts.

Variable cb : Callbacks.

Lemma join_cons2 sep t t' ts :
  join sep (t :: t' :: ts) = t +:+ sep +:+ join sep (t' :: ts).
Proof. done. Qed.

(** The words of tokens joined by single spaces and of a text after them. *)
Lemma words_join_app ts r :
  ts ≠ [] → Forall (λ t, is_token t = true) ts → word_end r = true →
  words (join " " ts +:+ r) = ts ++ words r.
Proof.
  intros Hne Hts Hr. induction Hts as [|t ts Ht Hts IH]; [done|].
  pose proof Ht as [Hn Hs]%is_token_spec.
  destruct ts as [|t' ts].
  { simpl join. rewrite words_spaceless_append by done.
    destruct r as [|d r]; [done|]. simpl in Hr. by rewrite Hr. }
  rewrite join_cons2, !append_assoc, words_spaceless_append by done.
  change (" " +:+ ?x) with (String " " x). simpl is_space. cbv iota.
  change (words (String " " ?x)) with (words x).
  by rewrite IH.
Qed.

Lemma join_glued p t ts :
  p +:+ join " " (t :: ts) = join " " (glued p (t :: ts)).
Proof. destruct ts; simpl; [done|]. by rewrite append_assoc. Qed.

Lemma token_append p t :
  spaceless p = true → is_token t = true → is_token (p +:+ t) = true.
Proof.
  intros Hp [Hn Hs]%is_token_spec. apply is_token_spec. split.
  - destruct p; [done|discriminate].
  - clear Hn. induction p as [|c p IH]; [done|]. simpl in *.
    apply andb_true_iff in Hp as [-> Hp]. by apply IH.
Qed.

Lemma blank_before_word w s x :
  blank w = true → word_end s = false → word_end x = false →
  w +:+ s = String " " x → w = " " ∧ s = x.
Proof.
  intros Hw Hs Hx Heq. destruct w as [|c w].
  { simpl in Heq. subst s. done. }
  simpl in Heq. injection Heq as -> Heq.
  destruct w as [|d w]; [by simpl in Heq; subst|].
  exfalso. simpl in Hw, Heq. subst x. simpl in Hx.
  apply andb_true_iff in Hw as [Hd _]. congruence.
Qed.

(** A text made of tokens joined by single spaces and a rest has one
    reading as these tokens, spaced, and a rest. *)
Lemma spaced_join ts r r' :
  Forall (λ t, is_token t = true) ts → ts ≠ [] → word_end r = true →
  spaced ts (join " " ts +:+ r) r' → r' = r.
Proof.
  intros Hts Hne Hr. induction Hts as [|t ts Ht Hts IH]; [done|].
  destruct ts as [|t' ts].
  { simpl. intros H. by apply (inj _) in H. }
  rewrite join_cons2, !append_assoc.
  intros (w & s' & Heq & Hw & Hwn & Hs' & Hsp).
  apply (inj _) in Heq.
  destruct (join_head t' ts) as (c & x & Hj & Hc); [by apply Forall_cons in Hts as [? _]|].
  change (" " +:+ ?x) with (String " " x) in Heq.
  symmetry in Heq. apply blank_before_word in Heq as [-> ->]; [|done|done|].
  2:{ rewrite Hj. simpl. exact Hc. }
  by apply IH.
Qed.

(** [receive] on a message that is the prefix, a registered path with
    single spaces, and a text that does not go on with a subcommand. *)
Lemma receive_path w m path c r :
  author_bot m = false →
  content m = prefix (bot w) +:+ join " " path +:+ r →
  prefix (bot w) ≠ "" → spaceless (prefix (bot w)) = true →
  regex_plain (prefix (bot w)) = true →
  Forall (λ t, is_token t = true) path →
  Forall (λ t, regex_plain t = true) path →
  strictDive (bot w) path = Ret (Node c) →
  word_end r = true →
  match words r with [] => True | t :: _ => get_property (cmd_sub c) t = None end →
  receive cb m w =
    (add_log
       (dispatch_events cb w
          {| req_message := m; req_components := path ++ words r;
             req_commands := path; req_args := words r;
             req_rest := trim r; req_command := Some (Node c) |}) w,
     Ret ReceivedVoid).
Proof.
  intros Hbot Hcontent Hp Hs Hplain Htok Hnplain Hc Hr Hargs.
  pose proof Hc as Hn%strictDive_Node. apply strictDive_Ret in Hc.
  destruct path as [|t path]; [done|].
  pose proof Htok as [Ht _]%Forall_cons.
  assert (parse (prefix (bot w)) (content m) = (t :: path) ++ words r) as Hparse.
  { rewrite Hcontent. destruct (join_head t path Ht) as (c0 & x & Hj & Hc0).
    rewrite Hj. change (String c0 x +:+ r) with (String c0 (x +:+ r)).
    rewrite parse_glued_word by done.
    change (String c0 (x +:+ r)) with (String c0 x +:+ r). rewrite <- Hj.
    by apply words_join_app. }
  assert (weakDive (bot w) ((t :: path) ++ words r) =
            Ret (mkCommandsThrough (t :: path) (Some (Node c)))) as Hw.
  { destruct (words r) as [|s rest].
    - rewrite app_nil_r. by apply weakDive_of_resolved.
    - apply get_property_None in Hargs as [Hown Hi].
      assert (free_slot (commands (bot w)) (t :: path) s) as Hfree.
      { split; [right; by rewrite Hn|]. by rewrite Hn. }
      pose proof (walk_stops (bot w) (t :: path) s rest Hfree) as H.
      rewrite Hi, Hn in H. apply H. }
  assert (request_of (prefix (bot w)) m (mkCommandsThrough (t :: path) (Some (Node c)))
            (trim r) =
            {| req_message := m; req_components := (t :: path) ++ words r;
               req_commands := t :: path; req_args := words r;
               req_rest := trim r; req_command := Some (Node c) |}) as Hreq.
  { unfold request_of. rewrite Hparse. cbn [through command].
    by rewrite drop_app_length. }
  rewrite <- Hreq. apply receive_run; [done|by rewrite Hparse|by rewrite Hparse|].
  cbn [through].
  destruct (rest_of_plain cb (prefix (bot w)) (t :: path) (words r) (content m))
    as (r' & Hsp & Hr' & _ & Hrest); [done..|].
  rewrite Hcontent, <- append_assoc, join_glued in Hsp.
  apply spaced_join in Hsp; [by rewrite Hsp in Hrest| |done|done].
  simpl. constructor; [by apply token_append|].
  by apply Forall_cons in Htok as [_ ?].
Qed.

End PathMessages.

(** X22: a message for a registered path is dispatched to the command at that
    path: for a non-empty prefix without whitespace, and without syntax
    characters of regular expressions in the prefix and in the names, a
    message that is the prefix, the segments of a registered path with single
    spaces between them, and then nothing or whitespace and a text whose
    first word the command at the path has no property for: it is no
    subcommand of it and no name that every object inherits.  When the text
    is [--help] and the command has a help, the help is replied (a help that
    is a function is called once; its error is printed and answered with
    the error message), and the action is not run.  Otherwise the action of
    that command, and of no ancestor of it, is called once, with the path as
    [commands], the words of the text as [args] and the trimmed text as
    [rest]; an error of the action is printed and answered with the error
    message. *)
Theorem message_for_registered_path (cb : Callbacks) (w : World) (path : list string)
    (c : Command) (r : string) :
  let b := bot w in
  let m := mkMessage false (prefix b +:+ Js.join " " path +:+ r) in
  let request :=
    {| req_message := m; req_components := path ++ Js.words r;
       req_commands := path; req_args := Js.words r;
       req_rest := Js.trim r; req_command := Some (Node c) |} in
  let run :=
    EvAction (cmd_action c) request ::
    match run_action cb (cmd_action c) b request with
    | Some e => [EvConsoleError e; EvReply m (Text (errorMessage b))]
    | None => []
    end in
  prefix b ≠ "" → Js.spaceless (prefix b) = true → regex_plain (prefix b) = true →
  Forall (λ t, is_token t = true) path →
  Forall (λ t, regex_plain t = true) path →
  strictDive b path = Ret (Node c) →
  word_end r = true →
  match Js.words r with [] => True | t :: _ => get_property (cmd_sub c) t = None end →
  receive cb m w =
    (add_log
       (if bool_decide (Js.words r = ["--help"]) then
          match cmd_help c with
          | Some (StaticHelp helpMessage) => [EvReply m helpMessage]
          | Some (DynamicHelp f) =>
              EvHelp f ::
              match run_help cb f b with
              | inl e => [EvConsoleError e; EvReply m (Text (errorMessage b))]
              | inr helpMessage => [EvReply m helpMessage]
              end
          | None => run
          end
        else run) w,
     Ret ReceivedVoid).
Proof.
  intros b m request run Hp Hs Hplain Htok Hnplain Hc Hr Hargs.
  rewrite (receive_path cb w m path c r); try done.
  f_equal. f_equal. subst request run b.
  unfold dispatch_events, help_branch, help_events, action_events, error_events.
  cbn [req_args req_command req_message defined mbind option_bind negb andb orb help_of].
  destruct (decide (Js.words r = ["--help"])) as [Hw|Hw].
  - rewrite (bool_decide_eq_true_2 _ Hw), Hw.
    cbn [length Nat.eqb lookup list_lookup andb].
    rewrite bool_decide_eq_true_2 by done. cbn [andb].
    by destruct (cmd_help c) as [[hm|f]|].
  - rewrite (bool_decide_eq_false_2 _ Hw).
    destruct (Js.words r) as [|t [|t' ts]] eqn:Ew; try done.
    cbn [length Nat.eqb lookup list_lookup andb].
    case_bool_decide as Ht; [|done]. by simplify_eq.
Qed.

Lemma message_for_registered_path_witness :
  receive quiet (mkMessage false ";;ping pong now") readme_world =
    (add_log
       [EvAction 2
          {| req_message := mkMessage false ";;ping pong now";
             req_components := ["ping"; "pong"; "now"];
             req_commands := ["ping"; "pong"]; req_args := ["now"];
             req_rest := "now"; req_command := Some (Node (mkCommand 2 ∅ None)) |}]
       readme_world,
     Ret ReceivedVoid).
Proof.
  exact (message_for_registered_path quiet readme_world ["ping"; "pong"]
           (mkCommand 2 ∅ None) " now"
           ltac:(discriminate) eq_refl eq_refl
           ltac:(repeat constructor) ltac:(repeat constructor)
           ltac:(vm_compute; reflexivity) eq_refl ltac:(vm_compute; reflexivity)).
Defined.

(** The segments that [weakDive] consumes have no syntax character of
    regular expressions when the names of the commands have none. *)
Lemma through_plain b path cmd :
  (∀ q c, strictDive b q = Ret (Node c) → Forall (λ t, regex_plain t = true) q) →
  weakDive b path = Ret cmd →
  Forall (λ t, regex_plain t = true) (through cmd).
Proof.
  intros Hnames Hw.
  destruct (walk_cases b path)
    as [->|[(c & _ & Hs & Hw')|(parent & s & rest & -> & [Hp _] & _ & H)]].
  - unfold weakDive in Hw. simpl in Hw. by simplify_eq.
  - rewrite Hw' in Hw. simplify_eq. simpl. by apply (Hnames _ c).
  - assert (Forall (λ t, regex_plain t = true) parent) as Hparent.
    { destruct Hp as [->|[c Hc]]; [done|]. apply (Hnames _ c). by apply strictDive_Node. }
    destruct (inherited s) eqn:Hi; [destruct rest|]; destruct H as [_ Hw']; rewrite Hw' in Hw;
      simplify_eq; simpl; [|done].
    apply Forall_app. split; [done|]. constructor; [by apply inherited_plain|done].
Qed.

(** What [weakDive] throws on, has a name that every object inherits in it. *)
Lemma weakDive_Throw_inherited b path e :
  weakDive b path = Throw e → ∃ t, inherited t = true ∧ t ∈ path.
Proof.
  intros Hw.
  destruct (walk_cases b path)
    as [->|[(c & _ & _ & Hw')|(parent & s & rest & -> & _ & _ & H)]]; [done|congruence|].
  destruct (inherited s) eqn:Hi.
  - exists s. split; [done|]. apply elem_of_app. right. apply list_elem_of_here.
  - destruct H as [_ Hw']. congruence.
Qed.

(** X23: where [receive] rejects.  When the prefix and the names of the
    registered commands have no syntax character of regular expressions,
    [receive] resolves, to [false] or to [void], whatever the functions of
    the user do, those that throw included, for every message whose tokens
    [weakDive] returns on; it rejects exactly when [weakDive] throws on the
    tokens of the message, with that [TypeError], and then nothing was called
    or changed.  This takes a token that is a name that every object inherits
    ([constructor], [toString], ...): for a message without one, [receive]
    resolves. *)
Theorem receive_rejects_only_below_inherited_names (cb : Callbacks) (w : World)
    (m : Message) :
  regex_plain (prefix (bot w)) = true →
  (∀ q c, strictDive (bot w) q = Ret (Node c) → Forall (λ t, regex_plain t = true) q) →
  let components := parse (prefix (bot w)) (content m) in
  let r := (receive cb m w).2 in
  (r = Ret ReceivedFalse ∨ r = Ret ReceivedVoid ∨ ∃ t, r = Throw (TypeErrorUndefined t)) ∧
  (∀ e, r = Throw e ↔ author_bot m = false ∧ weakDive (bot w) components = Throw e) ∧
  (∀ e, r = Throw e →
        (receive cb m w).1 = w ∧ ∃ t, inherited t = true ∧ t ∈ components) ∧
  (Forall (λ t, inherited t = false) components →
   r = Ret ReceivedFalse ∨ r = Ret ReceivedVoid).
Proof.
  intros Hp Hnames components r.
  assert (r = Ret ReceivedFalse ∧ (author_bot m = true ∨ components = []) ∨
          (r = Ret ReceivedVoid ∧ ∃ cmd, weakDive (bot w) components = Ret cmd) ∨
          (∃ e, receive cb m w = (w, Throw e) ∧ author_bot m = false ∧
                weakDive (bot w) components = Throw e)) as Hcases.
  { unfold r. destruct (author_bot m) eqn:Hbot.
    { left. rewrite receive_automated by done. by auto. }
    destruct (decide (components = [])) as [Hparse|Hparse].
    { left. rewrite receive_not_addressed by done. by auto. }
    right. destruct (weakDive (bot w) components) as [cmd|e|] eqn:Hw.
    - left. pose proof (through_plain _ _ _ Hnames Hw) as Hts.
      destruct (rest_of_returns cb _ _ (content m) Hp Hts) as [rest Hrest].
      rewrite (receive_run cb m w cmd rest) by done. by eauto.
    - right. exists e. split; [|done]. by apply receive_walk_throws.
    - by apply weakDive_modelled in Hw. }
  split_and!.
  - destruct Hcases as [[-> _]|[[-> _]|(e & He & _ & Hw)]]; [by auto..|].
    destruct (weakDive_Throw _ _ _ Hw) as [_ [t ->]].
    right. right. exists t. unfold r. by rewrite He.
  - intros e. destruct Hcases as [[-> Hc]|[[-> [cmd Hw]]|(e' & He & Hbot & Hw)]].
    + split; [done|]. intros [Hbot Hw]. destruct Hc as [Hc|Hc]; [congruence|].
      rewrite Hc in Hw. done.
    + split; [done|]. intros [_ Hw']. congruence.
    + unfold r. rewrite He. simpl. split; [intros [= <-]; by auto|].
      intros [_ Hw']. congruence.
  - intros e Hr. destruct Hcases as [[Hr' _]|[[Hr' _]|(e' & He & _ & Hw)]];
      [congruence..|].
    rewrite He. split; [done|]. by apply (weakDive_Throw_inherited _ _ _ Hw).
  - intros Hnone. destruct Hcases as [[-> _]|[[-> _]|(e' & He & _ & Hw)]]; [by auto..|].
    destruct (weakDive_Throw_inherited _ _ _ Hw) as (t & Hi & Hin).
    rewrite Forall_forall in Hnone. specialize (Hnone t Hin). congruence.
Qed.

Lemma receive_rejects_only_below_inherited_names_witness :
  ((receive test_callbacks (mkMessage false ";;toString now") (world0 diving_bot)).2 =
     Throw (TypeErrorUndefined "now") ↔
   false = false ∧
   weakDive diving_bot (parse ";;" ";;toString now") = Throw (TypeErrorUndefined "now")) ∧
  (Forall (λ t, inherited t = false) (parse ";;" ";;error now") →
   (receive test_callbacks (mkMessage false ";;error now") (world0 diving_bot)).2 =
     Ret ReceivedFalse ∨
   (receive test_callbacks (mkMessage false ";;error now") (world0 diving_bot)).2 =
     Ret ReceivedVoid).
Proof.
  assert (∀ q c, strictDive (bot (world0 diving_bot)) q = Ret (Node c) →
                 Forall (λ t, regex_plain t = true) q) as Hnames.
  { intros q c Hq. apply strictDive_Node in Hq.
    destruct q as [|s1 q]; [discriminate Hq|].
    change (commands (bot (world0 diving_bot)))
      with (<["a" := node_a]> (<["b" := mkCommand 4 ∅ None]> (∅ : gmap string Command)))
      in Hq.
    simpl in Hq.
    destruct (decide (s1 = "a")) as [->|Ha].
    2:{ rewrite (lookup_insert_ne (M:=gmap string)) in Hq by done.
        destruct (decide (s1 = "b")) as [->|Hb].
        2:{ rewrite (lookup_insert_ne (M:=gmap string)),
              (lookup_empty (M:=gmap string)) in Hq by done. discriminate Hq. }
        rewrite (lookup_insert_eq (M:=gmap string)) in Hq.
        destruct q as [|s2 q]; [repeat constructor|].
        simpl in Hq. rewrite (lookup_empty (M:=gmap string)) in Hq. discriminate Hq. }
    rewrite (lookup_insert_eq (M:=gmap string)) in Hq.
    destruct q as [|s2 q]; [repeat constructor|]. simpl in Hq.
    destruct (decide (s2 = "aa")) as [->|Haa].
    2:{ rewrite (lookup_singleton_ne (M:=gmap string)) in Hq by done. discriminate Hq. }
    rewrite (lookup_singleton_eq (M:=gmap string)) in Hq.
    destruct q as [|s3 q]; [repeat constructor|]. simpl in Hq.
    destruct (decide (s3 = "aaa")) as [->|Haaa].
    2:{ rewrite (lookup_singleton_ne (M:=gmap string)) in Hq by done. discriminate Hq. }
    rewrite (lookup_singleton_eq (M:=gmap string)) in Hq.
    destruct q as [|s4 q]; [repeat constructor|]. simpl in Hq.
    rewrite (lookup_empty (M:=gmap string)) in Hq. discriminate Hq. }
  split.
  - apply (proj1 (proj2 (receive_rejects_only_below_inherited_names test_callbacks
                           (world0 diving_bot) (mkMessage false ";;toString now")
                           eq_refl Hnames))).
  - apply (proj2 (proj2 (proj2 (receive_rejects_only_below_inherited_names test_callbacks
                                  (world0 diving_bot) (mkMessage false ";;error now")
                                  eq_refl Hnames)))).
Defined.

(** ** Ancestors and prefixes *)

Lemma weakDive_loop_app root current through p1 p2 v :
  strictDive_loop root current p1 = Ret (Some v) →
  weakDive_loop root current through (p1 ++ p2) =
    weakDive_loop root (Some v) (through ++ p1) p2.
Proof.
  revert current through. induction p1 as [|s p1 IH]; intros current through H.
  { simpl in *. simplify_eq. by rewrite app_nil_r. }
  simpl in *. destruct (child_of root current s) as [[v'|]|e|]; try done.
  by rewrite (IH _ _ H), <- app_assoc.
Qed.

(** X24: the parents come first.  [register] throws "Unable to follow commands"
    and changes nothing whenever the strict walk throws that error on a
    proper ancestor of the path; and where a proper ancestor leads to a
    function of the host, under a name that every object inherits, it
    changes nothing either, and throws the [TypeError] of the read of the
    next segment.  On a new bot, and on every bot without a command [a],
    registering [a], then [a b], then [a b c] succeeds, and afterwards
    [strictDive] resolves each of the three paths to its command. *)
Theorem register_needs_registered_ancestors :
  (∀ arguments_ w q rest,
     register_path arguments_ = q ++ rest → q ≠ [] → rest ≠ [] →
     strictDive (bot w) q = Throw unable_to_follow →
     register arguments_ w = (w, Throw unable_to_follow)) ∧
  (∀ arguments_ w q name t rest,
     register_path arguments_ = q ++ t :: rest →
     strictDive (bot w) q = Ret (Native name) →
     register arguments_ w = (w, Throw (TypeErrorUndefined t))) ∧
  (∀ options act1 act2 act3 h1 h2 h3,
     ∃ w',
       (register (ByPath "a" act1 h1);;
        register (ByPath "a b" act2 h2);;
        register (ByPath "a b c" act3 h3)) (world0 (newBot options)) = (w', Ret tt) ∧
       strictDive (bot w') ["a"] =
         Ret (Node (mkCommand act1
                      {[ "b" := mkCommand act2 {[ "c" := mkCommand act3 ∅ h3 ]} h2 ]} h1)) ∧
       strictDive (bot w') ["a"; "b"] =
         Ret (Node (mkCommand act2 {[ "c" := mkCommand act3 ∅ h3 ]} h2)) ∧
       strictDive (bot w') ["a"; "b"; "c"] = Ret (Node (mkCommand act3 ∅ h3))) ∧
  (∀ w act1 act2 act3 h1 h2 h3,
     commands (bot w) !! "a" = None →
     ∃ w',
       (register (ByPath "a" act1 h1);;
        register (ByPath "a b" act2 h2);;
        register (ByPath "a b c" act3 h3)) w = (w', Ret tt) ∧
       strictDive (bot w') ["a"] =
         Ret (Node (mkCommand act1
                      {[ "b" := mkCommand act2 {[ "c" := mkCommand act3 ∅ h3 ]} h2 ]} h1)) ∧
       strictDive (bot w') ["a"; "b"] =
         Ret (Node (mkCommand act2 {[ "c" := mkCommand act3 ∅ h3 ]} h2)) ∧
       strictDive (bot w') ["a"; "b"; "c"] = Ret (Node (mkCommand act3 ∅ h3))).
Proof.
  assert (∀ w act1 act2 act3 h1 h2 h3,
     commands (bot w) !! "a" = None →
     ∃ w',
       (register (ByPath "a" act1 h1);;
        register (ByPath "a b" act2 h2);;
        register (ByPath "a b c" act3 h3)) w = (w', Ret tt) ∧
       strictDive (bot w') ["a"] =
         Ret (Node (mkCommand act1
                      {[ "b" := mkCommand act2 {[ "c" := mkCommand act3 ∅ h3 ]} h2 ]} h1)) ∧
       strictDive (bot w') ["a"; "b"] =
         Ret (Node (mkCommand act2 {[ "c" := mkCommand act3 ∅ h3 ]} h2)) ∧
       strictDive (bot w') ["a"; "b"; "c"] = Ret (Node (mkCommand act3 ∅ h3))) as Hchain.
  { intros w act1 act2 act3 h1 h2 h3 Ha. eexists. split.
    { by apply register_chain. }
    unfold strictDive. map_eval.
    rewrite !(lookup_singleton_eq (M:=gmap string)). map_eval.
    rewrite !(lookup_singleton_eq (M:=gmap string)). done. }
  split_and!; [apply register_missing_ancestor| | |exact Hchain].
  - intros arguments_ w q name t rest Hpath Hq%strictDive_Ret.
    rewrite register_unfold. cbv zeta. rewrite Hpath. unfold weakDive.
    by rewrite (weakDive_loop_app _ _ _ _ _ _ Hq), weakDive_loop_native.
  - intros options act1 act2 act3 h1 h2 h3. by apply Hchain.
Qed.

Lemma register_needs_registered_ancestors_witness :
  register (ByPath "a b" 1 None) fresh_world = (fresh_world, Throw unable_to_follow) ∧
  register (ByPath "toString now" 1 None) fresh_world =
    (fresh_world, Throw (TypeErrorUndefined "now")) ∧
  ∃ w',
    (register (ByPath "a" 1 None);;
     register (ByPath "a b" 2 None);;
     register (ByPath "a b c" 3 None)) fresh_world = (w', Ret tt) ∧
    strictDive (bot w') ["a"] =
      Ret (Node (mkCommand 1 {[ "b" := mkCommand 2 {[ "c" := mkCommand 3 ∅ None ]} None ]}
                   None)) ∧
    strictDive (bot w') ["a"; "b"] =
      Ret (Node (mkCommand 2 {[ "c" := mkCommand 3 ∅ None ]} None)) ∧
    strictDive (bot w') ["a"; "b"; "c"] = Ret (Node (mkCommand 3 ∅ None)).
Proof.
  split_and!.
  - apply (proj1 register_needs_registered_ancestors (ByPath "a b" 1 None)
             fresh_world ["a"] ["b"]).
    + reflexivity.
    + discriminate.
    + discriminate.
    + vm_compute. reflexivity.
  - apply (proj1 (proj2 register_needs_registered_ancestors) (ByPath "toString now" 1 None)
             fresh_world ["toString"] "toString" "now" []).
    + reflexivity.
    + vm_compute. reflexivity.
  - apply (proj2 (proj2 (proj2 register_needs_registered_ancestors))
             fresh_world 1 2 3 None None None).
    vm_compute. reflexivity.
Defined.

(** X25: when the permissive walk [weakDive] returns, it gives the longest
    prefix of the components that the strict walk resolves, with what this
    prefix resolves to; the command is absent exactly when no segment was
    consumed.  Every non-empty prefix of [through] is a path that
    [strictDive] resolves, [through] itself to the returned command, and on
    every longer prefix of the components [strictDive] throws "Unable to
    follow commands"; the result depends on the tree only.  On the tree
    a → aa → aaa, [weakDive ["a";"aa";"x"]] is [["a";"aa"]] with the node of
    [aa], and [weakDive ["z";"a"]] is the empty list with no node. *)
Theorem weakDive_longest_resolved_prefix (b : Bot) (path : list string)
    (r : CommandsThrough) :
  weakDive b path = Ret r →
  through r `prefix_of` path ∧
  strictDive b (through r) =
    match command r with Some v => Ret v | None => Throw unable_to_follow end ∧
  (command r = None ↔ through r = []) ∧
  (∀ q, q `prefix_of` through r → q ≠ [] → ∃ v, strictDive b q = Ret v) ∧
  (∀ q, q `prefix_of` path → length (through r) < length q →
        strictDive b q = Throw unable_to_follow) ∧
  (∀ b', commands b' = commands b → weakDive b' path = Ret r) ∧
  (strictDive diving_bot ["a"; "aa"] = Ret (Node node_aa) ∧
   weakDive diving_bot ["a"; "aa"; "x"] =
     Ret (mkCommandsThrough ["a"; "aa"] (Some (Node node_aa))) ∧
   weakDive diving_bot ["z"; "a"] = Ret (mkCommandsThrough [] None)).
Proof.
  intros Hw. destruct (weakDive_Ret b path r Hw) as (rest & Hp & Hc & Hn & Hr).
  assert (command r = None ↔ through r = []) as Hiff.
  { split; intros H.
    - destruct Hn as [|[c Hs]]; [done|congruence].
    - rewrite H in Hc. simpl in Hc. by simplify_eq. }
  split_and!.
  - by exists rest.
  - unfold strictDive. rewrite Hc. by destruct (command r).
  - done.
  - intros q [k Hk] Hq.
    destruct (command r) as [v|] eqn:Ev.
    2:{ rewrite (proj1 Hiff eq_refl) in Hk. by destruct q. }
    rewrite Hk in Hc. apply strictDive_loop_prefix in Hc as [v' Hs]; [|done].
    exists v'. by apply strictDive_Ret.
  - intros q [k Hk] Hlen. apply strictDive_Throw.
    rewrite Hp in Hk.
    destruct (longer_prefix_split _ _ _ _ Hk Hlen) as (s & k' & -> & ->).
    assert (strictDive_loop (commands b) None (through r ++ s :: k') =
              strictDive_loop (commands b) (command r) (s :: k')) as ->.
    { destruct (command r) as [v|] eqn:Ev.
      - by apply strictDive_loop_app.
      - by rewrite (proj1 Hiff eq_refl). }
    simpl. by rewrite Hr.
  - intros b' Hb'. rewrite <- Hw. unfold weakDive. by rewrite Hb'.
  - by vm_compute.
  - by vm_compute.
  - by vm_compute.
Qed.

Lemma weakDive_longest_resolved_prefix_witness :
  (∃ v, strictDive diving_bot ["a"] = Ret v) ∧
  strictDive diving_bot ["a"; "aa"; "x"] = Throw unable_to_follow.
Proof.
  destruct (weakDive_longest_resolved_prefix diving_bot ["a"; "aa"; "x"]
              (mkCommandsThrough ["a"; "aa"] (Some (Node node_aa))) eq_refl)
    as (_ & _ & _ & Hshort & Hlong & _ & _).
  split.
  - apply (Hshort ["a"]).
    + exists ["aa"]. reflexivity.
    + discriminate.
  - apply (Hlong ["a"; "aa"; "x"]).
    + exists []. reflexivity.
    + simpl. lia.
Defined.

